(** * Genetic search for state-preparation circuits: gene decoding and evolution step

    A shallow embedding of [gene.py] (class [Gene_Circuit]) and of the
    generation loop of [GA.py], followed by the properties established about
    them.

    Conventions of the embedding.
    - Python [int]s and the integer entries of numpy arrays are [Z]; counters
      that only ever count up from zero ([theta_index], [ii], loop indices)
      are [nat].
    - Python [float]s are idealised as exact rationals [Q].
    - An exception is a value of [Py.exn]; a call that may raise returns a
      [Py.result].
    - The qiskit circuit object is represented by the sequence of the
      instructions appended to it ([rz], [cx], [h], ...); the builder
      refuses a qubit that is not in the circuit and a [cx] whose control
      is its target, with a [CircuitError].
    - [np.random] is an oracle: a tape of raw integers from which every draw
      takes the next one (module [GA]). *)

From Stdlib Require Import String Ascii DecimalString DecimalNat.
From Stdlib Require Import List ZArith QArith Bool Lia Arith.
From Stdlib Require Import Permutation Sorted FinFun.
Import ListNotations.

Close Scope Q_scope.

(** ** Python and numpy primitives used by the sources *)

Module Py.

Inductive exn : Type :=
| IndexError
| ValueError
| CircuitError.

Inductive result (A : Type) : Type :=
| Ok (a : A)
| Err (e : exn).

Arguments Ok {A} a.
Arguments Err {A} e.

Definition bind {A B : Type} (r : result A) (k : A -> result B) : result B :=
  match r with
  | Ok a => k a
  | Err e => Err e
  end.

(** [l[i]] on a Python list: indices [-len .. len-1] are accepted, negative
    ones count from the end, anything else raises [IndexError]. *)
Definition getitem {A : Type} (l : list A) (i : Z) : result A :=
  let n := Z.of_nat (length l) in
  let pos := if (i <? 0)%Z then (n + i)%Z else i in
  if ((0 <=? pos) && (pos <? n))%Z
  then match nth_error l (Z.to_nat pos) with
       | Some x => Ok x
       | None => Err IndexError
       end
  else Err IndexError.

(** [a % n] on numpy integers: the sign follows the divisor, and a zero
    divisor yields 0 (with a warning) instead of raising. *)
Definition remainder (a n : Z) : Z :=
  if (n =? 0)%Z then 0%Z else (a mod n)%Z.

(** [str(n)] for a non-negative integer, as used by an f-string. *)
Definition str (n : nat) : string :=
  NilEmpty.string_of_uint (Nat.to_uint n).

(** [x in l] for a list of strings. *)
Definition mem (x : string) (l : list string) : bool :=
  existsb (String.eqb x) l.

End Py.

Notation "'let?' x ':=' r 'in' k" := (Py.bind r (fun x => k))
  (at level 10, x pattern, r at level 100, k at level 200).

(** ** gene.py *)

Module Gene.

Import Py.

(** [G_ij = [gate, control]]: one cell of the gene grid. *)
Definition cell : Type := (Z * Z)%type.

(** A gene: [num_qubit] rows of [length_gene] cells, shape
    [(num_qubit, length_gene, 2)]. *)
Definition gene_array : Type := list (list cell).

(** The angle of a rotation: a named [qk.circuit.Parameter] until it is
    bound, a number afterwards. *)
Inductive angle : Type :=
| Param (name : string)
| Bound (v : Q).

(** The instructions of a circuit.  [Rotation g a i] stands for the gate
    appended by [getattr(circuit, g)(a, i)], [Cx c i] for the one appended
    by [circuit.cx(., i)] with [c] the index of its control qubit, and
    [Fixed g i] for the one appended by [getattr(circuit, g)(i)]. *)
Inductive instruction : Type :=
| Rotation (gate : string) (theta : angle) (qubit : nat)
| Cx (control : Z) (target : nat)
| Fixed (gate : string) (qubit : nat).

Definition QuantumCircuit : Type := list instruction.

Definition gene_gates : list string :=
  ["empty"; "rz"; "cx"; "h"; "x"; "sx"]%string.

(** [f'theta_{theta_index}'] *)
Definition theta_name (theta_index : nat) : string :=
  ("theta_" ++ str theta_index)%string.

(** *** The circuit builder of qiskit, as far as the decoder uses it *)

(** [qk.QuantumCircuit(num_qubit)]: the empty circuit; a negative number of
    qubits is refused. *)
Definition new_circuit (num_qubit : Z) : result QuantumCircuit :=
  if (num_qubit <? 0)%Z then Err CircuitError else Ok [].

(** The qubit that an integer names, [circuit.qubits[q]]: the [num_qubit]
    qubits are indexed as a Python list, and an index outside
    [-num_qubit .. num_qubit-1] is refused. *)
Definition qubit_index (num_qubit q : Z) : result Z :=
  if ((0 <=? q) && (q <? num_qubit))%Z then Ok q
  else if ((- num_qubit <=? q) && (q <? 0))%Z then Ok (num_qubit + q)%Z
  else Err CircuitError.

(** A gate on one qubit: [getattr(circuit, gate)(..., qubit)]. *)
Definition append_gate (num_qubit : Z) (circuit : QuantumCircuit)
    (ins : instruction) (qubit : nat) : result QuantumCircuit :=
  let? _ := qubit_index num_qubit (Z.of_nat qubit) in
  Ok (circuit ++ [ins]).

(** [circuit.cx(control, target)]: both qubits must be in the circuit and
    differ. *)
Definition append_cx (num_qubit : Z) (circuit : QuantumCircuit)
    (control : Z) (target : nat) : result QuantumCircuit :=
  let? c := qubit_index num_qubit control in
  let? t := qubit_index num_qubit (Z.of_nat target) in
  if (c =? t)%Z then Err CircuitError
  else Ok (circuit ++ [Cx c target]).

(** *** Decoding *)

(** Whether all rows have one length, so that the rows are an array of
    shape [(rows, length, 2)]. *)
Definition is_array (gene : gene_array) : bool :=
  forallb (fun row => length row =? length (hd [] gene)) gene.

(** The cells by position: the outer axis becomes the position in the gene,
    the inner one the qubit. *)
Definition swapaxes (gene : gene_array) : list (list cell) :=
  match gene with
  | [] => []
  | row0 :: _ =>
      map (fun j => map (fun row => nth j row (0%Z, 0%Z)) gene)
          (seq 0 (length row0))
  end.

(** [gene.transpose(1,0,2)]: numpy refuses it unless the gene is an array of
    three axes. *)
Definition transpose (gene : gene_array) : result (list (list cell)) :=
  if is_array gene then Ok (swapaxes gene) else Err ValueError.

(** The body of the inner loop, lines 93-108, on the loop state
    [(theta_index, circuit)]. *)
Definition decode_cell (num_qubit : Z) (i : nat) (G_ij : cell)
    (st : nat * QuantumCircuit) : result (nat * QuantumCircuit) :=
  let '(theta_index, circuit) := st in
  let? gate := getitem gene_gates (fst G_ij) in
  let control := snd G_ij in
  let control :=
    if (num_qubit <=? control)%Z then remainder control num_qubit
    else control in
  if String.eqb gate "empty" then Ok st
  else if mem gate ["rx"; "ry"; "rz"]%string then
    let? circuit :=
      append_gate num_qubit circuit
        (Rotation gate (Param (theta_name theta_index)) i) i in
    Ok (S theta_index, circuit)
  else if String.eqb gate "cx" then
    if (control =? Z.of_nat i)%Z then Ok st
    else
      let? circuit := append_cx num_qubit circuit control i in
      Ok (theta_index, circuit)
  else if mem gate ["h"; "x"; "sx"]%string then
    let? circuit := append_gate num_qubit circuit (Fixed gate i) i in
    Ok (theta_index, circuit)
  else Ok st.

(** [for i, G_ij in enumerate(G_nj)] *)
Fixpoint decode_column (num_qubit : Z) (i : nat) (G_nj : list cell)
    (st : nat * QuantumCircuit) : result (nat * QuantumCircuit) :=
  match G_nj with
  | [] => Ok st
  | G_ij :: rest =>
      let? st' := decode_cell num_qubit i G_ij st in
      decode_column num_qubit (S i) rest st'
  end.

(** [for G_nj in gene] *)
Fixpoint decode_columns (num_qubit : Z) (columns : list (list cell))
    (st : nat * QuantumCircuit) : result (nat * QuantumCircuit) :=
  match columns with
  | [] => Ok st
  | G_nj :: rest =>
      let? st' := decode_column num_qubit 0 G_nj st in
      decode_columns num_qubit rest st'
  end.

Definition generate_circuit_from_gene (gene : gene_array) (num_qubit : Z)
    : result QuantumCircuit :=
  let? circuit := new_circuit num_qubit in
  let? gene := transpose gene in
  let? st := decode_columns num_qubit gene (0, circuit) in
  Ok (snd st).

(** *** The part of qiskit's circuit interface that [Gene_Circuit] uses *)

(** Names of the parameters still unbound, in the order of the calls. *)
Fixpoint unbound (circuit : QuantumCircuit) : list string :=
  match circuit with
  | [] => []
  | Rotation _ (Param name) _ :: rest => name :: unbound rest
  | _ :: rest => unbound rest
  end.

Fixpoint insert_sorted (x : string) (l : list string) : list string :=
  match l with
  | [] => [x]
  | y :: l' => if String.leb x y then x :: l else y :: insert_sorted x l'
  end.

Definition sorted_by_name (l : list string) : list string :=
  fold_right insert_sorted [] l.

(** [circuit.parameters]: qiskit returns the set of parameters of the
    circuit sorted by name (string order, so [theta_10] precedes
    [theta_2]). *)
Definition parameters (circuit : QuantumCircuit) : list string :=
  sorted_by_name (nodup string_dec (unbound circuit)).

(** [circuit.num_parameters] *)
Definition num_parameters (circuit : QuantumCircuit) : nat :=
  length (parameters circuit).

Fixpoint lookup (name : string) (d : list (string * Q)) : option Q :=
  match d with
  | [] => None
  | (k, v) :: d' => if String.eqb name k then Some v else lookup name d'
  end.

Definition assign_instruction (d : list (string * Q)) (ins : instruction)
    : instruction :=
  match ins with
  | Rotation gate (Param name) qubit =>
      match lookup name d with
      | Some v => Rotation gate (Bound v) qubit
      | None => ins
      end
  | _ => ins
  end.

(** [circuit.bind_parameters(d)]: a copy of the circuit in which every
    parameter that is a key of [d] is replaced by its value; the other
    parameters stay. *)
Definition assign_parameters (d : list (string * Q))
    (circuit : QuantumCircuit) : QuantumCircuit :=
  map (assign_instruction d) circuit.

(** [qk.transpile] rewrites gates but keeps the circuit's parameters; the
    embedding keeps the decoded instructions. *)
Definition transpile (circuit : QuantumCircuit) : QuantumCircuit := circuit.

(** *** class Gene_Circuit *)

Record Gene_Circuit : Type := mkGene_Circuit {
  gene : gene_array;
  num_qubit : Z;
  circuit : QuantumCircuit;
  gc_num_parameters : nat
}.

(** [Gene_Circuit.__init__] *)
Definition init (gene : gene_array) (num_qubit : Z) : result Gene_Circuit :=
  let? c := generate_circuit_from_gene gene num_qubit in
  let c := transpile c in
  Ok (mkGene_Circuit gene num_qubit c (num_parameters c)).

(** [{self.circuit.parameters[i]: theta[i] for i in range(len(theta))}];
    [i] is the index the comprehension has reached. *)
Fixpoint binding (params : list string) (i : nat) (theta : list Q)
    : result (list (string * Q)) :=
  match theta with
  | [] => Ok []
  | theta_i :: rest =>
      let? p := getitem params (Z.of_nat i) in
      let? d := binding params (S i) rest in
      Ok ((p, theta_i) :: d)
  end.

Definition bind_parameters (self : Gene_Circuit) (theta : list Q)
    : result QuantumCircuit :=
  let? d := binding (parameters (circuit self)) 0 theta in
  Ok (assign_parameters d (circuit self)).

End Gene.

(** ** GA.py *)

Module GA.

Import Py Gene.

(** *** Randomness

    [np.random] is an oracle that hands out raw integers from a tape.  A
    program run on a tape returns a value and the rest of the tape, raises,
    or is [Starved]: it asks for a draw when the tape is used up.  A loop
    that is starved on every tape never ends. *)

Inductive outcome (A : Type) : Type :=
| Returns (a : A) (tape : list Z)
| Raises (e : exn)
| Starved.

Arguments Returns {A} a tape.
Arguments Raises {A} e.
Arguments Starved {A}.

Definition Rand (A : Type) : Type := list Z -> outcome A.

Definition ret {A : Type} (a : A) : Rand A := fun tape => Returns a tape.

Definition bind {A B : Type} (m : Rand A) (k : A -> Rand B) : Rand B :=
  fun tape =>
    match m tape with
    | Returns a tape' => k a tape'
    | Raises e => Raises e
    | Starved => Starved
    end.

Notation "x <- m ;; k" := (bind m (fun x => k))
  (at level 61, m at next level, right associativity).
Notation "' pat <- m ;; k" := (bind m (fun x => match x with pat => k end))
  (at level 61, pat pattern, m at next level, right associativity).

(** The value [np.random.randint(low, high)] makes of the raw draw [r]: an
    integer of [low .. high-1]; [ValueError] when that range is empty. *)
Definition draw (low high r : Z) : result Z :=
  if (high <=? low)%Z then Err ValueError
  else Ok (low + r mod (high - low))%Z.

(** [np.random.randint(low, high)] *)
Definition randint (low high : Z) : Rand Z :=
  fun tape =>
    if (high <=? low)%Z then Raises ValueError
    else match tape with
         | [] => Starved
         | r :: tape' => Returns (low + r mod (high - low))%Z tape'
         end.

(** [np.random.randint(low, high, n)] *)
Fixpoint randint_n (low high : Z) (n : nat) : Rand (list Z) :=
  match n with
  | O => ret []
  | S n' =>
      v <- randint low high ;;
      vs <- randint_n low high n' ;;
      ret (v :: vs)
  end.

(** [np.random.rand()]: a float of [0, 1), a multiple of [2^-53]. *)
Definition rand : Rand Q :=
  fun tape =>
    match tape with
    | [] => Starved
    | r :: tape' => Returns (Qmake (r mod 2 ^ 53) (2 ^ 53)) tape'
    end.

(** [np.random.rand(n)] *)
Fixpoint rand_n (n : nat) : Rand (list Q) :=
  match n with
  | O => ret []
  | S n' =>
      v <- rand ;;
      vs <- rand_n n' ;;
      ret (v :: vs)
  end.

(** [x < y] on floats *)
Definition Qltb (x y : Q) : bool := negb (Qle_bool y x).

(** *** Fidelity and its optimisation (lines 46-116) *)

Definition complex : Type := (Q * Q)%type.

Definition conj (z : complex) : complex := (fst z, - snd z)%Q.

Definition cmul (a b : complex) : complex :=
  (fst a * fst b - snd a * snd b, fst a * snd b + snd a * fst b)%Q.

Definition cadd (a b : complex) : complex :=
  (fst a + fst b, snd a + snd b)%Q.

(** [np.dot] of two vectors; their lengths must agree. *)
Definition dot (u v : list complex) : result complex :=
  if length u =? length v
  then Ok (fold_left cadd (map (fun p => cmul (fst p) (snd p)) (combine u v))
                     (0, 0)%Q)
  else Err ValueError.

(** [np.abs(z)**2] *)
Definition abs2 (z : complex) : Q := (fst z * fst z + snd z * snd z)%Q.

Definition get_fidelity (statevector target_statevector : list complex)
    : result Q :=
  let? d := dot (map conj statevector) target_statevector in
  Ok (abs2 d).

(** What one run of the evaluator did with the optimizer, next to what it
    returned or raised. *)
Inductive event : Type :=
| Minimize (x0 : list Q).

Record traced (A : Type) : Type := mkTraced {
  events : list event;
  value : result A
}.

Arguments mkTraced {A} events value.
Arguments events {A} t.
Arguments value {A} t.

(** (fidelity, depth, theta) *)
Definition evaluation : Type := (Q * nat * list Q)%type.

Section Evaluator.

(** The statevector simulator behind [qk.execute]. *)
Variable simulate : QuantumCircuit -> list complex.

(** [optimizer.minimize(loss, x0=theta).x] *)
Variable minimize : (list Q -> result Q) -> list Q -> result (list Q).

(** [circuit.depth()] *)
Variable circuit_depth : QuantumCircuit -> nat.

Definition statevector (Gene : Gene_Circuit) (theta : list Q)
    : result (list complex) :=
  let? circuit := bind_parameters Gene theta in
  Ok (simulate circuit).

Definition loss (Gene : Gene_Circuit) (target_statevector : list complex)
    (theta : list Q) : result Q :=
  let? sv := statevector Gene theta in
  let? fidelity := get_fidelity sv target_statevector in
  Ok (- fidelity)%Q.

(** Lines 94-98, after [theta] has been drawn. *)
Definition optimize_from (Gene : Gene_Circuit)
    (target_statevector : list complex) (theta : list Q)
    : traced evaluation :=
  mkTraced [Minimize theta]
    (let? x := minimize (loss Gene target_statevector) theta in
     let? sv := statevector Gene x in
     let? fidelity := get_fidelity sv target_statevector in
     let depth := circuit_depth (circuit Gene) in
     Ok (fidelity, depth, x)).

Definition get_optimized_fidelity (Gene : Gene_Circuit)
    (target_statevector : list complex) : Rand (traced evaluation) :=
  let num_parameters := gc_num_parameters Gene in
  theta <- rand_n num_parameters ;;
  ret (optimize_from Gene target_statevector theta).

End Evaluator.

(** *** The generation loop (lines 118-192) *)

Definition num_genes : nat := 20.
Definition length_gene : nat := 10.
Definition mutation_rate : Q := 1 # 10.

(** [result[:,0]] and [result[:,1]] *)
Definition fidelities (result : list evaluation) : list Q :=
  map (fun r => fst (fst r)) result.

Definition depths (result : list evaluation) : list nat :=
  map (fun r => snd (fst r)) result.

(** [0.99 - 0.01*ii] *)
Definition threshold (ii : nat) : Q :=
  ((99 # 100) - (1 # 100) * inject_Z (Z.of_nat ii))%Q.

(** [result[:,0] > t] *)
Definition above (fidelity : list Q) (t : Q) : list bool :=
  map (fun f => Qltb t f) fidelity.

(** [np.sum] of a boolean array *)
Definition np_sum (gene : list bool) : nat :=
  length (filter (fun b => b) gene).

(** Lines 148-154.  [ii] starts at 0 and grows by one in every round, so the
    condition [ii < 100] leaves [remaining = 100 - ii] rounds. *)
Fixpoint threshold_loop (remaining : nat) (fidelity : list Q) (ii : nat)
    (gene : list bool) : nat * list bool :=
  match remaining with
  | O => (ii, gene)
  | S remaining' =>
      let gene := above fidelity (threshold ii) in
      let ii := S ii in
      if 6 <=? np_sum gene then (ii, gene)
      else threshold_loop remaining' fidelity ii gene
  end.

(** Lines 159-163: [order] is [np.argsort(result[:,1])], whose entries index
    [gene]. *)
Fixpoint elite_loop (order : list nat) (gene : list bool) (index : list nat)
    : list nat :=
  match order with
  | [] => index
  | j :: rest =>
      if nth j gene false then
        let index := index ++ [j] in
        if length index =? 10 then index
        else elite_loop rest gene index
      else elite_loop rest gene index
  end.

(** Lines 177-178: [while parent[0]==parent[1]]. *)
Fixpoint resample (n p0 p1 : Z) (tape : list Z) {struct tape}
    : outcome (Z * Z) :=
  if (p0 =? p1)%Z then
    match tape with
    | [] => Starved
    | r :: tape' =>
        match draw 0 n r with
        | Ok p1' => resample n p0 p1' tape'
        | Err e => Raises e
        end
    end
  else Returns (p0, p1) tape.

(** Lines 176-178, with [n = len(index)]. *)
Definition choose_parents (n : Z) : Rand (Z * Z) :=
  p0 <- randint 0 n ;;
  p1 <- randint 0 n ;;
  resample n p0 p1.

(** [a[:k]] and [a[k:]] for [k >= 0] *)
Definition upto {A : Type} (a : list A) (k : Z) : list A :=
  firstn (Z.to_nat k) a.

Definition from {A : Type} (a : list A) (k : Z) : list A :=
  skipn (Z.to_nat k) a.

(** Line 182: the row that is stored into [child_gene[j]]. *)
Definition concatenate_parents (parent_gene : list (list Z))
    (parent : Z * Z) (crossover_point : Z) : list Z :=
  upto (nth (Z.to_nat (fst parent)) parent_gene []) crossover_point
  ++ from (nth (Z.to_nat (snd parent)) parent_gene []) crossover_point.

(** Lines 176-182 for one [j]. *)
Definition crossover (length_gene : nat) (parent_gene : list (list Z))
    (n : Z) : Rand (list Z) :=
  parent <- choose_parents n ;;
  crossover_point <- randint 1 (Z.of_nat length_gene - 1) ;;
  ret (concatenate_parents parent_gene parent crossover_point).

(** [a[k] = v] for [k] inside [a] *)
Definition setitem {A : Type} (a : list A) (k : nat) (v : A) : list A :=
  firstn k a ++ v :: skipn (S k) a.

(** Lines 184-186, [ks] being [range(length_gene)]. *)
Fixpoint mutate (ks : list nat) (child : list Z) : Rand (list Z) :=
  match ks with
  | [] => ret child
  | k :: ks' =>
      u <- rand ;;
      if Qltb u mutation_rate then
        v <- randint 0 11 ;;
        mutate ks' (setitem child k v)
      else mutate ks' child
  end.

(** Lines 174-186, [js] being [range(num_genes)]. *)
Fixpoint children (length_gene : nat) (js : list nat)
    (parent_gene : list (list Z)) (n : Z) (child_gene : list (list Z))
    : Rand (list (list Z)) :=
  match js with
  | [] => ret child_gene
  | j :: js' =>
      row <- crossover length_gene parent_gene n ;;
      row <- mutate (seq 0 length_gene) row ;;
      children length_gene js' parent_gene n (setitem child_gene j row)
  end.

(** [.reshape(rows, length_gene)] of a flat array of [rows * length_gene]
    entries *)
Fixpoint reshape (rows length_gene : nat) (flat : list Z) : list (list Z) :=
  match rows with
  | O => []
  | S rows' =>
      firstn length_gene flat :: reshape rows' length_gene (skipn length_gene flat)
  end.

(** [a[start : start + len(rows)] = rows] for a slice inside [a] *)
Definition setslice {A : Type} (a : list A) (start : nat) (rows : list A)
    : list A :=
  firstn start a ++ rows ++ skipn (start + length rows) a.

(** [random_gene[index]] *)
Definition take {A : Type} (default : A) (a : list A) (index : list nat)
    : list A :=
  map (fun j => nth j a default) index.

Section Generation.

(** [np.argsort], called with its default sorting kind. *)
Variable argsort : list nat -> list nat.

(** Lines 148-163: the indices of the elite genes. *)
Definition elite_index (result : list evaluation) : list nat :=
  let '(_, gene) := threshold_loop 100 (fidelities result) 0 [] in
  elite_loop (argsort (depths result)) gene [].

(** Lines 148-192: one pass of the generation loop from the evaluated
    population to the next one. *)
Definition advance (num_genes length_gene : nat)
    (random_gene : list (list Z)) (result : list evaluation)
    : Rand (list (list Z)) :=
  let index := elite_index result in
  let parent_gene := take [] random_gene index in
  let child_gene := repeat (repeat 0%Z length_gene) num_genes in
  child_gene <- children length_gene (seq 0 num_genes) parent_gene
                  (Z.of_nat (length index)) child_gene ;;
  let fresh := num_genes / 10 in
  flat <- randint_n 0 11 (fresh * length_gene) ;;
  let child_gene :=
    setslice child_gene (num_genes - fresh) (reshape fresh length_gene flat) in
  let child_gene :=
    setslice child_gene (num_genes - fresh - length index)
             (take [] random_gene index) in
  ret child_gene.

End Generation.

End GA.

Import Py Gene GA.

(** ** Vocabulary of the statements *)

(** The test of line 153 at the threshold of round [k]. *)
Definition quorum_at (fidelity : list Q) (k : nat) : bool :=
  6 <=? np_sum (above fidelity (threshold k)).

(** The first of the 100 rounds at which the quorum is met. *)
Definition first_quorum (fidelity : list Q) : option nat :=
  find (quorum_at fidelity) (seq 0 100).

(** The number of genes whose fidelity is at least [t]. *)
Definition count_at_least (fidelity : list Q) (t : Q) : nat :=
  length (filter (fun f => Qle_bool t f) fidelity).

(** Whether gene [j] is selected by the mask [gene]. *)
Definition passes (gene : list bool) (j : nat) : bool := nth j gene false.

(** Gene [a] is no deeper than gene [b]. *)
Definition depth_le (depth : list nat) (a b : nat) : Prop :=
  nth a depth 0 <= nth b depth 0.

(** What [np.argsort] promises of its result [order] for the array [depth],
    whatever the sorting kind: [order] lists every index once, by ascending
    depth. *)
Definition is_argsort (depth order : list nat) : Prop :=
  Permutation order (seq 0 (length depth))
  /\ StronglySorted (depth_le depth) order.

(** Two sorts that keep this promise: insertion sorts of the indices that
    put a new index in front of the first one it is [before]. *)
Fixpoint insert_by (before : nat -> nat -> bool) (x : nat) (l : list nat)
    : list nat :=
  match l with
  | [] => [x]
  | y :: l' => if before x y then x :: l else y :: insert_by before x l'
  end.

Definition argsort_by (before : list nat -> nat -> nat -> bool)
    (depth : list nat) : list nat :=
  fold_right (insert_by (before depth)) [] (seq 0 (length depth)).

(** Ties stay in index order. *)
Definition stable_argsort : list nat -> list nat :=
  argsort_by (fun depth a b => nth a depth 0 <=? nth b depth 0).

(** Ties come out in descending index order. *)
Definition unstable_argsort : list nat -> list nat :=
  argsort_by (fun depth a b => nth a depth 0 <? nth b depth 0).

(** The elite as the specification words it: of the genes that pass the threshold, the ten
    of smallest depth, ties in the order of the population index. *)
Definition stable_elite (result : list evaluation) : list nat :=
  let gene := snd (threshold_loop 100 (fidelities result) 0 []) in
  firstn 10 (filter (passes gene) (stable_argsort (depths result))).

(** Twenty fidelities: three above 0.99, five more above 0.95, the rest at
    zero. *)
Definition scenario_fidelity : list Q :=
  (repeat 1 3 ++ repeat (957 # 1000) 5 ++ repeat 0 12)%Q.

(** Twenty evaluations with the fidelities of [scenario_fidelity]; the
    depths are 9, 8, 7, 9, 8, 7, ... *)
Definition scenario_result : list evaluation :=
  map (fun j => (nth j scenario_fidelity 0%Q, 9 - j mod 3, []))
      (seq 0 20).

(** Twenty evaluations of fidelity 1 and depth 3. *)
Definition tied_result : list evaluation :=
  repeat (1%Q, 3, []) 20.

(** Two parents that differ everywhere. *)
Definition parent_A : list Z := repeat 0%Z 10.
Definition parent_B : list Z := repeat 1%Z 10.

(** A population of twenty genes; gene [j] holds [j mod 6] everywhere. *)
Definition some_population : list (list Z) :=
  map (fun j => repeat (Z.of_nat (j mod 6)) 10) (seq 0 20).

(** Twenty evaluations in which no fidelity exceeds zero. *)
Definition no_pass_result : list evaluation :=
  repeat (0%Q, 5, []) 20.

(** Twenty evaluations in which gene 7 alone has a fidelity above zero. *)
Definition one_pass_result : list evaluation :=
  map (fun j => (if j =? 7 then 1%Q else 0%Q, 5, [])) (seq 0 20).

(** A gate code for which the lookup [gene_gates[code]] raises. *)
Definition unreadable (code : Z) : bool :=
  ((code <? -6) || (6 <=? code))%Z.

Definition has_unreadable_code (gene : gene_array) : bool :=
  existsb (fun G_ij => unreadable (fst G_ij)) (concat gene).

(** All rows of the gene have one length: it is an array. *)
Definition rectangular (gene : gene_array) : Prop :=
  Forall (fun row => length row = length (hd [] gene)) gene.


(** A controlled gate whose control is a qubit of the circuit other than
    its target. *)
Definition control_in_range (num_qubit : Z) (ins : instruction) : Prop :=
  match ins with
  | Cx control target =>
      (0 <= control < num_qubit)%Z /\ control <> Z.of_nat target
  | _ => True
  end.

(** Whether [name] is a key of the dictionary [d]. *)
Definition is_key (name : string) (d : list (string * Q)) : bool :=
  match lookup name d with
  | Some _ => true
  | None => false
  end.

(** Ascending string order. *)
Definition name_le (a b : string) : Prop := String.leb a b = true.

(** Binding as the specification words it: the [i]-th parametrized rotation
    that was emitted receives [theta[i]]. *)
Fixpoint bind_in_emission_order (circuit : QuantumCircuit) (theta : list Q)
    : QuantumCircuit :=
  match circuit with
  | [] => []
  | Rotation gate (Param name) qubit :: rest =>
      match theta with
      | v :: theta' =>
          Rotation gate (Bound v) qubit :: bind_in_emission_order rest theta'
      | [] =>
          Rotation gate (Param name) qubit :: bind_in_emission_order rest []
      end
  | ins :: rest => ins :: bind_in_emission_order rest theta
  end.

(** One qubit, eleven [rz] cells. *)
Definition eleven_rz : gene_array := [repeat (1%Z, 0%Z) 11].

(** The vector 0, 1, ..., 10. *)
Definition zero_to_ten : list Q :=
  map (fun k => inject_Z (Z.of_nat k)) (seq 0 11).

(** The statevector of three qubits in state 000. *)
Definition ground_state : list complex :=
  ((1, 0) :: repeat (0, 0) 7)%Q.

(** Three qubits, four positions, every cell [empty]. *)
Definition all_empty : gene_array := repeat (repeat (0%Z, 0%Z) 4) 3.

(** [np.array([0.7, 0.7, 0, 0, 0, 0, 0, 0])] *)
Definition target_statevector : list complex :=
  ((7 # 10, 0) :: (7 # 10, 0) :: repeat (0, 0) 6)%Q.

(** *** Further vocabulary: decoded instructions and gene cells *)

(** The qubit an instruction acts on (its target, for a controlled gate). *)
Definition target_of (ins : instruction) : nat :=
  match ins with
  | Rotation _ _ qubit => qubit
  | Cx _ target => target
  | Fixed _ qubit => qubit
  end.

(** An instruction on a qubit of the circuit. *)
Definition on_a_qubit (num_qubit : Z) (ins : instruction) : Prop :=
  (Z.of_nat (target_of ins) < num_qubit)%Z.

(** An instruction the decoder can emit: an [rz] on a fresh parameter, a
    [cx], or one of the fixed gates [h], [x], [sx]. *)
Definition emitted_gate (ins : instruction) : Prop :=
  match ins with
  | Rotation gate (Param _) _ => gate = "rz"%string
  | Rotation _ (Bound _) _ => False
  | Cx _ _ => True
  | Fixed gate _ => In gate ["h"; "x"; "sx"]%string
  end.

(** The gate code counted from the front of the alphabet. *)
Definition front_code (code : Z) : Z :=
  if ((-6 <=? code) && (code <? 0))%Z then (code + 6)%Z else code.

Definition front_cell (G_ij : cell) : cell :=
  (front_code (fst G_ij), snd G_ij).

(** Whether the cell is decoded as a controlled gate. *)
Definition is_cx (G_ij : cell) : bool :=
  ((fst G_ij =? 2) || (fst G_ij =? -4))%Z.

(** The cell with its control field cleared unless it is a [cx] cell. *)
Definition clear_control (G_ij : cell) : cell :=
  if is_cx G_ij then G_ij else (fst G_ij, 0%Z).

(** Whether the cell is decoded as a parametrized rotation. *)
Definition is_rz (G_ij : cell) : bool :=
  ((fst G_ij =? 1) || (fst G_ij =? -5))%Z.

(** Whether the cell is decoded as [empty]. *)
Definition is_empty (G_ij : cell) : bool :=
  ((fst G_ij =? 0) || (fst G_ij =? -6))%Z.

(** A gene that the circuit has room for: no more rows than qubits, and no
    negative control index in a cell decoded as a controlled gate. *)
Definition fits (gene : gene_array) (num_qubit : Z) : bool :=
  (Z.of_nat (length gene) <=? num_qubit)%Z
  && forallb (fun G_ij => negb (is_cx G_ij) || (0 <=? snd G_ij)%Z)
             (concat gene).

(** A vector whose entries are pairwise different numbers. *)
Definition distinct_angles (theta : list Q) : Prop :=
  forall j k,
    j < length theta -> k < length theta ->
    (nth j theta 0 == nth k theta 0)%Q -> j = k.

(** The columns of a gene whose rows have [L] cells. *)
Definition columns_of (L : nat) (gene : gene_array) : list (list cell) :=
  map (fun j => map (fun row => nth j row (0%Z, 0%Z)) gene) (seq 0 L).

(** The number of cells decoded as a parametrized rotation. *)
Definition count_rz (cells : list cell) : nat :=
  length (filter is_rz cells).

(** The squared norm of a statevector. *)
Definition norm2 (u : list complex) : Q :=
  fold_right (fun z acc => (abs2 z + acc)%Q) 0%Q u.

(** A float of the unit interval [0, 1). *)
Definition unit_interval (v : Q) : Prop := (0 <= v)%Q /\ (v < 1)%Q.

(** *** GA.py, the evaluation of one gene (lines 100-116, 128-129) *)

Module Run.

Definition num_qubit : Z := 3.

Section Evaluation.

Variable simulate : QuantumCircuit -> list complex.
Variable minimize : (list Q -> result Q) -> list Q -> result (list Q).
Variable circuit_depth : QuantumCircuit -> nat.

(** [get_fidelity_depth]: build the circuit of the gene, then optimise it
    against the target statevector. *)
Definition get_fidelity_depth (gene : gene_array) : Rand (traced evaluation) :=
  fun tape =>
    match init gene num_qubit with
    | Err e => Raises e
    | Ok Gene =>
        get_optimized_fidelity simulate minimize circuit_depth Gene
          target_statevector tape
    end.

End Evaluation.

End Run.

(** *** Further vocabulary: populations *)

(** An entry that [np.random.randint(0, 11)] can produce. *)
Definition gate_code (v : Z) : Prop := (0 <= v < 11)%Z.

(** A gene of the population: [length_gene] entries of 0 .. 10. *)
Definition well_shaped (row : list Z) : Prop :=
  length row = length_gene /\ Forall gate_code row.

Definition well_shapedb (row : list Z) : bool :=
  (length row =? length_gene)
  && forallb (fun v => ((0 <=? v) && (v <? 11))%Z) row.

(** An entry after mutation: the entry before it, or a fresh gate code. *)
Definition kept_or_redrawn (new old : Z) : Prop :=
  new = old \/ gate_code new.

(** A tape of 700 raw draws. *)
Definition long_tape : list Z :=
  map (fun k => (Z.of_nat k * 1234567890123457)%Z) (seq 0 700).

(** Case analysis on every conditional of the goal. *)
Ltac case_conditionals :=
  repeat match goal with
         | |- context [if ?b then _ else _] => destruct b eqn:?
         end.

(** ** The threshold search *)

Lemma threshold_loop_find (fidelity : list Q) :
  forall remaining ii gene,
    threshold_loop remaining fidelity ii gene =
    match find (quorum_at fidelity) (seq ii remaining) with
    | Some k => (S k, above fidelity (threshold k))
    | None =>
        (ii + remaining,
         match remaining with
         | O => gene
         | S r => above fidelity (threshold (ii + r))
         end)
    end.
Proof.
  induction remaining as [|r IH]; intros ii gene;
    cbn [threshold_loop seq find].
  - now rewrite Nat.add_0_r.
  - unfold quorum_at at 1.
    destruct (6 <=? np_sum (above fidelity (threshold ii))) eqn:Hq.
    + reflexivity.
    + rewrite IH.
      destruct (find (quorum_at fidelity) (seq (S ii) r)) as [k|].
      * reflexivity.
      * f_equal; [lia|].
        destruct r as [|r'].
        -- now rewrite Nat.add_0_r.
        -- f_equal. f_equal. lia.
Qed.

Lemma find_first_in_seq (f : nat -> bool) :
  forall n start k,
    start <= k < start + n ->
    (forall j, start <= j < k -> f j = false) ->
    f k = true ->
    find f (seq start n) = Some k.
Proof.
  induction n as [|n IH]; intros start k Hk Hbefore Hat; simpl.
  - lia.
  - destruct (Nat.eq_dec start k) as [-> | Hne].
    + now rewrite Hat.
    + rewrite (Hbefore start) by lia.
      apply IH; [lia| |assumption].
      intros j Hj. apply Hbefore. lia.
Qed.

(** C2, as amended.  The search tests the thresholds 0.99, 0.98, ... in turn,
    at most 100 of them, and stops at the first one that at least six
    fidelities exceed strictly: it returns the round counter and the mask of
    the genes whose fidelity is strictly greater than that threshold; when
    no round meets the quorum it ends after the hundredth threshold,
    0.99 - 0.99.  In particular, when three genes exceed 0.99,
    fewer than six exceed 0.98, 0.97 and 0.96, and eight exceed 0.95, it
    settles at 0.95, four steps below the start. *)
Theorem threshold_search_first_quorum (fidelity : list Q) :
  threshold_loop 100 fidelity 0 [] =
    match first_quorum fidelity with
    | Some k => (S k, above fidelity (threshold k))
    | None => (100, above fidelity (threshold 99))
    end
  /\ (np_sum (above fidelity (threshold 0)) = 3 ->
      np_sum (above fidelity (threshold 1)) < 6 ->
      np_sum (above fidelity (threshold 2)) < 6 ->
      np_sum (above fidelity (threshold 3)) < 6 ->
      np_sum (above fidelity (threshold 4)) = 8 ->
      threshold_loop 100 fidelity 0 [] = (5, above fidelity (threshold 4))
      /\ (threshold 0 == 99 # 100)%Q /\ (threshold 4 == 95 # 100)%Q).
Proof.
  split.
  - rewrite threshold_loop_find. unfold first_quorum.
    destruct (find (quorum_at fidelity) (seq 0 100)); reflexivity.
  - intros H0 H1 H2 H3 H4. split; [|split; reflexivity].
    rewrite threshold_loop_find.
    rewrite (find_first_in_seq (quorum_at fidelity) 100 0 4).
    + reflexivity.
    + lia.
    + intros j Hj. unfold quorum_at. apply Nat.leb_gt.
      assert (Hcases : j = 0 \/ j = 1 \/ j = 2 \/ j = 3) by lia.
      destruct Hcases as [-> | [-> | [-> | ->]]]; try assumption.
      lia.
    + unfold quorum_at. apply Nat.leb_le. lia.
Qed.

Lemma threshold_search_first_quorum_witness :
  threshold_loop 100 scenario_fidelity 0 [] =
    (5, above scenario_fidelity (threshold 4)).
Proof.
  apply (proj2 (threshold_search_first_quorum scenario_fidelity));
    vm_compute; try reflexivity; lia.
Defined.

(** C2 as stated fails at the boundary: six genes at exactly 0.99 meet the
    quorum "fidelity >= 0.99", but the loop counts strictly greater
    fidelities, finds none, and lowers the threshold to 0.98. *)
Lemma threshold_search_is_strict :
  let fidelity := (repeat (99 # 100) 6 ++ repeat 0 14)%Q in
  (threshold 0 == 99 # 100)%Q
  /\ 6 <= count_at_least fidelity (threshold 0)
  /\ threshold_loop 100 fidelity 0 [] = (2, above fidelity (threshold 1))
  /\ (threshold 1 == 98 # 100)%Q.
Proof.
  vm_compute. repeat split; try reflexivity; lia.
Qed.

(** ** Elite selection *)

Lemma elite_loop_firstn (gene : list bool) :
  forall order index,
    length index < 10 ->
    elite_loop order gene index =
    index ++ firstn (10 - length index) (filter (passes gene) order).
Proof.
  induction order as [|j rest IH]; intros index Hlen; cbn [elite_loop filter].
  - now rewrite firstn_nil, app_nil_r.
  - unfold passes at 1.
    destruct (nth j gene false) eqn:Hj.
    + destruct (length (index ++ [j]) =? 10) eqn:Hfull.
      * apply Nat.eqb_eq in Hfull. rewrite length_app in Hfull.
        cbn [length] in Hfull.
        replace (10 - length index) with 1 by lia.
        cbn [firstn]. reflexivity.
      * apply Nat.eqb_neq in Hfull. rewrite length_app in Hfull.
        cbn [length] in Hfull.
        rewrite IH by (rewrite length_app; cbn [length]; lia).
        rewrite length_app. cbn [length].
        replace (10 - length index) with (S (10 - (length index + 1))) by lia.
        cbn [firstn]. now rewrite <- app_assoc.
    + now apply IH.
Qed.

Lemma Permutation_filter_same {A : Type} (f : A -> bool) (l l' : list A) :
  Permutation l l' -> Permutation (filter f l) (filter f l').
Proof.
  induction 1 as [|x l l' _ IH|x y l|l l' l'' _ IH1 _ IH2]; cbn [filter].
  - constructor.
  - destruct (f x); [now constructor | assumption].
  - destruct (f x), (f y); try apply Permutation_refl. apply perm_swap.
  - now transitivity (filter f l').
Qed.

Lemma StronglySorted_filter_same {A : Type} (R : A -> A -> Prop)
    (f : A -> bool) (l : list A) :
  StronglySorted R l -> StronglySorted R (filter f l).
Proof.
  induction 1 as [|a l _ IH Hall]; cbn [filter].
  - constructor.
  - destruct (f a); [|assumption].
    constructor; [assumption|].
    rewrite Forall_forall in *. intros x Hx.
    apply filter_In in Hx. now apply Hall.
Qed.

Lemma StronglySorted_app_split {A : Type} (R : A -> A -> Prop)
    (l1 l2 : list A) :
  StronglySorted R (l1 ++ l2) ->
  StronglySorted R l1 /\ forall x y, In x l1 -> In y l2 -> R x y.
Proof.
  induction l1 as [|a l1 IH]; cbn [app]; intros Hs.
  - split; [constructor | intros x y []].
  - apply StronglySorted_inv in Hs. destruct Hs as [Hs Hall].
    destruct (IH Hs) as [Hs1 Hcross].
    rewrite Forall_forall in Hall. split.
    + constructor; [assumption|].
      rewrite Forall_forall. intros x Hx. apply Hall, in_or_app. now left.
    + intros x y [<-|Hx] Hy.
      * apply Hall, in_or_app. now right.
      * now apply Hcross.
Qed.

Lemma In_firstn_whole {A : Type} (n : nat) (l : list A) (x : A) :
  In x (firstn n l) -> In x l.
Proof.
  intros Hx. rewrite <- (firstn_skipn n l). apply in_or_app. now left.
Qed.

Lemma np_sum_passes (gene : list bool) :
  np_sum gene = length (filter (passes gene) (seq 0 (length gene))).
Proof.
  unfold np_sum.
  induction gene as [|b gene IH]; [reflexivity|].
  cbn [length seq filter]. rewrite <- seq_shift.
  assert (Hshift : forall l,
             filter (passes (b :: gene)) (map S l)
             = map S (filter (passes gene) l)).
  { induction l as [|x l IHl]; [reflexivity|].
    cbn [map filter]. rewrite IHl.
    change (passes (b :: gene) (S x)) with (passes gene x).
    now destruct (passes gene x). }
  rewrite Hshift.
  change (passes (b :: gene) 0) with b.
  destruct b; cbn [length]; now rewrite length_map, IH.
Qed.

Lemma threshold_loop_mask_length (fidelity : list Q) :
  length (snd (threshold_loop 100 fidelity 0 [])) = length fidelity.
Proof.
  rewrite threshold_loop_find.
  destruct (find (quorum_at fidelity) (seq 0 100)); cbn [snd];
    unfold above; apply length_map.
Qed.

Lemma elite_index_unfold (argsort : list nat -> list nat)
    (result : list evaluation) :
  elite_index argsort result =
  elite_loop (argsort (depths result))
             (snd (threshold_loop 100 (fidelities result) 0 [])) [].
Proof.
  unfold elite_index.
  now destruct (threshold_loop 100 (fidelities result) 0 []).
Qed.

(** C3, as amended.  Whatever order [np.argsort] gives to genes of equal
    depth, the elite is the first ten (or all, if fewer) of the genes that
    pass the threshold, in the order in which [np.argsort] lists them: it
    holds only passing genes, none twice, as many as ten allows, by ascending
    depth, and no passing gene that is left out is shallower than a chosen
    one. *)
Theorem elite_smallest_depth (argsort : list nat -> list nat)
    (result : list evaluation) :
  is_argsort (depths result) (argsort (depths result)) ->
  let gene := snd (threshold_loop 100 (fidelities result) 0 []) in
  let index := elite_index argsort result in
  index = firstn 10 (filter (passes gene) (argsort (depths result)))
  /\ (forall j, In j index -> passes gene j = true /\ j < length result)
  /\ NoDup index
  /\ length index = Nat.min 10 (np_sum gene)
  /\ StronglySorted (depth_le (depths result)) index
  /\ (forall j k, In j index -> k < length result ->
        passes gene k = true -> ~ In k index ->
        depth_le (depths result) j k).
Proof.
  intros [Hperm Hsorted] gene index.
  assert (Hlen : length gene = length result).
  { unfold gene. rewrite threshold_loop_mask_length.
    unfold fidelities. apply length_map. }
  assert (Hdepths : length (depths result) = length result)
    by (unfold depths; apply length_map).
  rewrite Hdepths in Hperm.
  set (order := argsort (depths result)) in *.
  assert (Hindex : index = firstn 10 (filter (passes gene) order)).
  { unfold index. rewrite elite_index_unfold.
    rewrite elite_loop_firstn by (cbn; lia). reflexivity. }
  assert (Hfsorted : StronglySorted (depth_le (depths result))
                       (filter (passes gene) order))
    by now apply StronglySorted_filter_same.
  assert (Hfnodup : NoDup (filter (passes gene) order)).
  { apply NoDup_filter.
    apply (Permutation_NoDup (Permutation_sym Hperm)), seq_NoDup. }
  rewrite <- (firstn_skipn 10 (filter (passes gene) order)) in Hfsorted, Hfnodup.
  rewrite <- Hindex in Hfsorted, Hfnodup.
  destruct (StronglySorted_app_split _ _ _ Hfsorted) as [Hs1 Hcross].
  split; [exact Hindex|].
  split.
  { intros j Hj. rewrite Hindex in Hj. apply In_firstn_whole in Hj.
    apply filter_In in Hj. destruct Hj as [Hin Hpass].
    split; [assumption|].
    apply (Permutation_in _ Hperm), in_seq in Hin. lia. }
  split; [now apply NoDup_app_remove_r in Hfnodup|].
  split.
  { rewrite Hindex, length_firstn. f_equal.
    rewrite np_sum_passes, Hlen.
    apply Permutation_length, Permutation_filter_same, Hperm. }
  split; [assumption|].
  intros j k Hj Hk Hpass Hout.
  apply Hcross; [assumption|].
  assert (Hkin : In k (filter (passes gene) order)).
  { apply filter_In. split; [|assumption].
    apply (Permutation_in _ (Permutation_sym Hperm)), in_seq. lia. }
  rewrite <- (firstn_skipn 10 (filter (passes gene) order)) in Hkin.
  rewrite <- Hindex in Hkin.
  apply in_app_or in Hkin. now destruct Hkin.
Qed.

Section InsertionArgsort.

Variable depth : list nat.
Variable before : nat -> nat -> bool.
Hypothesis before_le : forall a b, before a b = true -> depth_le depth a b.
Hypothesis not_before_ge : forall a b, before a b = false -> depth_le depth b a.

Lemma insert_by_Permutation (x : nat) (l : list nat) :
  Permutation (insert_by before x l) (x :: l).
Proof.
  induction l as [|y l IH]; cbn [insert_by].
  - apply Permutation_refl.
  - destruct (before x y).
    + apply Permutation_refl.
    + transitivity (y :: x :: l); [now constructor | apply perm_swap].
Qed.

Lemma insert_by_StronglySorted (x : nat) (l : list nat) :
  StronglySorted (depth_le depth) l ->
  StronglySorted (depth_le depth) (insert_by before x l).
Proof.
  induction 1 as [|y l Hs IH Hall]; cbn [insert_by].
  - repeat constructor.
  - destruct (before x y) eqn:Hxy.
    + apply before_le in Hxy.
      constructor; [now constructor|].
      constructor; [assumption|].
      rewrite Forall_forall in *. intros z Hz.
      specialize (Hall z Hz). unfold depth_le in *. lia.
    + apply not_before_ge in Hxy.
      constructor; [assumption|].
      rewrite Forall_forall in *. intros z Hz.
      apply (Permutation_in _ (insert_by_Permutation x l)) in Hz.
      destruct Hz as [<-|Hz]; [assumption | now apply Hall].
Qed.

Lemma fold_insert_by_is_sort (l : list nat) :
  Permutation (fold_right (insert_by before) [] l) l
  /\ StronglySorted (depth_le depth) (fold_right (insert_by before) [] l).
Proof.
  induction l as [|x l [IHp IHs]]; cbn [fold_right].
  - split; constructor.
  - split.
    + transitivity (x :: fold_right (insert_by before) [] l).
      * apply insert_by_Permutation.
      * now constructor.
    + now apply insert_by_StronglySorted.
Qed.

End InsertionArgsort.

Lemma stable_argsort_is_argsort (depth : list nat) :
  is_argsort depth (stable_argsort depth).
Proof.
  apply fold_insert_by_is_sort; intros a b H; unfold depth_le.
  - now apply Nat.leb_le in H.
  - apply Nat.leb_gt in H. lia.
Qed.

Lemma unstable_argsort_is_argsort (depth : list nat) :
  is_argsort depth (unstable_argsort depth).
Proof.
  apply fold_insert_by_is_sort; intros a b H; unfold depth_le.
  - apply Nat.ltb_lt in H. lia.
  - apply Nat.ltb_ge in H. lia.
Qed.

Lemma elite_smallest_depth_witness :
  elite_index stable_argsort scenario_result =
  firstn 10 (filter (passes (snd (threshold_loop 100
                                    (fidelities scenario_result) 0 [])))
                    (stable_argsort (depths scenario_result)))
  /\ elite_index stable_argsort scenario_result = [2; 5; 1; 4; 7; 0; 3; 6].
Proof.
  split.
  - apply (elite_smallest_depth stable_argsort scenario_result).
    apply stable_argsort_is_argsort.
  - vm_compute. reflexivity.
Defined.

(** C3 as stated fails on ties: [np.argsort] is called with its default
    kind, which promises a sorted order but not a stable one.  With a sort
    that keeps that promise and lists equal depths by descending index, the
    elite of twenty equally deep passing genes is 19, 18, ..., 10, not the
    0, 1, ..., 9 that breaking ties by population index gives. *)
Lemma elite_ties_follow_argsort :
  (forall depth, is_argsort depth (unstable_argsort depth))
  /\ elite_index unstable_argsort tied_result
     = [19; 18; 17; 16; 15; 14; 13; 12; 11; 10]
  /\ stable_elite tied_result = [0; 1; 2; 3; 4; 5; 6; 7; 8; 9]
  /\ elite_index unstable_argsort tied_result <> stable_elite tied_result.
Proof.
  split; [exact unstable_argsort_is_argsort|].
  split; [vm_compute; reflexivity|].
  split; [vm_compute; reflexivity|].
  vm_compute. discriminate.
Qed.

(** ** Parents and crossover *)

Lemma bind_Returns {A B : Type} (m : Rand A) (k : A -> Rand B)
    (tape : list Z) (b : B) (rest : list Z) :
  bind m k tape = Returns b rest ->
  exists a tape', m tape = Returns a tape' /\ k a tape' = Returns b rest.
Proof.
  unfold bind. destruct (m tape) as [a tape'| |]; try discriminate.
  intros H. now exists a, tape'.
Qed.

Lemma randint_Returns (low high : Z) (tape : list Z) (v : Z)
    (rest : list Z) :
  randint low high tape = Returns v rest ->
  (low <= v < high)%Z /\ exists r, tape = r :: rest.
Proof.
  unfold randint. destruct (high <=? low)%Z eqn:Hrange; [discriminate|].
  apply Z.leb_gt in Hrange.
  destruct tape as [|r tape']; [discriminate|].
  intros H. injection H as <- <-. split.
  - pose proof (Z.mod_pos_bound r (high - low)). lia.
  - now exists r.
Qed.

Lemma resample_Returns :
  forall tape n p0 p1 a b rest,
    resample n p0 p1 tape = Returns (a, b) rest ->
    a = p0 /\ a <> b /\ ((0 <= p1 < n)%Z -> (0 <= b < n)%Z).
Proof.
  induction tape as [|r tape IH]; intros n p0 p1 a b rest;
    cbn [resample]; destruct (p0 =? p1)%Z eqn:Heq;
    try discriminate.
  - apply Z.eqb_neq in Heq. intros H. injection H as <- <- _. auto.
  - unfold draw. destruct (n <=? 0)%Z eqn:Hn; [discriminate|].
    apply Z.leb_gt in Hn. intros H.
    destruct (IH _ _ _ _ _ _ H) as (Ha & Hab & Hb).
    split; [assumption|]. split; [assumption|].
    intros _. apply Hb.
    pose proof (Z.mod_pos_bound r (n - 0)). lia.
  - apply Z.eqb_neq in Heq. intros H. injection H as <- <- _. auto.
Qed.

Lemma choose_parents_Returns (n : Z) (tape : list Z) (a b : Z)
    (rest : list Z) :
  choose_parents n tape = Returns (a, b) rest ->
  (0 <= a < n)%Z /\ (0 <= b < n)%Z /\ a <> b.
Proof.
  unfold choose_parents. intros H.
  apply bind_Returns in H. destruct H as (p0 & t0 & H0 & H).
  apply bind_Returns in H. destruct H as (p1 & t1 & H1 & H).
  apply randint_Returns in H0, H1.
  apply resample_Returns in H. destruct H as (-> & Hab & Hb).
  intuition.
Qed.

Lemma crossover_Returns (length_gene : nat) (parent_gene : list (list Z))
    (n : Z) (tape : list Z) (child : list Z) (rest : list Z) :
  crossover length_gene parent_gene n tape = Returns child rest ->
  exists p0 p1 crossover_point,
    (0 <= p0 < n)%Z /\ (0 <= p1 < n)%Z /\ p0 <> p1
    /\ (1 <= crossover_point <= Z.of_nat length_gene - 2)%Z
    /\ child = concatenate_parents parent_gene (p0, p1) crossover_point.
Proof.
  unfold crossover. intros H.
  apply bind_Returns in H. destruct H as ([p0 p1] & t0 & Hparents & H).
  apply bind_Returns in H. destruct H as (cp & t1 & Hcp & H).
  apply choose_parents_Returns in Hparents.
  apply randint_Returns in Hcp.
  unfold ret in H. injection H as <- _.
  exists p0, p1, cp. intuition; lia.
Qed.

Lemma crossover_reaches (length_gene : nat) (parent_gene : list (list Z))
    (n p0 p1 crossover_point : Z) :
  (0 <= p0 < n)%Z -> (0 <= p1 < n)%Z -> p0 <> p1 ->
  (1 <= crossover_point <= Z.of_nat length_gene - 2)%Z ->
  crossover length_gene parent_gene n [p0; p1; (crossover_point - 1)%Z]
  = Returns (concatenate_parents parent_gene (p0, p1) crossover_point) [].
Proof.
  intros H0 H1 Hne Hcp.
  unfold crossover, choose_parents, bind, randint, ret.
  replace (n <=? 0)%Z with false by (symmetry; apply Z.leb_gt; lia).
  rewrite !Z.sub_0_r, !Z.add_0_l, !Z.mod_small by lia.
  cbn [resample].
  replace (p0 =? p1)%Z with false by (symmetry; now apply Z.eqb_neq).
  replace (Z.of_nat length_gene - 1 <=? 1)%Z with false
    by (symmetry; apply Z.leb_gt; lia).
  rewrite Z.mod_small by lia.
  now replace (1 + (crossover_point - 1))%Z with crossover_point by lia.
Qed.

Lemma cut_and_join {A : Type} :
  forall k (a x : list A),
    k <= length a ->
    firstn k (firstn k a ++ x) = firstn k a
    /\ skipn k (firstn k a ++ x) = x.
Proof.
  induction k as [|k IH]; intros a x Hk.
  - now split.
  - destruct a as [|h a]; cbn [length] in Hk; [lia|].
    cbn [firstn skipn app].
    destruct (IH a x) as [Hf Hs]; [lia|].
    split; [now rewrite Hf | assumption].
Qed.

(** C4, as amended.  A crossover that returns has picked two parents of
    different index among the [n] elites and a crossover point of
    [1 .. length_gene-2] (the upper bound [length_gene-1] handed to
    [np.random.randint] is exclusive), and its child is the first parent's
    entries before the point followed by the second parent's entries from the
    point on; every such choice is made on some tape.  For parents of length
    10 cut at 4, the first 4 entries of the child are parent A's and its
    last 6 are parent B's. *)
Theorem crossover_prefix_suffix (length_gene : nat)
    (parent_gene : list (list Z)) (n : Z) :
  (forall tape child rest,
      crossover length_gene parent_gene n tape = Returns child rest ->
      exists p0 p1 crossover_point,
        (0 <= p0 < n)%Z /\ (0 <= p1 < n)%Z /\ p0 <> p1
        /\ (1 <= crossover_point <= Z.of_nat length_gene - 2)%Z
        /\ child =
           upto (nth (Z.to_nat p0) parent_gene []) crossover_point
           ++ from (nth (Z.to_nat p1) parent_gene []) crossover_point)
  /\ (forall p0 p1 crossover_point,
         (0 <= p0 < n)%Z -> (0 <= p1 < n)%Z -> p0 <> p1 ->
         (1 <= crossover_point <= Z.of_nat length_gene - 2)%Z ->
         exists tape rest,
           crossover length_gene parent_gene n tape
           = Returns (concatenate_parents parent_gene (p0, p1)
                        crossover_point) rest)
  /\ (forall parent,
         let A := nth (Z.to_nat (fst parent)) parent_gene [] in
         let B := nth (Z.to_nat (snd parent)) parent_gene [] in
         let child := concatenate_parents parent_gene parent 4 in
         length A = 10 -> length B = 10 ->
         firstn 4 child = firstn 4 A
         /\ skipn 4 child = skipn 4 B
         /\ length (skipn 4 child) = 6).
Proof.
  split; [|split].
  - intros tape child rest H.
    apply crossover_Returns in H.
    destruct H as (p0 & p1 & cp & H0 & H1 & Hne & Hcp & ->).
    now exists p0, p1, cp.
  - intros p0 p1 cp H0 H1 Hne Hcp.
    exists [p0; p1; (cp - 1)%Z], [].
    now apply crossover_reaches.
  - intros parent A B child HA HB.
    unfold child, concatenate_parents, upto, from.
    fold A. fold B. change (Z.to_nat 4) with 4.
    destruct (cut_and_join 4 A (skipn 4 B)) as [Hf Hs]; [lia|].
    rewrite Hf, Hs, length_skipn, HB. auto.
Qed.

Lemma crossover_prefix_suffix_witness :
  (exists tape rest,
      crossover 10 [parent_A; parent_B] 2 tape
      = Returns (concatenate_parents [parent_A; parent_B] (0, 1)%Z 4) rest)
  /\ firstn 4 (concatenate_parents [parent_A; parent_B] (0, 1)%Z 4)
     = firstn 4 parent_A
  /\ skipn 4 (concatenate_parents [parent_A; parent_B] (0, 1)%Z 4)
     = skipn 4 parent_B.
Proof.
  pose proof (crossover_prefix_suffix 10 [parent_A; parent_B] 2)
    as (_ & Hreach & Hcut).
  split.
  - apply Hreach; lia.
  - destruct (Hcut (0, 1)%Z) as (Hf & Hs & _); try reflexivity.
    now split.
Defined.

(** C4 as stated fails at the upper end of the range: with genes of length
    10 the crossover point 9 = gene_length - 1 is never drawn, so no run
    yields the child made of nine entries of one parent and one of the
    other. *)
Lemma crossover_point_never_last :
  (1 <= 9 <= Z.of_nat length_gene - 1)%Z
  /\ forall tape rest,
       crossover length_gene [parent_A; parent_B] 2 tape
       <> Returns (concatenate_parents [parent_A; parent_B] (0, 1)%Z 9) rest.
Proof.
  split; [vm_compute; split; discriminate|].
  intros tape rest H.
  apply crossover_Returns in H.
  destruct H as (p0 & p1 & cp & H0 & H1 & Hne & Hcp & H).
  change (Z.of_nat length_gene - 2)%Z with 8%Z in Hcp.
  assert (Hp0 : p0 = 0%Z \/ p0 = 1%Z) by lia.
  assert (Hp1 : p1 = 0%Z \/ p1 = 1%Z) by lia.
  assert (Hcases : (cp = 1 \/ cp = 2 \/ cp = 3 \/ cp = 4 \/ cp = 5 \/ cp = 6
                    \/ cp = 7 \/ cp = 8)%Z) by lia.
  destruct Hp0 as [-> | ->], Hp1 as [-> | ->]; try (now elim Hne);
    repeat (destruct Hcases as [-> | Hcases]; [vm_compute in H; discriminate|]);
    subst cp; vm_compute in H; discriminate.
Qed.

(** ** Generations with too few elites *)

Lemma choose_parents_none (tape : list Z) :
  choose_parents 0 tape = Raises ValueError.
Proof. reflexivity. Qed.

Lemma resample_alone :
  forall tape, resample 1 0 0 tape = Starved.
Proof.
  induction tape as [|r tape IH]; cbn [resample Z.eqb]; [reflexivity|].
  unfold draw. cbn [Z.leb Z.compare].
  now rewrite Z.sub_0_r, Z.mod_1_r.
Qed.

Lemma choose_parents_alone (tape : list Z) :
  choose_parents 1 tape = Starved.
Proof.
  unfold choose_parents, bind, randint. cbn [Z.leb Z.compare].
  destruct tape as [|r0 tape]; [reflexivity|].
  destruct tape as [|r1 tape]; [reflexivity|].
  rewrite !Z.sub_0_r, !Z.mod_1_r. apply resample_alone.
Qed.

Lemma bind_Raises {A B : Type} (m : Rand A) (k : A -> Rand B)
    (tape : list Z) (e : exn) :
  m tape = Raises e -> bind m k tape = Raises e.
Proof. unfold bind. now intros ->. Qed.

Lemma bind_Starved {A B : Type} (m : Rand A) (k : A -> Rand B)
    (tape : list Z) :
  m tape = Starved -> bind m k tape = Starved.
Proof. unfold bind. now intros ->. Qed.

Lemma advance_first_child (argsort : list nat -> list nat)
    (random_gene : list (list Z)) (result : list evaluation)
    (tape : list Z) :
  match choose_parents (Z.of_nat (length (elite_index argsort result))) tape
  with
  | Returns _ _ => True
  | Raises e =>
      advance argsort num_genes length_gene random_gene result tape
      = Raises e
  | Starved =>
      advance argsort num_genes length_gene random_gene result tape
      = Starved
  end.
Proof.
  unfold advance.
  change (seq 0 num_genes) with (0 :: seq 1 19). cbn [children].
  unfold crossover.
  destruct (choose_parents _ tape) as [parent rest|e|] eqn:Hparents.
  - exact I.
  - do 3 apply bind_Raises. exact Hparents.
  - do 3 apply bind_Starved. exact Hparents.
Qed.

Lemma elite_loop_nobody :
  forall order n index, elite_loop order (repeat false n) index = index.
Proof.
  induction order as [|j rest IH]; intros n index; cbn [elite_loop].
  - reflexivity.
  - rewrite nth_repeat. apply IH.
Qed.

(** C5, evaluated where it breaks.  A generation whose elite is empty raises
    [ValueError] at the first draw of a parent, and a generation whose elite
    is a single gene asks for a second, different parent for ever: on every
    tape it runs until the tape is used up. *)
Theorem generation_needs_two_elites (argsort : list nat -> list nat)
    (random_gene : list (list Z)) (result : list evaluation)
    (tape : list Z) :
  (length (elite_index argsort result) = 0 ->
   advance argsort num_genes length_gene random_gene result tape
   = Raises ValueError)
  /\ (length (elite_index argsort result) = 1 ->
      advance argsort num_genes length_gene random_gene result tape
      = Starved).
Proof.
  pose proof (advance_first_child argsort random_gene result tape) as H.
  split; intros Hlen; rewrite Hlen in H.
  - now rewrite choose_parents_none in H.
  - now rewrite choose_parents_alone in H.
Qed.

Lemma generation_needs_two_elites_witness :
  advance stable_argsort num_genes length_gene some_population
          one_pass_result [3; 1; 4; 1; 5; 9; 2; 6]%Z = Starved
  /\ advance stable_argsort num_genes length_gene some_population
             no_pass_result [3; 1; 4; 1; 5; 9; 2; 6]%Z = Raises ValueError.
Proof.
  split.
  - apply (generation_needs_two_elites stable_argsort some_population
             one_pass_result [3; 1; 4; 1; 5; 9; 2; 6]%Z).
    vm_compute. reflexivity.
  - apply (generation_needs_two_elites stable_argsort some_population
             no_pass_result [3; 1; 4; 1; 5; 9; 2; 6]%Z).
    vm_compute. reflexivity.
Defined.

(** C9, evaluated where it breaks.  For twenty genes none of which has a
    fidelity above zero, the step ends in a [ValueError] whatever
    [np.argsort] and the random draws are: no next population is made. *)
Theorem no_population_without_elites (argsort : list nat -> list nat)
    (tape : list Z) :
  length some_population = num_genes
  /\ length no_pass_result = num_genes
  /\ advance argsort num_genes length_gene some_population no_pass_result
             tape
     = Raises ValueError.
Proof.
  split; [reflexivity|]. split; [reflexivity|].
  pose proof (advance_first_child argsort some_population no_pass_result tape)
    as H.
  assert (Hnone : elite_index argsort no_pass_result = []).
  { rewrite elite_index_unfold.
    replace (snd (threshold_loop 100 (fidelities no_pass_result) 0 []))
      with (repeat false 20) by (vm_compute; reflexivity).
    apply elite_loop_nobody. }
  rewrite Hnone in H. cbn [length Z.of_nat] in H.
  now rewrite choose_parents_none in H.
Qed.

(** ** Decoding a gene *)

Lemma In_swapaxes (gene : gene_array) (G_ij : cell) :
  In G_ij (concat (swapaxes gene)) ->
  In G_ij (concat gene) \/ G_ij = (0%Z, 0%Z).
Proof.
  unfold swapaxes. destruct gene as [|row0 rest]; [intros []|].
  set (gene := row0 :: rest). intros H.
  apply in_concat in H. destruct H as (column & Hcolumn & Hin).
  apply in_map_iff in Hcolumn. destruct Hcolumn as (j & <- & _).
  apply in_map_iff in Hin. destruct Hin as (row & <- & Hrow).
  destruct (nth_in_or_default j row (0%Z, 0%Z)) as [Hnth | Hdefault].
  - left. apply in_concat. now exists row.
  - now right.
Qed.

Lemma In_swapaxes_rectangular (gene : gene_array) (G_ij : cell) :
  rectangular gene ->
  In G_ij (concat gene) -> In G_ij (concat (swapaxes gene)).
Proof.
  unfold rectangular, swapaxes.
  destruct gene as [|row0 rest]; [intros _ []|].
  cbn [hd]. intros Hrect H.
  apply in_concat in H. destruct H as (row & Hrow & Hin).
  rewrite Forall_forall in Hrect. specialize (Hrect row Hrow).
  destruct (In_nth row G_ij (0%Z, 0%Z) Hin) as (j & Hj & Hnth).
  apply in_concat.
  exists (map (fun row => nth j row (0%Z, 0%Z)) (row0 :: rest)). split.
  - apply in_map_iff. exists j. split; [reflexivity|].
    apply in_seq. lia.
  - apply in_map_iff. now exists row.
Qed.

Lemma existsb_swapaxes (f : cell -> bool) (gene : gene_array) :
  rectangular gene ->
  f (0%Z, 0%Z) = false ->
  existsb f (concat (swapaxes gene)) = existsb f (concat gene).
Proof.
  intros Hrect Hdefault.
  destruct (existsb f (concat gene)) eqn:Hgene.
  - apply existsb_exists in Hgene. destruct Hgene as (G_ij & Hin & Hf).
    apply existsb_exists. exists G_ij. split; [|assumption].
    now apply In_swapaxes_rectangular.
  - destruct (existsb f (concat (swapaxes gene))) eqn:Ht; [|reflexivity].
    apply existsb_exists in Ht. destruct Ht as (G_ij & Hin & Hf).
    apply In_swapaxes in Hin. destruct Hin as [Hin | ->].
    + rewrite <- Hgene. symmetry. apply existsb_exists. now exists G_ij.
    + congruence.
Qed.

Lemma swapaxes_columns_of (gene : gene_array) :
  swapaxes gene = columns_of (length (hd [] gene)) gene.
Proof. now destruct gene. Qed.

Lemma swapaxes_column_length (gene : gene_array) (G_nj : list cell) :
  In G_nj (swapaxes gene) -> length G_nj = length gene.
Proof.
  rewrite swapaxes_columns_of. unfold columns_of. intros H.
  apply in_map_iff in H. destruct H as (j & <- & _). apply length_map.
Qed.

(** The cell of row [i] and position [j] is cell [i] of column [j]. *)
Lemma swapaxes_cell (gene : gene_array) (i j : nat) (row : list cell)
    (G_ij : cell) :
  rectangular gene ->
  nth_error gene i = Some row ->
  nth_error row j = Some G_ij ->
  exists G_nj, In G_nj (swapaxes gene) /\ nth_error G_nj i = Some G_ij.
Proof.
  intros Hrect Hrow Hcell.
  exists (map (fun row => nth j row (0%Z, 0%Z)) gene). split.
  - rewrite swapaxes_columns_of. unfold columns_of.
    apply in_map_iff. exists j. split; [reflexivity|].
    apply in_seq. split; [lia|]. cbn [Nat.add].
    unfold rectangular in Hrect. rewrite Forall_forall in Hrect.
    rewrite <- (Hrect row (nth_error_In _ _ Hrow)).
    apply nth_error_Some. congruence.
  - rewrite nth_error_map. unfold cell in *. rewrite Hrow.
    cbn [option_map]. f_equal. now apply nth_error_nth.
Qed.

Lemma is_array_rectangular (gene : gene_array) :
  is_array gene = true <-> rectangular gene.
Proof.
  unfold is_array, rectangular. rewrite forallb_forall, Forall_forall.
  split; intros H row Hrow; apply Nat.eqb_eq, H, Hrow.
Qed.

Lemma transpose_rectangular (gene : gene_array) :
  rectangular gene -> transpose gene = Ok (swapaxes gene).
Proof.
  intros H. apply is_array_rectangular in H. unfold transpose.
  now rewrite H.
Qed.


(** The decoder on an array, for a circuit that can be created. *)
Lemma generate_circuit_unfold (gene : gene_array) (num_qubit : Z) :
  (0 <= num_qubit)%Z ->
  rectangular gene ->
  generate_circuit_from_gene gene num_qubit =
  let? st := decode_columns num_qubit (swapaxes gene) (0, []) in
  Ok (snd st).
Proof.
  intros Hn Hrect. unfold generate_circuit_from_gene, new_circuit.
  replace (num_qubit <? 0)%Z with false by (symmetry; apply Z.ltb_ge; lia).
  cbn [Py.bind]. now rewrite transpose_rectangular by assumption.
Qed.

(** What a returned circuit tells about the call. *)
Lemma generate_circuit_Ok (gene : gene_array) (num_qubit : Z)
    (c : QuantumCircuit) :
  generate_circuit_from_gene gene num_qubit = Ok c ->
  (0 <= num_qubit)%Z
  /\ rectangular gene
  /\ exists st,
       decode_columns num_qubit (swapaxes gene) (0, []) = Ok st
       /\ snd st = c.
Proof.
  unfold generate_circuit_from_gene, new_circuit, transpose.
  destruct (num_qubit <? 0)%Z eqn:Hn; cbn [Py.bind]; [discriminate|].
  destruct (is_array gene) eqn:Harray; cbn [Py.bind]; [|discriminate].
  destruct (decode_columns num_qubit (swapaxes gene) _) as [st|e]
    eqn:Hdecode; cbn [Py.bind]; [|discriminate].
  intros H. injection H as <-.
  split; [apply Z.ltb_ge in Hn; lia|].
  split; [now apply is_array_rectangular|].
  exists st. split; [first [exact Hdecode | reflexivity] | reflexivity].
Qed.

(** *** The alphabet lookup *)

Lemma getitem_gene_gates (code : Z) :
  if unreadable code
  then getitem gene_gates code = Err IndexError
  else exists gate, getitem gene_gates code = Ok gate.
Proof.
  unfold unreadable.
  destruct (code <? -6)%Z eqn:Hlow; cbn [orb].
  - apply Z.ltb_lt in Hlow. unfold getitem. cbn [gene_gates length].
    replace (code <? 0)%Z with true by (symmetry; apply Z.ltb_lt; lia).
    replace (0 <=? Z.of_nat 6 + code)%Z with false
      by (symmetry; apply Z.leb_gt; lia).
    reflexivity.
  - apply Z.ltb_ge in Hlow.
    destruct (6 <=? code)%Z eqn:Hhigh.
    + apply Z.leb_le in Hhigh. unfold getitem. cbn [gene_gates length].
      replace (code <? 0)%Z with false by (symmetry; apply Z.ltb_ge; lia).
      replace (code <? Z.of_nat 6)%Z with false
        by (symmetry; apply Z.ltb_ge; lia).
      now rewrite andb_false_r.
    + apply Z.leb_gt in Hhigh.
      assert (Hcases : (code = -6 \/ code = -5 \/ code = -4 \/ code = -3
                        \/ code = -2 \/ code = -1 \/ code = 0 \/ code = 1
                        \/ code = 2 \/ code = 3 \/ code = 4 \/ code = 5)%Z)
        by lia.
      repeat (destruct Hcases as [-> | Hcases];
              [eexists; vm_compute; reflexivity|]).
      subst code. eexists. vm_compute. reflexivity.
Qed.

Lemma readable_codes (code : Z) :
  unreadable code = false ->
  (code = -6 \/ code = -5 \/ code = -4 \/ code = -3 \/ code = -2
   \/ code = -1 \/ code = 0 \/ code = 1 \/ code = 2 \/ code = 3
   \/ code = 4 \/ code = 5)%Z.
Proof.
  unfold unreadable. intros H. apply orb_false_elim in H.
  destruct H as [Hlow Hhigh].
  apply Z.ltb_ge in Hlow. apply Z.leb_gt in Hhigh. lia.
Qed.

(** *** The builder calls *)

Lemma qubit_index_inside (num_qubit q : Z) :
  (0 <= q < num_qubit)%Z -> qubit_index num_qubit q = Ok q.
Proof.
  intros H. unfold qubit_index.
  replace (0 <=? q)%Z with true by (symmetry; apply Z.leb_le; lia).
  replace (q <? num_qubit)%Z with true by (symmetry; apply Z.ltb_lt; lia).
  reflexivity.
Qed.

Lemma qubit_index_negative (num_qubit q : Z) :
  (- num_qubit <= q < 0)%Z ->
  qubit_index num_qubit q = Ok (q mod num_qubit)%Z.
Proof.
  intros H. unfold qubit_index.
  replace (0 <=? q)%Z with false by (symmetry; apply Z.leb_gt; lia).
  replace (- num_qubit <=? q)%Z with true by (symmetry; apply Z.leb_le; lia).
  replace (q <? 0)%Z with true by (symmetry; apply Z.ltb_lt; lia).
  cbn [andb]. f_equal.
  rewrite <- (Z_mod_plus_full q 1 num_qubit).
  rewrite Z.mod_small; lia.
Qed.

Lemma qubit_index_outside (num_qubit q : Z) :
  (q < - num_qubit \/ num_qubit <= q)%Z ->
  (0 <= num_qubit)%Z ->
  qubit_index num_qubit q = Err CircuitError.
Proof.
  intros H Hn. unfold qubit_index.
  destruct ((0 <=? q) && (q <? num_qubit))%Z eqn:Hin.
  - apply andb_prop in Hin. destruct Hin as [H0 H1].
    apply Z.leb_le in H0. apply Z.ltb_lt in H1. lia.
  - destruct ((- num_qubit <=? q) && (q <? 0))%Z eqn:Hneg; [|reflexivity].
    apply andb_prop in Hneg. destruct Hneg as [H0 H1].
    apply Z.leb_le in H0. apply Z.ltb_lt in H1. lia.
Qed.

Lemma qubit_index_Ok (num_qubit q r : Z) :
  qubit_index num_qubit q = Ok r -> (0 <= r < num_qubit)%Z.
Proof.
  unfold qubit_index.
  destruct ((0 <=? q) && (q <? num_qubit))%Z eqn:Hin.
  - intros H. injection H as <-.
    apply andb_prop in Hin. destruct Hin as [H0 H1].
    apply Z.leb_le in H0. apply Z.ltb_lt in H1. lia.
  - destruct ((- num_qubit <=? q) && (q <? 0))%Z eqn:Hneg; [|discriminate].
    intros H. injection H as <-.
    apply andb_prop in Hneg. destruct Hneg as [H0 H1].
    apply Z.leb_le in H0. apply Z.ltb_lt in H1. lia.
Qed.

Lemma qubit_index_row (num_qubit : Z) (i : nat) (r : Z) :
  qubit_index num_qubit (Z.of_nat i) = Ok r -> r = Z.of_nat i.
Proof.
  unfold qubit_index.
  destruct ((0 <=? Z.of_nat i) && (Z.of_nat i <? num_qubit))%Z.
  - intros H. now injection H.
  - replace (Z.of_nat i <? 0)%Z with false
      by (symmetry; apply Z.ltb_ge; lia).
    now rewrite andb_false_r.
Qed.

Lemma qubit_index_error (num_qubit q : Z) (e : exn) :
  qubit_index num_qubit q = Err e -> e = CircuitError.
Proof.
  unfold qubit_index. case_conditionals; [discriminate.. |].
  intros H. now injection H.
Qed.

Lemma append_gate_inside (num_qubit : Z) (c : QuantumCircuit)
    (ins : instruction) (q : nat) :
  (Z.of_nat q < num_qubit)%Z ->
  append_gate num_qubit c ins q = Ok (c ++ [ins]).
Proof.
  intros H. unfold append_gate. now rewrite qubit_index_inside by lia.
Qed.

Lemma append_gate_Ok (num_qubit : Z) (c c' : QuantumCircuit)
    (ins : instruction) (q : nat) :
  append_gate num_qubit c ins q = Ok c' -> c' = c ++ [ins].
Proof.
  unfold append_gate.
  destruct (qubit_index num_qubit (Z.of_nat q)); cbn [Py.bind];
    [|discriminate].
  intros H. now injection H.
Qed.

Lemma append_gate_error (num_qubit : Z) (c : QuantumCircuit)
    (ins : instruction) (q : nat) (e : exn) :
  append_gate num_qubit c ins q = Err e -> e = CircuitError.
Proof.
  unfold append_gate.
  destruct (qubit_index num_qubit (Z.of_nat q)) eqn:Hq; cbn [Py.bind];
    [discriminate|].
  intros H. injection H as <-. now apply qubit_index_error in Hq.
Qed.

Lemma append_cx_inside (num_qubit : Z) (c : QuantumCircuit) (control : Z)
    (target : nat) :
  (0 <= control < num_qubit)%Z ->
  (Z.of_nat target < num_qubit)%Z ->
  control <> Z.of_nat target ->
  append_cx num_qubit c control target = Ok (c ++ [Cx control target]).
Proof.
  intros Hc Ht Hneq. unfold append_cx.
  rewrite !qubit_index_inside by lia. cbn [Py.bind].
  now replace (control =? Z.of_nat target)%Z with false
    by (symmetry; now apply Z.eqb_neq).
Qed.

Lemma append_cx_Ok (num_qubit : Z) (c c' : QuantumCircuit) (control : Z)
    (target : nat) :
  append_cx num_qubit c control target = Ok c' ->
  exists q,
    c' = c ++ [Cx q target]
    /\ (0 <= q < num_qubit)%Z /\ q <> Z.of_nat target.
Proof.
  unfold append_cx.
  destruct (qubit_index num_qubit control) as [q|e] eqn:Hq; cbn [Py.bind];
    [|discriminate].
  destruct (qubit_index num_qubit (Z.of_nat target)) as [t|e] eqn:Ht;
    cbn [Py.bind]; [|discriminate].
  destruct (q =? t)%Z eqn:Hqt; [discriminate|].
  intros H. injection H as <-. exists q.
  split; [reflexivity|]. split; [now apply qubit_index_Ok in Hq|].
  apply Z.eqb_neq in Hqt.
  now rewrite (qubit_index_row _ _ _ Ht) in Hqt.
Qed.

Lemma append_cx_error (num_qubit : Z) (c : QuantumCircuit) (control : Z)
    (target : nat) (e : exn) :
  append_cx num_qubit c control target = Err e -> e = CircuitError.
Proof.
  unfold append_cx.
  destruct (qubit_index num_qubit control) as [q|e1] eqn:Hq; cbn [Py.bind].
  - destruct (qubit_index num_qubit (Z.of_nat target)) as [t|e2] eqn:Ht;
      cbn [Py.bind].
    + destruct (q =? t)%Z; [|discriminate].
      intros H. now injection H.
    + intros H. injection H as <-. now apply qubit_index_error in Ht.
  - intros H. injection H as <-. now apply qubit_index_error in Hq.
Qed.

Lemma reduced_control (num_qubit control : Z) :
  (0 < num_qubit)%Z -> (0 <= control)%Z ->
  (if (num_qubit <=? control)%Z then remainder control num_qubit
   else control) = (control mod num_qubit)%Z.
Proof.
  intros Hn Hc. unfold remainder.
  destruct (num_qubit <=? control)%Z eqn:Hle.
  - replace (num_qubit =? 0)%Z with false
      by (symmetry; apply Z.eqb_neq; lia).
    reflexivity.
  - apply Z.leb_gt in Hle. now rewrite Z.mod_small by lia.
Qed.

(** *** One cell *)

(** The body of the loop by the kind of the cell: which builder call a
    readable cell makes. *)
Lemma decode_cell_by_kind (num_qubit : Z) (i : nat) (G_ij : cell)
    (theta_index : nat) (c : QuantumCircuit) :
  unreadable (fst G_ij) = false ->
  decode_cell num_qubit i G_ij (theta_index, c) =
  if is_empty G_ij then Ok (theta_index, c)
  else if is_rz G_ij then
    let? c' :=
      append_gate num_qubit c
        (Rotation "rz" (Param (theta_name theta_index)) i) i in
    Ok (S theta_index, c')
  else if is_cx G_ij then
    let control :=
      if (num_qubit <=? snd G_ij)%Z then remainder (snd G_ij) num_qubit
      else snd G_ij in
    if (control =? Z.of_nat i)%Z then Ok (theta_index, c)
    else
      let? c' := append_cx num_qubit c control i in
      Ok (theta_index, c')
  else
    let? gate := getitem gene_gates (fst G_ij) in
    let? c' := append_gate num_qubit c (Fixed gate i) i in
    Ok (theta_index, c').
Proof.
  destruct G_ij as [code control]. cbn [fst snd]. intros Hcode.
  apply readable_codes in Hcode.
  repeat (destruct Hcode as [-> | Hcode]; [reflexivity|]).
  subst code. reflexivity.
Qed.

Lemma fixed_gate_codes (G_ij : cell) :
  unreadable (fst G_ij) = false ->
  is_empty G_ij = false -> is_rz G_ij = false -> is_cx G_ij = false ->
  exists gate,
    getitem gene_gates (fst G_ij) = Ok gate
    /\ In gate ["h"; "x"; "sx"]%string.
Proof.
  destruct G_ij as [code control]. cbn [fst]. intros Hcode.
  apply readable_codes in Hcode.
  repeat (destruct Hcode as [-> | Hcode];
          [intros He Hrz Hcx;
           first [discriminate He | discriminate Hrz | discriminate Hcx
                 | eexists; split; [reflexivity | cbn; auto]]|]).
  subst code. intros _ _ _. eexists. split; [reflexivity | cbn; auto].
Qed.

Lemma decode_cell_unreadable (num_qubit : Z) (i : nat) (G_ij : cell)
    (st : nat * QuantumCircuit) :
  unreadable (fst G_ij) = true ->
  decode_cell num_qubit i G_ij st = Err IndexError.
Proof.
  intros Hcode. pose proof (getitem_gene_gates (fst G_ij)) as H.
  rewrite Hcode in H. unfold decode_cell. destruct st as [theta_index c].
  now rewrite H.
Qed.

(** The two errors of a cell: the lookup of an unreadable code, and the
    refusal of the builder for a readable one. *)
Lemma decode_cell_error (num_qubit : Z) (i : nat) (G_ij : cell)
    (st : nat * QuantumCircuit) (e : exn) :
  decode_cell num_qubit i G_ij st = Err e ->
  if unreadable (fst G_ij) then e = IndexError else e = CircuitError.
Proof.
  destruct st as [theta_index c].
  destruct (unreadable (fst G_ij)) eqn:Hcode.
  - rewrite decode_cell_unreadable by assumption.
    intros H. now injection H.
  - rewrite decode_cell_by_kind by assumption.
    destruct (is_empty G_ij) eqn:He; [discriminate|].
    destruct (is_rz G_ij) eqn:Hrz.
    { destruct (append_gate _ _ _ _) eqn:Hcall; cbn [Py.bind];
        [discriminate|].
      intros H. injection H as <-. now apply append_gate_error in Hcall. }
    destruct (is_cx G_ij) eqn:Hcx.
    { cbv zeta. destruct (_ =? _)%Z; [discriminate|].
      destruct (append_cx _ _ _ _) eqn:Hcall; cbn [Py.bind];
        [discriminate|].
      intros H. injection H as <-. now apply append_cx_error in Hcall. }
    destruct (fixed_gate_codes G_ij Hcode He Hrz Hcx) as (gate & -> & _).
    cbn [Py.bind].
    destruct (append_gate _ _ _ _) eqn:Hcall; cbn [Py.bind];
      [discriminate|].
    intros H. injection H as <-. now apply append_gate_error in Hcall.
Qed.

(** A readable cell in a row that the circuit has, with no negative control
    if it is a [cx] cell, is decoded. *)
Lemma decode_cell_fits (num_qubit : Z) (i : nat) (G_ij : cell)
    (st : nat * QuantumCircuit) :
  unreadable (fst G_ij) = false ->
  (is_cx G_ij = true -> (0 <= snd G_ij)%Z) ->
  (Z.of_nat i < num_qubit)%Z ->
  exists st', decode_cell num_qubit i G_ij st = Ok st'.
Proof.
  intros Hcode Hcontrol Hi. destruct st as [theta_index c].
  rewrite decode_cell_by_kind by assumption.
  destruct (is_empty G_ij) eqn:He; [now eexists|].
  destruct (is_rz G_ij) eqn:Hrz.
  { rewrite append_gate_inside by assumption. now eexists. }
  destruct (is_cx G_ij) eqn:Hcx.
  { cbv zeta. rewrite reduced_control by (try apply Hcontrol; auto; lia).
    destruct (_ =? _)%Z eqn:Hself; [now eexists|].
    apply Z.eqb_neq in Hself.
    rewrite append_cx_inside; [now eexists | | assumption | assumption].
    apply Z.mod_pos_bound. lia. }
  destruct (fixed_gate_codes G_ij Hcode He Hrz Hcx) as (gate & -> & _).
  cbn [Py.bind]. rewrite append_gate_inside by assumption. now eexists.
Qed.

(** What one cell adds to the loop state. *)
Lemma decode_cell_step (num_qubit : Z) (i : nat) (G_ij : cell)
    (theta_index : nat) (c : QuantumCircuit) (st' : nat * QuantumCircuit) :
  decode_cell num_qubit i G_ij (theta_index, c) = Ok st' ->
  exists new,
    st' = ((if is_rz G_ij then S theta_index else theta_index), c ++ new)
    /\ (is_rz G_ij = true ->
        new = [Rotation "rz" (Param (theta_name theta_index)) i])
    /\ (is_rz G_ij = false ->
        new = []
        \/ (exists control, new = [Cx control i] /\ is_cx G_ij = true)
        \/ (exists gate, new = [Fixed gate i]
                         /\ In gate ["h"; "x"; "sx"]%string))
    /\ (is_empty G_ij = true -> new = []).
Proof.
  destruct (unreadable (fst G_ij)) eqn:Hcode;
    [now rewrite decode_cell_unreadable|].
  rewrite decode_cell_by_kind by assumption.
  destruct (is_empty G_ij) eqn:He.
  { assert (Hrz : is_rz G_ij = false).
    { unfold is_empty, is_rz in *. apply orb_prop in He.
      destruct He as [He | He]; apply Z.eqb_eq in He; now rewrite He. }
    rewrite Hrz. intros H. injection H as <-. exists [].
    rewrite app_nil_r. repeat split; auto. discriminate. }
  destruct (is_rz G_ij) eqn:Hrz.
  { destruct (append_gate _ _ _ _) as [c'|e] eqn:Hcall; cbn [Py.bind];
      [|discriminate].
    intros H. injection H as <-. apply append_gate_Ok in Hcall. subst c'.
    eexists. split; [reflexivity|].
    split; [reflexivity|]. split; discriminate. }
  destruct (is_cx G_ij) eqn:Hcx.
  { cbv zeta. destruct (_ =? _)%Z.
    { intros H. injection H as <-. exists []. rewrite app_nil_r.
      split; [reflexivity|]. split; [discriminate|].
      split; [now left | discriminate]. }
    destruct (append_cx _ _ _ _) as [c'|e] eqn:Hcall; cbn [Py.bind];
      [|discriminate].
    intros H. injection H as <-. apply append_cx_Ok in Hcall.
    destruct Hcall as (q & -> & _). exists [Cx q i].
    split; [reflexivity|]. split; [discriminate|].
    split; [|discriminate]. right. left. now exists q. }
  destruct (fixed_gate_codes G_ij Hcode He Hrz Hcx) as (gate & -> & Hgate).
  cbn [Py.bind].
  destruct (append_gate _ _ _ _) as [c'|e] eqn:Hcall; cbn [Py.bind];
    [|discriminate].
  intros H. injection H as <-. apply append_gate_Ok in Hcall. subst c'.
  exists [Fixed gate i].
  split; [reflexivity|]. split; [discriminate|].
  split; [|discriminate]. right. right. now exists gate.
Qed.

(** *** Columns *)

Lemma decode_column_error (num_qubit : Z) :
  forall G_nj i st e,
    decode_column num_qubit i G_nj st = Err e ->
    (e = IndexError
     /\ existsb (fun G_ij => unreadable (fst G_ij)) G_nj = true)
    \/ e = CircuitError.
Proof.
  induction G_nj as [|G_ij rest IH]; intros i st e;
    cbn [decode_column existsb]; [discriminate|].
  destruct (decode_cell num_qubit i G_ij st) as [st1|e1] eqn:Hcell;
    cbn [Py.bind].
  - intros H. apply IH in H. destruct H as [[-> Hbad] | ->];
      [left | now right].
    split; [reflexivity|]. apply orb_true_iff. right. exact Hbad.
  - intros H. injection H as <-. apply decode_cell_error in Hcell.
    destruct (unreadable (fst G_ij)); [now left | now right].
Qed.

Lemma decode_columns_error (num_qubit : Z) :
  forall columns st e,
    decode_columns num_qubit columns st = Err e ->
    (e = IndexError
     /\ existsb (fun G_ij => unreadable (fst G_ij)) (concat columns) = true)
    \/ e = CircuitError.
Proof.
  induction columns as [|G_nj rest IH]; intros st e;
    cbn [decode_columns concat]; [discriminate|].
  rewrite existsb_app.
  destruct (decode_column num_qubit 0 G_nj st) as [st1|e1] eqn:Hcolumn;
    cbn [Py.bind].
  - intros H. apply IH in H. destruct H as [[-> Hbad] | ->];
      [left | now right].
    split; [reflexivity|]. apply orb_true_iff. right. exact Hbad.
  - intros H. injection H as <-. apply decode_column_error in Hcolumn.
    destruct Hcolumn as [[-> Hbad] | ->]; [left | now right].
    split; [reflexivity|]. apply orb_true_iff. left. exact Hbad.
Qed.

(** A cell that the loop body refuses, whatever the state, ends its column
    in an error: the one of the cell, or an earlier one. *)
Lemma decode_column_failing (num_qubit : Z) :
  forall G_nj i st k G_ij,
    nth_error G_nj k = Some G_ij ->
    (forall st, exists e, decode_cell num_qubit (i + k) G_ij st = Err e) ->
    exists e, decode_column num_qubit i G_nj st = Err e.
Proof.
  induction G_nj as [|G rest IH]; intros i st k G_ij Hk Hfails.
  - now destruct k.
  - cbn [decode_column]. destruct k as [|k]; cbn [nth_error] in Hk.
    + injection Hk as ->. rewrite Nat.add_0_r in Hfails.
      destruct (Hfails st) as [e ->]. now exists e.
    + destruct (decode_cell num_qubit i G st) as [st1|e1]; cbn [Py.bind];
        [|now exists e1].
      apply (IH (S i) st1 k G_ij Hk).
      intros st'. replace (S i + k) with (i + S k) by lia. apply Hfails.
Qed.

Lemma decode_columns_failing (num_qubit : Z) :
  forall columns st G_nj k G_ij,
    In G_nj columns ->
    nth_error G_nj k = Some G_ij ->
    (forall st, exists e, decode_cell num_qubit k G_ij st = Err e) ->
    exists e, decode_columns num_qubit columns st = Err e.
Proof.
  induction columns as [|column rest IH]; intros st G_nj k G_ij Hin Hk Hfails;
    [destruct Hin|].
  cbn [decode_columns].
  destruct (decode_column num_qubit 0 column st) as [st1|e1] eqn:Hcolumn;
    cbn [Py.bind]; [|now exists e1].
  destruct Hin as [-> | Hin].
  - destruct (decode_column_failing num_qubit G_nj 0 st k G_ij Hk Hfails)
      as [e He].
    congruence.
  - now apply (IH st1 G_nj k G_ij).
Qed.

Lemma decode_columns_unreadable (num_qubit : Z) (columns : list (list cell))
    (st : nat * QuantumCircuit) :
  existsb (fun G_ij => unreadable (fst G_ij)) (concat columns) = true ->
  exists e, decode_columns num_qubit columns st = Err e.
Proof.
  intros Hbad. apply existsb_exists in Hbad.
  destruct Hbad as (G_ij & Hin & Hcode).
  apply in_concat in Hin. destruct Hin as (G_nj & Hcolumn & Hcell).
  apply In_nth_error in Hcell. destruct Hcell as [k Hk].
  apply (decode_columns_failing num_qubit columns st G_nj k G_ij);
    try assumption.
  intros st'. exists IndexError. now apply decode_cell_unreadable.
Qed.

Lemma decode_column_fits (num_qubit : Z) :
  forall G_nj i st,
    (forall G_ij, In G_ij G_nj -> is_cx G_ij = true -> (0 <= snd G_ij)%Z) ->
    (Z.of_nat (i + length G_nj) <= num_qubit)%Z ->
    if existsb (fun G_ij => unreadable (fst G_ij)) G_nj
    then decode_column num_qubit i G_nj st = Err IndexError
    else exists st', decode_column num_qubit i G_nj st = Ok st'.
Proof.
  induction G_nj as [|G_ij rest IH]; intros i st Hcontrol Hrows;
    cbn [existsb decode_column].
  - now exists st.
  - cbn [length] in Hrows.
    destruct (unreadable (fst G_ij)) eqn:Hcode; cbn [orb].
    + now rewrite decode_cell_unreadable.
    + destruct (decode_cell_fits num_qubit i G_ij st Hcode) as [st' ->].
      * apply Hcontrol. now left.
      * lia.
      * cbn [Py.bind]. apply IH.
        -- intros G Hin. apply Hcontrol. now right.
        -- replace (S i + length rest) with (i + S (length rest)) by lia.
           exact Hrows.
Qed.

Lemma decode_columns_fits (num_qubit : Z) :
  forall columns st,
    (forall G_ij, In G_ij (concat columns) ->
                  is_cx G_ij = true -> (0 <= snd G_ij)%Z) ->
    (forall G_nj, In G_nj columns ->
                  (Z.of_nat (length G_nj) <= num_qubit)%Z) ->
    if existsb (fun G_ij => unreadable (fst G_ij)) (concat columns)
    then decode_columns num_qubit columns st = Err IndexError
    else exists st', decode_columns num_qubit columns st = Ok st'.
Proof.
  induction columns as [|G_nj rest IH]; intros st Hcontrol Hrows;
    cbn [concat decode_columns].
  - now exists st.
  - rewrite existsb_app. cbn [concat] in Hcontrol.
    assert (Hcolumn := decode_column_fits num_qubit G_nj 0 st).
    assert (H : forall G_ij, In G_ij G_nj ->
                  is_cx G_ij = true -> (0 <= snd G_ij)%Z).
    { intros G Hin. apply Hcontrol, in_or_app. now left. }
    specialize (Hcolumn H (Hrows G_nj (or_introl eq_refl))). clear H.
    match type of Hcolumn with
    | if ?b then _ else _ => change (existsb _ G_nj) with b; destruct b
    end; cbn [orb].
    + now rewrite Hcolumn.
    + destruct Hcolumn as [st' ->]. cbn [Py.bind]. apply IH.
      * intros G Hin. apply Hcontrol, in_or_app. now right.
      * intros column Hin. apply Hrows. now right.
Qed.

(** *** The gene *)

Lemma fits_rows_and_controls (gene : gene_array) (num_qubit : Z) :
  fits gene num_qubit = true ->
  (Z.of_nat (length gene) <= num_qubit)%Z
  /\ forall G_ij, In G_ij (concat gene) ->
                  is_cx G_ij = true -> (0 <= snd G_ij)%Z.
Proof.
  unfold fits. intros H. apply andb_prop in H. destruct H as [Hrows Hcells].
  split; [now apply Z.leb_le|].
  rewrite forallb_forall in Hcells. intros G_ij Hin Hcx.
  specialize (Hcells G_ij Hin). rewrite Hcx in Hcells.
  now apply Z.leb_le.
Qed.

(** The decoder on an array that the circuit has room for. *)
Lemma generate_circuit_fits (gene : gene_array) (num_qubit : Z) :
  rectangular gene ->
  fits gene num_qubit = true ->
  if has_unreadable_code gene
  then generate_circuit_from_gene gene num_qubit = Err IndexError
  else exists c, generate_circuit_from_gene gene num_qubit = Ok c.
Proof.
  intros Hrect Hfits. apply fits_rows_and_controls in Hfits.
  destruct Hfits as [Hrows Hcontrol].
  rewrite generate_circuit_unfold by (assumption || lia).
  unfold has_unreadable_code.
  rewrite <- (existsb_swapaxes _ gene Hrect) by reflexivity.
  assert (H := decode_columns_fits num_qubit (swapaxes gene) (0, [])).
  assert (Hcells : forall G_ij, In G_ij (concat (swapaxes gene)) ->
                     is_cx G_ij = true -> (0 <= snd G_ij)%Z).
  { intros G_ij Hin. apply In_swapaxes in Hin.
    destruct Hin as [Hin | ->]; [now apply Hcontrol | discriminate]. }
  assert (Hcolumns : forall G_nj, In G_nj (swapaxes gene) ->
                       (Z.of_nat (length G_nj) <= num_qubit)%Z).
  { intros G_nj Hin. now rewrite (swapaxes_column_length gene G_nj Hin). }
  specialize (H Hcells Hcolumns).
  match type of H with
  | if ?b then _ else _ =>
      change (existsb _ (concat (swapaxes gene))) with b; destruct b
  end.
  - now rewrite H.
  - destruct H as [st ->]. now exists (snd st).
Qed.

(** The errors of the decoder on an array. *)
Lemma generate_circuit_error (gene : gene_array) (num_qubit : Z) (e : exn) :
  (0 <= num_qubit)%Z ->
  rectangular gene ->
  generate_circuit_from_gene gene num_qubit = Err e ->
  (e = IndexError /\ has_unreadable_code gene = true) \/ e = CircuitError.
Proof.
  intros Hn Hrect. rewrite generate_circuit_unfold by assumption.
  destruct (decode_columns num_qubit (swapaxes gene) (0, [])) as [st|e1]
    eqn:Hdecode; cbn [Py.bind]; [discriminate|].
  intros H. injection H as <-. apply decode_columns_error in Hdecode.
  destruct Hdecode as [[-> Hbad] | ->]; [left | now right].
  split; [reflexivity|]. unfold has_unreadable_code.
  now rewrite <- (existsb_swapaxes _ gene Hrect) by reflexivity.
Qed.

(** An array with an unreadable gate code yields no circuit. *)
Lemma generate_circuit_unreadable (gene : gene_array) (num_qubit : Z) :
  (0 <= num_qubit)%Z ->
  rectangular gene ->
  has_unreadable_code gene = true ->
  generate_circuit_from_gene gene num_qubit = Err IndexError
  \/ generate_circuit_from_gene gene num_qubit = Err CircuitError.
Proof.
  intros Hn Hrect Hbad.
  destruct (generate_circuit_from_gene gene num_qubit) as [c|e] eqn:Hgen.
  - exfalso. apply generate_circuit_Ok in Hgen.
    destruct Hgen as (_ & _ & st & Hdecode & _).
    unfold has_unreadable_code in Hbad.
    rewrite <- (existsb_swapaxes _ gene Hrect) in Hbad by reflexivity.
    destruct (decode_columns_unreadable num_qubit (swapaxes gene) (0, [])
                Hbad) as [e He].
    congruence.
  - destruct (generate_circuit_error gene num_qubit e Hn Hrect Hgen)
      as [[-> _] | ->]; [now left | now right].
Qed.




(** ** The control of a controlled gate *)

Lemma decode_cell_cx (num_qubit : Z) (i : nat) (code control : Z)
    (st : nat * QuantumCircuit) :
  getitem gene_gates code = Ok "cx"%string ->
  decode_cell num_qubit i (code, control) st =
  let control :=
    if (num_qubit <=? control)%Z then remainder control num_qubit
    else control in
  if (control =? Z.of_nat i)%Z then Ok st
  else
    let? circuit := append_cx num_qubit (snd st) control i in
    Ok (fst st, circuit).
Proof.
  intros Hgate. unfold decode_cell. destruct st as [theta_index circuit].
  cbn [fst snd]. rewrite Hgate. reflexivity.
Qed.

Lemma decode_cell_control (num_qubit : Z) (i : nat) (G_ij : cell)
    (st st' : nat * QuantumCircuit) :
  Forall (control_in_range num_qubit) (snd st) ->
  decode_cell num_qubit i G_ij st = Ok st' ->
  Forall (control_in_range num_qubit) (snd st').
Proof.
  destruct st as [theta_index c]. cbn [snd]. intros Hst.
  destruct (unreadable (fst G_ij)) eqn:Hcode;
    [now rewrite decode_cell_unreadable|].
  rewrite decode_cell_by_kind by assumption.
  assert (Hgate : forall ins c', control_in_range num_qubit ins ->
                    append_gate num_qubit c ins i = Ok c' ->
                    Forall (control_in_range num_qubit) c').
  { intros ins c' Hins Hcall. apply append_gate_Ok in Hcall. subst c'.
    apply Forall_app. split; [assumption|]. now repeat constructor. }
  destruct (is_empty G_ij) eqn:He.
  { intros H. now injection H as <-. }
  destruct (is_rz G_ij) eqn:Hrz.
  { destruct (append_gate _ _ _ _) as [c'|e] eqn:Hcall; cbn [Py.bind];
      [|discriminate].
    intros H. injection H as <-. cbn [snd].
    eapply Hgate; [|exact Hcall]. exact I. }
  destruct (is_cx G_ij) eqn:Hcx.
  { cbv zeta. destruct (_ =? _)%Z.
    { intros H. now injection H as <-. }
    destruct (append_cx _ _ _ _) as [c'|e] eqn:Hcall; cbn [Py.bind];
      [|discriminate].
    intros H. injection H as <-. cbn [snd].
    apply append_cx_Ok in Hcall. destruct Hcall as (q & -> & Hq & Hneq).
    apply Forall_app. split; [assumption|].
    repeat constructor; [lia | lia | assumption]. }
  destruct (fixed_gate_codes G_ij Hcode He Hrz Hcx) as (gate & -> & _).
  cbn [Py.bind].
  destruct (append_gate _ _ _ _) as [c'|e] eqn:Hcall; cbn [Py.bind];
    [|discriminate].
  intros H. injection H as <-. cbn [snd].
  eapply Hgate; [|exact Hcall]. exact I.
Qed.

Lemma decode_column_control (num_qubit : Z) :
  forall G_nj i st st',
    Forall (control_in_range num_qubit) (snd st) ->
    decode_column num_qubit i G_nj st = Ok st' ->
    Forall (control_in_range num_qubit) (snd st').
Proof.
  induction G_nj as [|G_ij rest IH]; intros i st st' Hst;
    cbn [decode_column].
  - intros H. now injection H as <-.
  - destruct (decode_cell num_qubit i G_ij st) as [st1|e] eqn:Hcell;
      cbn [Py.bind]; [|discriminate].
    apply IH. now apply (decode_cell_control num_qubit i G_ij st).
Qed.

Lemma decode_columns_control (num_qubit : Z) :
  forall columns st st',
    Forall (control_in_range num_qubit) (snd st) ->
    decode_columns num_qubit columns st = Ok st' ->
    Forall (control_in_range num_qubit) (snd st').
Proof.
  induction columns as [|G_nj rest IH]; intros st st' Hst;
    cbn [decode_columns].
  - intros H. now injection H as <-.
  - destruct (decode_column num_qubit 0 G_nj st) as [st1|e] eqn:Hcolumn;
      cbn [Py.bind]; [|discriminate].
    apply IH. now apply (decode_column_control num_qubit G_nj 0 st).
Qed.

(** A [cx] cell with a control that is not negative. *)
Lemma decode_cell_cx_reduced (num_qubit : Z) (i : nat) (code control : Z)
    (st : nat * QuantumCircuit) :
  getitem gene_gates code = Ok "cx"%string ->
  (Z.of_nat i < num_qubit)%Z ->
  (0 <= control)%Z ->
  decode_cell num_qubit i (code, control) st =
  if (control mod num_qubit =? Z.of_nat i)%Z then Ok st
  else Ok (fst st, snd st ++ [Cx (control mod num_qubit) i]).
Proof.
  intros Hgate Hi Hc. rewrite decode_cell_cx by assumption. cbv zeta.
  rewrite reduced_control by lia.
  destruct (_ =? _)%Z eqn:Hself; [reflexivity|].
  apply Z.eqb_neq in Hself.
  rewrite append_cx_inside; [reflexivity | | assumption | assumption].
  apply Z.mod_pos_bound. lia.
Qed.

(** A [cx] cell with a negative control: the guard of line 95 leaves it as
    it is, and the builder takes it for an index from the end. *)
Lemma decode_cell_cx_negative (num_qubit : Z) (i : nat) (code control : Z)
    (st : nat * QuantumCircuit) :
  getitem gene_gates code = Ok "cx"%string ->
  (Z.of_nat i < num_qubit)%Z ->
  (control < 0)%Z ->
  decode_cell num_qubit i (code, control) st =
  if ((- num_qubit <=? control)%Z
      && negb (control mod num_qubit =? Z.of_nat i)%Z)%bool
  then Ok (fst st, snd st ++ [Cx (control mod num_qubit) i])
  else Err CircuitError.
Proof.
  intros Hgate Hi Hc. rewrite decode_cell_cx by assumption. cbv zeta.
  replace (num_qubit <=? control)%Z with false
    by (symmetry; apply Z.leb_gt; lia).
  replace (control =? Z.of_nat i)%Z with false
    by (symmetry; apply Z.eqb_neq; lia).
  unfold append_cx.
  destruct (- num_qubit <=? control)%Z eqn:Hlow; cbn [andb].
  - apply Z.leb_le in Hlow.
    rewrite qubit_index_negative by lia.
    rewrite qubit_index_inside by lia. cbn [Py.bind].
    now destruct (_ =? _)%Z.
  - apply Z.leb_gt in Hlow.
    now rewrite qubit_index_outside by lia.
Qed.

(** C8.  A cell decoded as a controlled gate, in a row that is a qubit of the
    circuit.  A control that is not negative is reduced modulo [num_qubit],
    and the cell produces no operation when the reduced control is its own
    qubit.  A negative control is not reduced: the cell is refused with a
    [CircuitError] when the control is below [-num_qubit], and also when the
    control modulo [num_qubit] is its own qubit, where no operation was to
    be produced; a gene (an array) with such a cell yields no circuit but an
    error, the [CircuitError] when all its gate codes are readable.  Every
    circuit that the decoder does return has the controls of its [cx] in
    [0, num_qubit) and different from their targets. *)
Theorem control_guard_misses_negatives (num_qubit : Z) (i : nat)
    (code control : Z) :
  getitem gene_gates code = Ok "cx"%string ->
  (Z.of_nat i < num_qubit)%Z ->
  (forall st,
      (0 <= control)%Z ->
      decode_cell num_qubit i (code, control) st =
      if (control mod num_qubit =? Z.of_nat i)%Z then Ok st
      else Ok (fst st, snd st ++ [Cx (control mod num_qubit) i]))
  /\ (forall st,
         (control < 0)%Z ->
         decode_cell num_qubit i (code, control) st =
         if ((- num_qubit <=? control)%Z
             && negb (control mod num_qubit =? Z.of_nat i)%Z)%bool
         then Ok (fst st, snd st ++ [Cx (control mod num_qubit) i])
         else Err CircuitError)
  /\ (forall gene row j,
         rectangular gene ->
         nth_error gene i = Some row ->
         nth_error row j = Some (code, control) ->
         (control < - num_qubit
          \/ (control < 0 /\ control mod num_qubit = Z.of_nat i))%Z ->
         exists e,
           generate_circuit_from_gene gene num_qubit = Err e
           /\ (has_unreadable_code gene = false -> e = CircuitError))
  /\ (forall gene circuit,
         generate_circuit_from_gene gene num_qubit = Ok circuit ->
         forall c target,
           In (Cx c target) circuit ->
           (0 <= c < num_qubit)%Z /\ c <> Z.of_nat target).
Proof.
  intros Hgate Hi. split; [|split; [|split]].
  - intros st Hc. now apply decode_cell_cx_reduced.
  - intros st Hc. now apply decode_cell_cx_negative.
  - intros gene row j Hrect Hrow Hcell Hbad.
    assert (Hfails : exists e,
               generate_circuit_from_gene gene num_qubit = Err e).
    { rewrite generate_circuit_unfold by (assumption || lia).
      destruct (swapaxes_cell gene i j row (code, control) Hrect Hrow Hcell)
        as (G_nj & Hcolumn & Hk).
      destruct (decode_columns_failing num_qubit (swapaxes gene) (0, [])
                  G_nj i (code, control) Hcolumn Hk) as [e ->];
        [|now exists e].
      intros st. exists CircuitError.
      rewrite decode_cell_cx_negative by (assumption || lia).
      destruct Hbad as [Hlow | [_ Hself]].
      - now replace (- num_qubit <=? control)%Z with false
          by (symmetry; apply Z.leb_gt; lia).
      - rewrite Hself, Z.eqb_refl. cbn [negb]. now rewrite andb_false_r. }
    destruct Hfails as [e He]. exists e. split; [exact He|].
    intros Hreadable.
    destruct (generate_circuit_error gene num_qubit e) as [[_ Hcode] | ->];
      try assumption; [lia | congruence | reflexivity].
  - intros gene circuit Hgen c target Hin.
    apply generate_circuit_Ok in Hgen.
    destruct Hgen as (_ & _ & st & Hdecode & <-).
    assert (Hall : Forall (control_in_range num_qubit) (snd st)).
    { apply (decode_columns_control num_qubit (swapaxes gene) (0, []));
        [constructor | assumption]. }
    rewrite Forall_forall in Hall. exact (Hall _ Hin).
Qed.

Lemma control_guard_misses_negatives_witness :
  decode_cell 3 0 (2, -4)%Z (0, []) = Err CircuitError
  /\ decode_cell 3 2 (2, -1)%Z (0, []) = Err CircuitError
  /\ decode_cell 3 0 (2, 7)%Z (0, []) = Ok (0, [Cx 1 0])
  /\ (exists e,
        generate_circuit_from_gene [[(2, -4)]; [(0, 0)]; [(0, 0)]]%Z 3
        = Err e
        /\ (has_unreadable_code [[(2, -4)]; [(0, 0)]; [(0, 0)]]%Z = false ->
            e = CircuitError))
  /\ (exists e,
        generate_circuit_from_gene [[(0, 0)]; [(0, 0)]; [(2, -1)]]%Z 3
        = Err e
        /\ (has_unreadable_code [[(0, 0)]; [(0, 0)]; [(2, -1)]]%Z = false ->
            e = CircuitError)).
Proof.
  destruct (control_guard_misses_negatives 3 0 2 (-4))%Z
    as (_ & Hlow & Hgene & _); [reflexivity | lia |].
  destruct (control_guard_misses_negatives 3 2 2 (-1))%Z
    as (_ & Hself & Hgene' & _); [reflexivity | lia |].
  destruct (control_guard_misses_negatives 3 0 2 7)%Z
    as (Hreduced & _); [reflexivity | lia |].
  split; [apply (Hlow (0, [])); lia|].
  split; [apply (Hself (0, [])); lia|].
  split; [apply (Hreduced (0, [])); lia|].
  split.
  - apply (Hgene [[(2, -4)]; [(0, 0)]; [(0, 0)]]%Z [(2, -4)]%Z 0).
    + repeat constructor.
    + reflexivity.
    + reflexivity.
    + left. lia.
  - apply (Hgene' [[(0, 0)]; [(0, 0)]; [(2, -1)]]%Z [(2, -1)]%Z 0).
    + repeat constructor.
    + reflexivity.
    + reflexivity.
    + right. split; [lia | reflexivity].
Defined.

(** ** The order of [circuit.parameters] *)

Lemma ascii_compare_Lt_trans (a b c : ascii) :
  Ascii.compare a b = Lt -> Ascii.compare b c = Lt ->
  Ascii.compare a c = Lt.
Proof.
  unfold Ascii.compare. rewrite !N.compare_lt_iff. lia.
Qed.

Lemma name_le_trans :
  forall a b c, name_le a b -> name_le b c -> name_le a c.
Proof.
  unfold name_le, String.leb.
  induction a as [|ca a IH]; intros b c Hab Hbc.
  - destruct c; reflexivity.
  - destruct b as [|cb b]; [discriminate|].
    destruct c as [|cc c]; [discriminate|].
    cbn [String.compare] in *.
    destruct (Ascii.compare ca cb) eqn:Hcab; try discriminate;
      destruct (Ascii.compare cb cc) eqn:Hcbc; try discriminate.
    + apply Ascii.compare_eq_iff in Hcab, Hcbc. subst cb cc.
      replace (Ascii.compare ca ca) with Eq
        by (symmetry; unfold Ascii.compare; apply N.compare_refl).
      now apply (IH b c).
    + apply Ascii.compare_eq_iff in Hcab. subst cb. now rewrite Hcbc.
    + apply Ascii.compare_eq_iff in Hcbc. subst cc. now rewrite Hcab.
    + now rewrite (ascii_compare_Lt_trans ca cb cc).
Qed.

Lemma insert_sorted_Permutation (x : string) (l : list string) :
  Permutation (insert_sorted x l) (x :: l).
Proof.
  induction l as [|y l IH]; cbn [insert_sorted].
  - apply Permutation_refl.
  - destruct (String.leb x y).
    + apply Permutation_refl.
    + transitivity (y :: x :: l); [now constructor | apply perm_swap].
Qed.

Lemma insert_sorted_StronglySorted (x : string) (l : list string) :
  StronglySorted name_le l -> StronglySorted name_le (insert_sorted x l).
Proof.
  induction 1 as [|y l Hs IH Hall]; cbn [insert_sorted].
  - repeat constructor.
  - destruct (String.leb x y) eqn:Hxy.
    + constructor; [now constructor|].
      constructor; [assumption|].
      rewrite Forall_forall in *. intros z Hz.
      apply (name_le_trans x y z); [assumption | now apply Hall].
    + constructor; [assumption|].
      rewrite Forall_forall in *. intros z Hz.
      apply (Permutation_in _ (insert_sorted_Permutation x l)) in Hz.
      destruct Hz as [<-|Hz]; [|now apply Hall].
      destruct (String.leb_total x y) as [H|H]; [congruence | exact H].
Qed.

Lemma sorted_by_name_Permutation (l : list string) :
  Permutation (sorted_by_name l) l.
Proof.
  induction l as [|x l IH]; cbn [sorted_by_name fold_right].
  - constructor.
  - transitivity (x :: fold_right insert_sorted [] l).
    + apply insert_sorted_Permutation.
    + now constructor.
Qed.

Lemma sorted_by_name_StronglySorted (l : list string) :
  StronglySorted name_le (sorted_by_name l).
Proof.
  induction l as [|x l IH]; cbn [sorted_by_name fold_right].
  - constructor.
  - now apply insert_sorted_StronglySorted.
Qed.

Lemma insert_sorted_first (x : string) (l : list string) :
  Forall (name_le x) l -> insert_sorted x l = x :: l.
Proof.
  intros Hall. destruct l as [|y l]; [reflexivity|].
  cbn [insert_sorted]. apply Forall_inv in Hall.
  unfold name_le in Hall. now rewrite Hall.
Qed.

Lemma Forall_filter_same {A : Type} (P : A -> Prop) (f : A -> bool)
    (l : list A) :
  Forall P l -> Forall P (filter f l).
Proof.
  rewrite !Forall_forall. intros H x Hx.
  apply filter_In in Hx. now apply H.
Qed.

Lemma filter_insert_sorted (f : string -> bool) (x : string)
    (l : list string) :
  StronglySorted name_le l ->
  filter f (insert_sorted x l) =
  if f x then insert_sorted x (filter f l) else filter f l.
Proof.
  induction 1 as [|y l Hs IH Hall]; cbn [insert_sorted].
  - cbn [filter]. now destruct (f x).
  - destruct (String.leb x y) eqn:Hxy.
    + assert (Hx : Forall (name_le x) (y :: l)).
      { constructor; [assumption|].
        rewrite Forall_forall in *. intros z Hz.
        apply (name_le_trans x y z); [assumption | now apply Hall]. }
      rewrite (insert_sorted_first x (filter f (y :: l)))
        by now apply Forall_filter_same.
      cbn [filter]. now destruct (f x).
    + cbn [filter]. rewrite IH.
      destruct (f y), (f x); try reflexivity.
      cbn [insert_sorted]. now rewrite Hxy.
Qed.

Lemma filter_sorted_by_name (f : string -> bool) (l : list string) :
  filter f (sorted_by_name l) = sorted_by_name (filter f l).
Proof.
  induction l as [|x l IH]; [reflexivity|].
  cbn [sorted_by_name fold_right filter].
  rewrite filter_insert_sorted by apply sorted_by_name_StronglySorted.
  fold (sorted_by_name l). rewrite IH. now destruct (f x).
Qed.

Lemma filter_nodup (f : string -> bool) (l : list string) :
  filter f (nodup string_dec l) = nodup string_dec (filter f l).
Proof.
  induction l as [|x l IH]; [reflexivity|].
  cbn [nodup filter].
  destruct (f x) eqn:Hfx; cbn [nodup].
  - destruct (in_dec string_dec x l) as [Hin | Hout];
      destruct (in_dec string_dec x (filter f l)) as [Hin' | Hout'].
    + assumption.
    + exfalso. apply Hout', filter_In. now split.
    + exfalso. apply Hout. now apply filter_In in Hin'.
    + cbn [filter]. now rewrite Hfx, IH.
  - destruct (in_dec string_dec x l); [assumption|].
    cbn [filter]. now rewrite Hfx.
Qed.

Lemma parameters_NoDup (circuit : QuantumCircuit) :
  NoDup (parameters circuit).
Proof.
  unfold parameters.
  apply (Permutation_NoDup
           (Permutation_sym (sorted_by_name_Permutation _))).
  apply NoDup_nodup.
Qed.

(** ** Binding a parameter vector *)

Lemma unbound_assign (d : list (string * Q)) (circuit : QuantumCircuit) :
  unbound (assign_parameters d circuit) =
  filter (fun name => negb (is_key name d)) (unbound circuit).
Proof.
  induction circuit as [|ins circuit IH]; [reflexivity|].
  unfold assign_parameters in *. cbn [map].
  destruct ins as [gate [name | v] qubit | |]; cbn [assign_instruction unbound];
    try assumption.
  cbn [filter]. unfold is_key at 1.
  destruct (lookup name d); cbn [negb unbound]; now rewrite IH.
Qed.

Lemma is_key_combine (name : string) :
  forall (keys : list string) (values : list Q),
    length keys = length values ->
    is_key name (combine keys values) = mem name keys.
Proof.
  unfold is_key, mem.
  induction keys as [|k keys IH]; intros [|v values] Hlen;
    try discriminate; [reflexivity|].
  cbn [combine lookup existsb].
  destruct (String.eqb name k); [reflexivity|].
  apply IH. now injection Hlen.
Qed.

Lemma NoDup_app_disjoint {A : Type} (l1 l2 : list A) (x : A) :
  NoDup (l1 ++ l2) -> In x l1 -> In x l2 -> False.
Proof.
  induction l1 as [|a l1 IH]; cbn [app]; intros Hnodup H1 H2.
  - destruct H1.
  - inversion Hnodup as [|? ? Hout Hrest]; subst.
    destruct H1 as [-> | H1].
    + apply Hout, in_or_app. now right.
    + now apply IH.
Qed.

Lemma filter_not_mem_prefix :
  forall l1 l2 : list string,
    NoDup (l1 ++ l2) ->
    filter (fun x => negb (mem x l1)) (l1 ++ l2) = l2.
Proof.
  intros l1 l2 Hnodup. rewrite filter_app.
  assert (H1 : filter (fun x => negb (mem x l1)) l1 = []).
  { assert (Hall : forall l, incl l l1 ->
                     filter (fun x => negb (mem x l1)) l = []).
    { induction l as [|x l IH]; intros Hincl; [reflexivity|].
      cbn [filter].
      assert (Hx : mem x l1 = true).
      { apply existsb_exists. exists x. split.
        - apply Hincl. now left.
        - apply String.eqb_refl. }
      rewrite Hx. cbn [negb]. apply IH.
      intros y Hy. apply Hincl. now right. }
    apply Hall, incl_refl. }
  assert (H2 : filter (fun x => negb (mem x l1)) l2 = l2).
  { assert (Hall : forall l, incl l l2 ->
                     filter (fun x => negb (mem x l1)) l = l).
    { induction l as [|x l IH]; intros Hincl; [reflexivity|].
      cbn [filter].
      assert (Hx : mem x l1 = false).
      { destruct (mem x l1) eqn:Hmem; [|reflexivity].
        apply existsb_exists in Hmem. destruct Hmem as (y & Hy & Hxy).
        apply String.eqb_eq in Hxy. subst y.
        exfalso. apply (NoDup_app_disjoint l1 l2 x Hnodup Hy).
        apply Hincl. now left. }
      rewrite Hx. cbn [negb]. f_equal. apply IH.
      intros y Hy. apply Hincl. now right. }
    apply Hall, incl_refl. }
  now rewrite H1, H2.
Qed.

Lemma getitem_inside (params : list string) (i : nat) :
  i < length params ->
  getitem params (Z.of_nat i) = Ok (nth i params EmptyString).
Proof.
  intros Hi. unfold getitem.
  replace (Z.of_nat i <? 0)%Z with false by (symmetry; apply Z.ltb_ge; lia).
  replace (0 <=? Z.of_nat i)%Z with true by (symmetry; apply Z.leb_le; lia).
  replace (Z.of_nat i <? Z.of_nat (length params))%Z with true
    by (symmetry; apply Z.ltb_lt; lia).
  cbn [andb]. rewrite Nat2Z.id.
  now rewrite (nth_error_nth' params EmptyString Hi).
Qed.

Lemma binding_inside (params : list string) :
  forall theta i,
    i + length theta <= length params ->
    binding params i theta =
    Ok (combine (firstn (length theta) (skipn i params)) theta).
Proof.
  induction theta as [|v theta IH]; intros i Hlen; cbn [binding length].
  - reflexivity.
  - cbn [length] in Hlen.
    rewrite getitem_inside by lia. cbn [Py.bind].
    rewrite IH by lia. cbn [Py.bind].
    assert (Hskip : skipn i params
                    = nth i params EmptyString :: skipn (S i) params).
    { clear -Hlen. revert i Hlen.
      induction params as [|p params IHp]; intros i Hlen;
        cbn [length] in Hlen; [lia|].
      destruct i as [|i]; [reflexivity|].
      cbn [skipn nth]. apply IHp. lia. }
    rewrite Hskip. reflexivity.
Qed.

(** C10.  A parameter vector shorter than the number of parameters is
    accepted: [bind_parameters] returns, without raising, the circuit in
    which the first [len(theta)] parameters of [circuit.parameters] carry
    the values of [theta], and the parameters left in that circuit are the
    remaining ones. *)
Theorem short_theta_binds_a_prefix (self : Gene_Circuit) (theta : list Q) :
  length theta < num_parameters (circuit self) ->
  let params := parameters (circuit self) in
  let binded_circuit :=
    assign_parameters (combine (firstn (length theta) params) theta)
                      (circuit self) in
  bind_parameters self theta = Ok binded_circuit
  /\ parameters binded_circuit = skipn (length theta) params.
Proof.
  intros Hlen params binded_circuit. unfold num_parameters in Hlen.
  fold params in Hlen. split.
  - unfold bind_parameters. fold params.
    rewrite binding_inside by (cbn [Nat.add]; lia). reflexivity.
  - unfold binded_circuit, parameters at 1.
    rewrite unbound_assign, <- filter_nodup, <- filter_sorted_by_name.
    fold (parameters (circuit self)). fold params.
    rewrite (filter_ext _ (fun x => negb (mem x (firstn (length theta) params)))).
    + transitivity
        (filter (fun x => negb (mem x (firstn (length theta) params)))
                (firstn (length theta) params
                 ++ skipn (length theta) params)).
      * now rewrite firstn_skipn.
      * apply filter_not_mem_prefix. rewrite firstn_skipn.
        apply parameters_NoDup.
    + intros name. f_equal. apply is_key_combine.
      rewrite length_firstn. lia.
Qed.

Lemma short_theta_binds_a_prefix_witness :
  bind_parameters
    (mkGene_Circuit [[(1, 0); (3, 0); (1, 0)]]%Z 1
       [Rotation "rz" (Param "theta_0") 0; Fixed "h" 0;
        Rotation "rz" (Param "theta_1") 0] 2)
    [1 # 2]%Q
  = Ok [Rotation "rz" (Bound (1 # 2)) 0; Fixed "h" 0;
        Rotation "rz" (Param "theta_1") 0].
Proof.
  apply (short_theta_binds_a_prefix
           (mkGene_Circuit [[(1, 0); (3, 0); (1, 0)]]%Z 1
              [Rotation "rz" (Param "theta_0") 0; Fixed "h" 0;
               Rotation "rz" (Param "theta_1") 0] 2)
           [1 # 2]%Q).
  vm_compute. lia.
Defined.

(** ** Emission order and name order *)

Lemma unbound_app (c1 c2 : QuantumCircuit) :
  unbound (c1 ++ c2) = unbound c1 ++ unbound c2.
Proof.
  induction c1 as [|ins c1 IH]; [reflexivity|].
  destruct ins as [gate [name | v] qubit | |]; cbn [app unbound];
    now rewrite IH.
Qed.

Lemma theta_name_inj (a b : nat) : theta_name a = theta_name b -> a = b.
Proof.
  unfold theta_name, str. cbn [String.append]. intros H.
  injection H as H.
  apply DecimalNat.Unsigned.to_uint_inj.
  assert (Hsome : Some (Nat.to_uint a) = Some (Nat.to_uint b)).
  { rewrite <- !NilEmpty.usu. now rewrite H. }
  now injection Hsome.
Qed.

Lemma theta_names_NoDup (n : nat) : NoDup (map theta_name (seq 0 n)).
Proof.
  apply Injective_map_NoDup.
  - intros a b. apply theta_name_inj.
  - apply seq_NoDup.
Qed.

Lemma decode_cell_names (num_qubit : Z) (i : nat) (G_ij : cell)
    (st st' : nat * QuantumCircuit) :
  unbound (snd st) = map theta_name (seq 0 (fst st)) ->
  decode_cell num_qubit i G_ij st = Ok st' ->
  unbound (snd st') = map theta_name (seq 0 (fst st')).
Proof.
  destruct st as [theta_index c]. cbn [fst snd]. intros Hst H.
  apply decode_cell_step in H. destruct H as (new & -> & Hrz & Hother & _).
  cbn [fst snd]. rewrite unbound_app, Hst.
  destruct (is_rz G_ij).
  - rewrite (Hrz eq_refl). cbn [unbound]. now rewrite seq_S, map_app.
  - destruct (Hother eq_refl) as [-> | [(q & -> & _) | (gate & -> & _)]];
      cbn [unbound]; apply app_nil_r.
Qed.

Lemma decode_column_names (num_qubit : Z) :
  forall G_nj i st st',
    unbound (snd st) = map theta_name (seq 0 (fst st)) ->
    decode_column num_qubit i G_nj st = Ok st' ->
    unbound (snd st') = map theta_name (seq 0 (fst st')).
Proof.
  induction G_nj as [|G_ij rest IH]; intros i st st' Hst;
    cbn [decode_column].
  - intros H. now injection H as <-.
  - destruct (decode_cell num_qubit i G_ij st) as [st1|e] eqn:Hcell;
      cbn [Py.bind]; [|discriminate].
    apply IH. now apply (decode_cell_names num_qubit i G_ij st).
Qed.

Lemma decode_columns_names (num_qubit : Z) :
  forall columns st st',
    unbound (snd st) = map theta_name (seq 0 (fst st)) ->
    decode_columns num_qubit columns st = Ok st' ->
    unbound (snd st') = map theta_name (seq 0 (fst st')).
Proof.
  induction columns as [|G_nj rest IH]; intros st st' Hst;
    cbn [decode_columns].
  - intros H. now injection H as <-.
  - destruct (decode_column num_qubit 0 G_nj st) as [st1|e] eqn:Hcolumn;
      cbn [Py.bind]; [|discriminate].
    apply IH. now apply (decode_column_names num_qubit G_nj 0 st).
Qed.

Lemma generated_names (gene : gene_array) (num_qubit : Z)
    (circuit : QuantumCircuit) :
  generate_circuit_from_gene gene num_qubit = Ok circuit ->
  exists n, unbound circuit = map theta_name (seq 0 n).
Proof.
  intros H. apply generate_circuit_Ok in H.
  destruct H as (_ & _ & st & Hdecode & <-). exists (fst st).
  now apply (decode_columns_names num_qubit (swapaxes gene) (0, [])).
Qed.

Lemma few_names_sorted (n : nat) :
  n <= 10 ->
  sorted_by_name (nodup string_dec (map theta_name (seq 0 n)))
  = map theta_name (seq 0 n).
Proof.
  intros Hn.
  do 11 (destruct n as [|n]; [vm_compute; reflexivity|]).
  lia.
Qed.

Lemma assign_parameters_skip (name : string) (v : Q)
    (d : list (string * Q)) (circuit : QuantumCircuit) :
  ~ In name (unbound circuit) ->
  assign_parameters ((name, v) :: d) circuit = assign_parameters d circuit.
Proof.
  unfold assign_parameters.
  induction circuit as [|ins circuit IH]; intros Hout; [reflexivity|].
  cbn [map].
  destruct ins as [gate [name' | v'] qubit | |];
    cbn [unbound assign_instruction] in *;
    try (now rewrite IH).
  destruct (String.eqb name' name) eqn:Heq.
  - apply String.eqb_eq in Heq. subst name'.
    exfalso. apply Hout. now left.
  - cbn [lookup]. rewrite Heq.
    rewrite IH; [reflexivity|]. intros Hin. apply Hout. now right.
Qed.

Lemma assign_in_emission_order :
  forall (circuit : QuantumCircuit) (names : list string) (theta : list Q),
    unbound circuit = names ->
    NoDup names ->
    length theta = length names ->
    assign_parameters (combine names theta) circuit
    = bind_in_emission_order circuit theta.
Proof.
  intros circuit.
  induction circuit as [|ins circuit IH]; intros names theta Hnames Hnodup Hlen;
    [reflexivity|].
  destruct ins as [gate [name | v] qubit | |];
    cbn [unbound] in Hnames;
    try (unfold assign_parameters in *; cbn [map assign_instruction];
         cbn [bind_in_emission_order]; f_equal;
         now apply IH).
  subst names. destruct theta as [|v theta]; [discriminate|].
  cbn [combine]. unfold assign_parameters at 1.
  cbn [map assign_instruction lookup]. rewrite String.eqb_refl.
  cbn [bind_in_emission_order]. f_equal.
  inversion Hnodup as [|? ? Hout Hrest]; subst.
  fold (assign_parameters ((name, v) :: combine (unbound circuit) theta)
                          circuit).
  rewrite assign_parameters_skip by assumption.
  apply IH; [reflexivity | assumption | now injection Hlen].
Qed.

Lemma many_names_unsorted (n : nat) :
  10 < n -> ~ StronglySorted name_le (map theta_name (seq 0 n)).
Proof.
  intros Hn Hsorted.
  assert (Hsplit : seq 0 n = seq 0 3 ++ seq 3 (n - 3)).
  { rewrite <- seq_app. f_equal. lia. }
  rewrite Hsplit, map_app in Hsorted.
  apply StronglySorted_app_split in Hsorted. destruct Hsorted as [_ Hcross].
  assert (H : name_le (theta_name 2) (theta_name 10)).
  { apply Hcross; apply in_map, in_seq; lia. }
  vm_compute in H. discriminate H.
Qed.

Lemma lookup_combine_nth :
  forall (names : list string) (theta : list Q) (k : nat),
    NoDup names ->
    length names = length theta ->
    k < length names ->
    lookup (nth k names EmptyString) (combine names theta)
    = Some (nth k theta 0%Q).
Proof.
  induction names as [|name names IH]; intros [|v theta] k Hnodup Hlen Hk;
    cbn [length] in *; try lia.
  inversion Hnodup as [|? ? Hout Hrest]; subst.
  cbn [combine lookup]. destruct k as [|k]; cbn [nth].
  - now rewrite String.eqb_refl.
  - destruct (String.eqb (nth k names EmptyString) name) eqn:Heq.
    + apply String.eqb_eq in Heq. exfalso. apply Hout. rewrite <- Heq.
      apply nth_In. lia.
    + apply IH; [assumption | lia | lia].
Qed.

(** Two dictionaries that bind a circuit alike agree on its parameters. *)
Lemma assign_same_lookup (d1 d2 : list (string * Q)) :
  forall circuit,
    assign_parameters d1 circuit = assign_parameters d2 circuit ->
    forall name, In name (unbound circuit) -> lookup name d1 = lookup name d2.
Proof.
  unfold assign_parameters.
  intros circuit.
  induction circuit as [|ins circuit IH]; intros Heq name Hin;
    [destruct Hin|].
  cbn [map] in Heq. injection Heq as Hins Hrest.
  destruct ins as [gate [name' | v] qubit | |]; cbn [unbound] in Hin;
    try (now apply IH).
  destruct Hin as [-> | Hin]; [|now apply IH].
  cbn [assign_instruction] in Hins.
  destruct (lookup name d1), (lookup name d2); congruence.
Qed.

(** C7, as amended.  [bind_parameters] gives [theta[i]] to the [i]-th
    parameter of [circuit.parameters], which lists the parameters of the
    decoded circuit once each, sorted by name: the vector binds without
    ambiguity.  That order is the order of emission exactly when the circuit
    has at most ten parameters; then the binding is the one in emission
    order, and with more parameters it is another one for every vector of
    pairwise different entries. *)
Theorem theta_binds_in_name_order (gene : gene_array) (num_qubit : Z)
    (self : Gene_Circuit) (theta : list Q) :
  init gene num_qubit = Ok self ->
  length theta = gc_num_parameters self ->
  NoDup (parameters (circuit self))
  /\ Permutation (parameters (circuit self)) (unbound (circuit self))
  /\ StronglySorted name_le (parameters (circuit self))
  /\ bind_parameters self theta =
     Ok (assign_parameters (combine (parameters (circuit self)) theta)
                           (circuit self))
  /\ (parameters (circuit self) = unbound (circuit self)
      <-> gc_num_parameters self <= 10)
  /\ (gc_num_parameters self <= 10 ->
      bind_parameters self theta =
      Ok (bind_in_emission_order (circuit self) theta))
  /\ (10 < gc_num_parameters self ->
      distinct_angles theta ->
      bind_parameters self theta <>
      Ok (bind_in_emission_order (circuit self) theta)).
Proof.
  unfold init.
  destruct (generate_circuit_from_gene gene num_qubit) as [c|e] eqn:Hgen;
    cbn [Py.bind]; [|discriminate].
  intros H. injection H as <-. cbn [circuit gc_num_parameters].
  unfold transpile, num_parameters. intros Hlen.
  assert (Hbind : bind_parameters
                    (mkGene_Circuit gene num_qubit c (length (parameters c)))
                    theta
                  = Ok (assign_parameters (combine (parameters c) theta) c)).
  { unfold bind_parameters. cbn [circuit].
    rewrite binding_inside by (cbn [Nat.add]; lia). cbn [Py.bind skipn].
    now rewrite Hlen, firstn_all. }
  destruct (generated_names gene num_qubit c Hgen) as [n Hnames].
  assert (Hperm : Permutation (parameters c) (unbound c)).
  { unfold parameters.
    rewrite Hnames, (nodup_fixed_point string_dec (theta_names_NoDup n)).
    apply sorted_by_name_Permutation. }
  assert (Hn : length (parameters c) = n).
  { rewrite (Permutation_length Hperm), Hnames.
    now rewrite length_map, length_seq. }
  assert (Hfew : n <= 10 -> parameters c = unbound c).
  { intros Hle. unfold parameters. rewrite Hnames.
    now apply few_names_sorted. }
  assert (Hmany : 10 < n -> parameters c <> unbound c).
  { intros Hlt Heq. apply (many_names_unsorted n Hlt).
    rewrite <- Hnames, <- Heq. apply sorted_by_name_StronglySorted. }
  assert (Hemission : assign_parameters (combine (unbound c) theta) c
                      = bind_in_emission_order c theta).
  { apply assign_in_emission_order.
    - reflexivity.
    - rewrite Hnames. apply theta_names_NoDup.
    - now rewrite Hlen, (Permutation_length Hperm). }
  split; [apply parameters_NoDup|].
  split; [exact Hperm|].
  split; [apply sorted_by_name_StronglySorted|].
  split; [exact Hbind|].
  split.
  { split; [|intros Hle; apply Hfew; lia].
    intros Heq. destruct (le_lt_dec (length (parameters c)) 10)
      as [Hle | Hlt]; [assumption|].
    elim Hmany; [lia | assumption]. }
  split.
  { intros Hle. rewrite Hbind, Hfew by lia. now rewrite Hemission. }
  intros Hlt Hdistinct Heq. apply Hmany; [lia|].
  rewrite Hbind in Heq. injection Heq as Heq. rewrite <- Hemission in Heq.
  pose proof (assign_same_lookup _ _ c Heq) as Hlookup.
  apply (nth_ext _ _ EmptyString EmptyString).
  { apply (Permutation_length Hperm). }
  intros k Hk.
  assert (Hin : In (nth k (parameters c) EmptyString) (unbound c)).
  { apply (Permutation_in _ Hperm). now apply nth_In. }
  destruct (In_nth _ _ EmptyString Hin) as (j & Hj & Hnth).
  specialize (Hlookup _ Hin).
  rewrite lookup_combine_nth in Hlookup;
    [|apply parameters_NoDup | lia | assumption].
  rewrite <- Hnth in Hlookup.
  rewrite lookup_combine_nth in Hlookup;
    [|rewrite Hnames; apply theta_names_NoDup
     |rewrite Hlen; apply Permutation_length; now symmetry
     |assumption].
  injection Hlookup as Hsame.
  assert (Hkj : k = j).
  { apply Hdistinct.
    - lia.
    - rewrite Hlen, Hn, <- (Permutation_length Hperm), Hn in *. lia.
    - now rewrite Hsame. }
  now subst j.
Qed.

Lemma theta_binds_in_name_order_witness :
  bind_parameters
    (mkGene_Circuit [[(1, 0); (3, 0); (1, 0)]]%Z 1
       [Rotation "rz" (Param "theta_0") 0; Fixed "h" 0;
        Rotation "rz" (Param "theta_1") 0] 2)
    [1 # 2; 1 # 3]%Q
  = Ok [Rotation "rz" (Bound (1 # 2)) 0; Fixed "h" 0;
        Rotation "rz" (Bound (1 # 3)) 0].
Proof.
  destruct (theta_binds_in_name_order [[(1, 0); (3, 0); (1, 0)]]%Z 1
              (mkGene_Circuit [[(1, 0); (3, 0); (1, 0)]]%Z 1
                 [Rotation "rz" (Param "theta_0") 0; Fixed "h" 0;
                  Rotation "rz" (Param "theta_1") 0] 2)
              [1 # 2; 1 # 3]%Q) as (_ & _ & _ & _ & _ & Hemission & _).
  - vm_compute. reflexivity.
  - reflexivity.
  - apply Hemission. cbn [gc_num_parameters]. lia.
Defined.

(** C7 as stated fails from eleven parameters on: the names sort as
    theta_0, theta_1, theta_10, theta_2, ..., so [theta[2]] goes to the
    rotation emitted last and [theta[3]] to the one emitted third. *)
Lemma eleven_parameters_bind_by_name :
  exists self,
    init eleven_rz 1 = Ok self
    /\ gc_num_parameters self = 11
    /\ length zero_to_ten = 11
    /\ nth 2 (parameters (circuit self)) EmptyString = "theta_10"%string
    /\ (forall c, bind_parameters self zero_to_ten = Ok c ->
                  nth 2 c (Fixed "" 0) = Rotation "rz" (Bound (3 # 1)) 0
                  /\ nth 10 c (Fixed "" 0) = Rotation "rz" (Bound (2 # 1)) 0)
    /\ bind_parameters self zero_to_ten
       <> Ok (bind_in_emission_order (circuit self) zero_to_ten).
Proof.
  eexists. split; [vm_compute; reflexivity|].
  split; [vm_compute; reflexivity|].
  split; [reflexivity|].
  split; [vm_compute; reflexivity|].
  split.
  - intros c H. vm_compute in H. injection H as <-.
    split; reflexivity.
  - vm_compute. intros H. discriminate H.
Qed.

(** ** Evaluating a circuit without parameters *)

Lemma assign_parameters_nil (circuit : QuantumCircuit) :
  assign_parameters [] circuit = circuit.
Proof.
  unfold assign_parameters.
  induction circuit as [|ins circuit IH]; [reflexivity|].
  cbn [map]. rewrite IH.
  now destruct ins as [gate [name | v] qubit | |].
Qed.

(** C6, as amended.  For a gene without parameters the evaluator draws no
    random number and still calls the optimizer, once, on the empty vector;
    the fidelity it returns is computed on the circuit bound to the vector
    that the optimizer hands back, and an error of the optimizer is an error
    of the evaluator.  When the optimizer hands back the empty vector, that
    fidelity is the one of the unparametrized circuit. *)
Theorem zero_parameters_still_optimized
    (simulate : QuantumCircuit -> list complex)
    (minimize : (list Q -> result Q) -> list Q -> result (list Q))
    (circuit_depth : QuantumCircuit -> nat)
    (Gene : Gene_Circuit) (target : list complex) (tape : list Z) :
  gc_num_parameters Gene = 0 ->
  get_optimized_fidelity simulate minimize circuit_depth Gene target tape
  = Returns
      (mkTraced [Minimize []]
         (let? x := minimize (loss simulate Gene target) [] in
          let? sv := statevector simulate Gene x in
          let? fidelity := get_fidelity sv target in
          Ok (fidelity, circuit_depth (circuit Gene), x)))
      tape
  /\ (minimize (loss simulate Gene target) [] = Ok [] ->
      get_optimized_fidelity simulate minimize circuit_depth Gene target tape
      = Returns
          (mkTraced [Minimize []]
             (let? fidelity :=
                get_fidelity (simulate (circuit Gene)) target in
              Ok (fidelity, circuit_depth (circuit Gene), [])))
          tape).
Proof.
  intros Hzero. unfold get_optimized_fidelity, optimize_from.
  rewrite Hzero. cbn [rand_n]. unfold GA.bind, ret. split; [reflexivity|].
  intros ->. cbn [Py.bind]. unfold statevector, bind_parameters.
  cbn [binding Py.bind]. now rewrite assign_parameters_nil.
Qed.

Lemma zero_parameters_still_optimized_witness :
  exists fidelity,
    get_optimized_fidelity (fun _ => ground_state) (fun _ x0 => Ok x0)
      (fun c => length c)
      (mkGene_Circuit all_empty 3 [] 0) target_statevector [5%Z]
    = Returns (mkTraced [Minimize []] (Ok (fidelity, 0, []))) [5%Z]
    /\ (fidelity == 49 # 100)%Q.
Proof.
  destruct (zero_parameters_still_optimized
              (fun _ => ground_state) (fun _ x0 => Ok x0)
              (fun c => length c)
              (mkGene_Circuit all_empty 3 [] 0) target_statevector [5%Z])
    as [Hrun _].
  - reflexivity.
  - eexists. split.
    + rewrite Hrun. vm_compute. reflexivity.
    + vm_compute. reflexivity.
Defined.

(** C6 as stated fails: the gene of empty cells decodes to a circuit
    without parameters, and every evaluation of it calls the optimizer on
    the empty vector; with an optimizer that rejects such a vector the
    evaluation fails. *)
Lemma optimizer_called_without_parameters :
  exists Gene,
    init all_empty 3 = Ok Gene
    /\ gc_num_parameters Gene = 0
    /\ (forall simulate minimize circuit_depth tape,
           exists run,
             get_optimized_fidelity simulate minimize circuit_depth Gene
               target_statevector tape = Returns run tape
             /\ events run = [Minimize []])
    /\ (forall simulate circuit_depth tape,
           exists run,
             get_optimized_fidelity simulate (fun _ _ => Err ValueError)
               circuit_depth Gene target_statevector tape = Returns run tape
             /\ value run = Err ValueError).
Proof.
  eexists. split; [vm_compute; reflexivity|].
  split; [reflexivity|]. split.
  - intros simulate minimize circuit_depth tape.
    eexists. split; reflexivity.
  - intros simulate circuit_depth tape.
    eexists. split; reflexivity.
Qed.

(** ** The size of the next population *)

Lemma setitem_length {A : Type} (a : list A) (k : nat) (v : A) :
  k < length a -> length (setitem a k v) = length a.
Proof.
  intros Hk. unfold setitem.
  rewrite length_app, length_firstn. cbn [length].
  rewrite length_skipn. lia.
Qed.

Lemma setslice_length {A : Type} (a : list A) (start : nat) (rows : list A) :
  start + length rows <= length a ->
  length (setslice a start rows) = length a.
Proof.
  intros Hfit. unfold setslice.
  rewrite !length_app, length_firstn, length_skipn. lia.
Qed.

Lemma reshape_length (rows length_gene : nat) (flat : list Z) :
  length (reshape rows length_gene flat) = rows.
Proof.
  revert flat. induction rows as [|rows IH]; intros flat; cbn [reshape length].
  - reflexivity.
  - now rewrite IH.
Qed.

Lemma children_length (length_gene : nat) (parent_gene : list (list Z))
    (n : Z) :
  forall js child_gene tape child_gene' rest,
    (forall j, In j js -> j < length child_gene) ->
    children length_gene js parent_gene n child_gene tape
    = Returns child_gene' rest ->
    length child_gene' = length child_gene.
Proof.
  induction js as [|j js IH]; intros child_gene tape child_gene' rest Hjs;
    cbn [children].
  - unfold ret. intros H. now injection H as <- _.
  - intros H.
    apply bind_Returns in H. destruct H as (row & t0 & _ & H).
    apply bind_Returns in H. destruct H as (row' & t1 & _ & H).
    apply IH in H.
    + rewrite H. apply setitem_length, Hjs. now left.
    + intros j' Hj'. rewrite setitem_length by (apply Hjs; now left).
      apply Hjs. now right.
Qed.

Lemma elite_index_length (argsort : list nat -> list nat)
    (result : list evaluation) :
  length (elite_index argsort result) <= 10.
Proof.
  rewrite elite_index_unfold, elite_loop_firstn by (cbn; lia).
  cbn [app length]. rewrite length_firstn. lia.
Qed.

(** Whenever the step returns a population, it has [num_genes] genes. *)
Lemma advance_returns_num_genes (argsort : list nat -> list nat)
    (random_gene : list (list Z)) (result : list evaluation)
    (tape : list Z) (next : list (list Z)) (rest : list Z) :
  advance argsort num_genes length_gene random_gene result tape
  = Returns next rest ->
  length next = num_genes.
Proof.
  unfold advance. intros H.
  assert (Hn : num_genes = 20) by reflexivity.
  assert (Hquota : num_genes / 10 = 2) by reflexivity.
  set (quota := num_genes / 10) in *. clearbody quota.
  set (n := num_genes) in *. clearbody n.
  apply bind_Returns in H. destruct H as (child_gene & t0 & Hchildren & H).
  apply bind_Returns in H. destruct H as (flat & t1 & _ & H).
  pose proof (reshape_length quota length_gene flat) as Hfresh.
  set (fresh_rows := reshape quota length_gene flat) in *.
  clearbody fresh_rows.
  set (elite_rows := take [] random_gene (elite_index argsort result)) in *.
  assert (Hrows : length elite_rows = length (elite_index argsort result))
    by (unfold elite_rows, take; apply length_map).
  clearbody elite_rows.
  pose proof (elite_index_length argsort result) as Helite.
  apply children_length in Hchildren.
  - rewrite repeat_length in Hchildren.
    unfold ret in H. injection H as <- _.
    assert (Hinner : length (setslice child_gene (n - quota) fresh_rows) = n)
      by (rewrite setslice_length; lia).
    rewrite setslice_length; lia.
  - intros j Hj. apply in_seq in Hj. rewrite repeat_length. lia.
Qed.

(** With eight elites the step does return on a tape that is long enough. *)
Lemma advance_can_return :
  exists next rest,
    advance stable_argsort num_genes length_gene some_population
            scenario_result
            (map (fun k => (Z.of_nat k * 1234567890123457)%Z) (seq 0 700))
    = Returns next rest
    /\ length next = num_genes.
Proof.
  eexists. eexists. split.
  - vm_compute. reflexivity.
  - reflexivity.
Qed.

(** ** More on decoding: the shape of the decoded circuit *)

Lemma concat_all_nil {A : Type} (l : list nat) :
  concat (map (fun _ => @nil A) l) = [].
Proof. induction l as [|x l IH]; [reflexivity | exact IH]. Qed.

Lemma concat_heads_tails {A : Type} (f : nat -> A) (h : nat -> list A) :
  forall l,
    Permutation (concat (map (fun j => f j :: h j) l))
                (map f l ++ concat (map h l)).
Proof.
  induction l as [|a l IH]; cbn [map concat app].
  - constructor.
  - constructor.
    transitivity (h a ++ map f l ++ concat (map h l)).
    + now apply Permutation_app_head.
    + apply Permutation_app_swap_app.
Qed.

Lemma map_nth_seq_row {A : Type} (d : A) :
  forall row, map (fun j => nth j row d) (seq 0 (length row)) = row.
Proof.
  induction row as [|a row IH]; [reflexivity|].
  cbn [length seq map nth]. f_equal.
  rewrite <- seq_shift, map_map. exact IH.
Qed.

Lemma columns_of_Permutation (L : nat) :
  forall gene,
    Forall (fun row => length row = L) gene ->
    Permutation (concat (columns_of L gene)) (concat gene).
Proof.
  unfold columns_of. intros gene.
  induction gene as [|row rest IH]; intros Hrows.
  - cbn [map]. rewrite concat_all_nil. constructor.
  - inversion Hrows as [|? ? Hrow Hrest]; subst.
    cbn [map concat].
    etransitivity;
      [apply (concat_heads_tails
                (fun j => nth j row (0%Z, 0%Z))
                (fun j => map (fun r => nth j r (0%Z, 0%Z)) rest))|].
    rewrite map_nth_seq_row. apply Permutation_app_head. now apply IH.
Qed.

Lemma swapaxes_Permutation (gene : gene_array) :
  rectangular gene -> Permutation (concat (swapaxes gene)) (concat gene).
Proof.
  intros Hrect. rewrite swapaxes_columns_of.
  now apply columns_of_Permutation.
Qed.

Lemma decode_cell_added (num_qubit : Z) (i : nat) (G_ij : cell)
    (theta_index : nat) (c : QuantumCircuit) (st' : nat * QuantumCircuit) :
  decode_cell num_qubit i G_ij (theta_index, c) = Ok st' ->
  exists new,
    st' = (theta_index + count_rz [G_ij], c ++ new)
    /\ length new <= 1
    /\ Forall (fun ins => target_of ins = i /\ emitted_gate ins) new
    /\ unbound new = map theta_name (seq theta_index (count_rz [G_ij]))
    /\ (is_empty G_ij = true -> new = []).
Proof.
  intros H. apply decode_cell_step in H.
  destruct H as (new & -> & Hrz & Hother & Hempty).
  exists new. unfold count_rz. cbn [filter].
  destruct (is_rz G_ij); cbn [length].
  - pose proof (Hrz eq_refl) as Hnew.
    split; [f_equal; lia|]. split; [rewrite Hnew; cbn [length]; lia|].
    split; [rewrite Hnew; repeat constructor|].
    split; [rewrite Hnew; reflexivity|].
    intros He. specialize (Hempty He). congruence.
  - rewrite Nat.add_0_r. split; [reflexivity|].
    destruct (Hother eq_refl)
      as [Hnew | [(control & Hnew & _) | (gate & Hnew & Hg)]];
      rewrite Hnew; cbn [length unbound seq map];
      (split; [lia|]);
      (split;
       [first
          [ apply Forall_nil
          | apply Forall_cons;
            [ split;
              [reflexivity
              | cbn [emitted_gate]; first [exact I | assumption] ]
            | apply Forall_nil ] ]|]);
      (split; [reflexivity|]);
      intros He; specialize (Hempty He); congruence.
Qed.

Lemma decode_column_added (num_qubit : Z) :
  forall G_nj i theta_index c st',
    decode_column num_qubit i G_nj (theta_index, c) = Ok st' ->
    exists new,
      st' = (theta_index + count_rz G_nj, c ++ new)
      /\ length new <= length G_nj
      /\ Forall (fun ins => target_of ins < i + length G_nj
                            /\ emitted_gate ins) new
      /\ unbound new = map theta_name (seq theta_index (count_rz G_nj))
      /\ (forallb is_empty G_nj = true -> new = []).
Proof.
  induction G_nj as [|G_ij rest IH]; intros i theta_index c st';
    cbn [decode_column].
  - intros H. injection H as <-. exists [].
    rewrite app_nil_r, Nat.add_0_r. repeat split; auto.
  - destruct (decode_cell num_qubit i G_ij (theta_index, c)) as [st1|e]
      eqn:Hcell; cbn [Py.bind]; [|discriminate].
    apply decode_cell_added in Hcell.
    destruct Hcell as (new1 & -> & Hlen1 & Hall1 & Hnames1 & Hempty1).
    intros H. apply IH in H.
    destruct H as (new2 & -> & Hlen2 & Hall2 & Hnames2 & Hempty2).
    exists (new1 ++ new2).
    assert (Hcount : count_rz (G_ij :: rest)
                     = count_rz [G_ij] + count_rz rest).
    { unfold count_rz. cbn [filter]. now destruct (is_rz G_ij). }
    split; [rewrite Hcount, app_assoc; f_equal; lia|].
    split; [rewrite length_app; cbn [length]; lia|].
    split.
    { apply Forall_app. split.
      - eapply Forall_impl; [|exact Hall1].
        cbn [length]. intros ins [-> Hg]. split; [lia | assumption].
      - eapply Forall_impl; [|exact Hall2].
        cbn [length]. intros ins [Ht Hg]. split; [lia | assumption]. }
    split.
    { rewrite unbound_app, Hnames1, Hnames2, Hcount, seq_app, map_app.
      reflexivity. }
    cbn [forallb]. intros He. apply andb_prop in He. destruct He as [He1 He2].
    now rewrite (Hempty1 He1), (Hempty2 He2).
Qed.

Lemma decode_columns_added (num_qubit : Z) (rows : nat) :
  forall columns theta_index c st',
    (forall G_nj, In G_nj columns -> length G_nj <= rows) ->
    decode_columns num_qubit columns (theta_index, c) = Ok st' ->
    exists new,
      st' = (theta_index + count_rz (concat columns), c ++ new)
      /\ length new <= length (concat columns)
      /\ Forall (fun ins => target_of ins < rows /\ emitted_gate ins) new
      /\ unbound new
         = map theta_name (seq theta_index (count_rz (concat columns)))
      /\ (forallb is_empty (concat columns) = true -> new = []).
Proof.
  induction columns as [|G_nj rest IH]; intros theta_index c st' Hrows;
    cbn [decode_columns concat].
  - intros H. injection H as <-. exists [].
    rewrite app_nil_r, Nat.add_0_r. repeat split; auto.
  - destruct (decode_column num_qubit 0 G_nj (theta_index, c)) as [st1|e]
      eqn:Hcolumn; cbn [Py.bind]; [|discriminate].
    apply decode_column_added in Hcolumn.
    destruct Hcolumn as (new1 & -> & Hlen1 & Hall1 & Hnames1 & Hempty1).
    intros H. apply IH in H; [|intros col Hcol; apply Hrows; now right].
    destruct H as (new2 & -> & Hlen2 & Hall2 & Hnames2 & Hempty2).
    exists (new1 ++ new2).
    assert (Hcount : count_rz (G_nj ++ concat rest)
                     = count_rz G_nj + count_rz (concat rest)).
    { unfold count_rz. now rewrite filter_app, length_app. }
    split; [rewrite Hcount, app_assoc; f_equal; lia|].
    split; [rewrite !length_app; lia|].
    split.
    { apply Forall_app. split; [|assumption].
      eapply Forall_impl; [|exact Hall1].
      intros ins [Ht Hg]. split; [|assumption].
      pose proof (Hrows G_nj (or_introl eq_refl)). lia. }
    split.
    { rewrite unbound_app, Hnames1, Hnames2, Hcount, seq_app, map_app.
      reflexivity. }
    rewrite forallb_app. intros He. apply andb_prop in He.
    destruct He as [He1 He2].
    now rewrite (Hempty1 He1), (Hempty2 He2).
Qed.

(** What the decoder returns for a gene, in one statement. *)
Lemma generate_circuit_added (gene : gene_array) (num_qubit : Z)
    (c : QuantumCircuit) :
  generate_circuit_from_gene gene num_qubit = Ok c ->
  length c <= length (concat (swapaxes gene))
  /\ Forall (fun ins => target_of ins < length gene /\ emitted_gate ins) c
  /\ unbound c
     = map theta_name (seq 0 (count_rz (concat (swapaxes gene))))
  /\ (forallb is_empty (concat (swapaxes gene)) = true -> c = []).
Proof.
  intros H. apply generate_circuit_Ok in H.
  destruct H as (_ & _ & st & Hdecode & <-).
  apply (decode_columns_added num_qubit (length gene)) in Hdecode.
  - destruct Hdecode as (new & -> & Hlen & Hall & Hnames & Hempty).
    cbn [snd app]. auto.
  - intros G_nj Hin. now rewrite (swapaxes_column_length gene G_nj Hin).
Qed.

(** X1.  Every instruction of a decoded circuit acts on a qubit whose index is
    below the number of rows of the gene. *)
Theorem decoded_targets_below_rows (gene : gene_array) (num_qubit : Z)
    (c : QuantumCircuit) :
  generate_circuit_from_gene gene num_qubit = Ok c ->
  forall ins, In ins c -> target_of ins < length gene.
Proof.
  intros H ins Hin. apply generate_circuit_added in H.
  destruct H as (_ & Hall & _). rewrite Forall_forall in Hall.
  now apply Hall.
Qed.

Lemma decoded_targets_below_rows_witness :
  target_of (Fixed "sx" 3) < 4.
Proof.
  apply (decoded_targets_below_rows
           [[(0, 5); (4, 0); (1, 3); (2, 4)];
            [(0, 0); (0, 0); (0, 0); (0, 0)];
            [(4, 1); (0, 0); (4, 0); (4, 3)];
            [(5, 2); (0, 0); (4, 3); (4, 4)]]%Z 4
           [Fixed "x" 2; Fixed "sx" 3; Fixed "x" 0;
            Rotation "rz" (Param "theta_0") 0; Fixed "x" 2; Fixed "x" 3;
            Fixed "x" 2; Fixed "x" 3]).
  - vm_compute. reflexivity.
  - cbn. auto.
Defined.

(** X2.  The decoder emits nothing but [rz] on a named parameter, [cx], [h], [x]
    and [sx]: the [rx] and [ry] of its second branch are never reached, and
    no rotation leaves it with a number for an angle. *)
Theorem decoded_gates_in_alphabet (gene : gene_array) (num_qubit : Z)
    (c : QuantumCircuit) :
  generate_circuit_from_gene gene num_qubit = Ok c ->
  Forall emitted_gate c.
Proof.
  intros H. apply generate_circuit_added in H.
  destruct H as (_ & Hall & _).
  eapply Forall_impl; [|exact Hall]. now intros ins [_ Hg].
Qed.

Lemma decoded_gates_in_alphabet_witness :
  Forall emitted_gate
    [Fixed "x" 2; Fixed "sx" 3; Fixed "x" 0;
     Rotation "rz" (Param "theta_0") 0; Fixed "x" 2; Fixed "x" 3;
     Fixed "x" 2; Fixed "x" 3].
Proof.
  apply (decoded_gates_in_alphabet
           [[(0, 5); (4, 0); (1, 3); (2, 4)];
            [(0, 0); (0, 0); (0, 0); (0, 0)];
            [(4, 1); (0, 0); (4, 0); (4, 3)];
            [(5, 2); (0, 0); (4, 3); (4, 4)]]%Z 4).
  vm_compute. reflexivity.
Defined.

Lemma count_rz_swapaxes (gene : gene_array) :
  rectangular gene ->
  count_rz (concat (swapaxes gene)) = count_rz (concat gene).
Proof.
  intros Hrect. unfold count_rz.
  apply Permutation_length, Permutation_filter_same.
  now apply swapaxes_Permutation.
Qed.

Lemma init_counts_rotation_cells (gene : gene_array) (num_qubit : Z)
    (self : Gene_Circuit) :
  rectangular gene ->
  init gene num_qubit = Ok self ->
  gc_num_parameters self = count_rz (concat gene)
  /\ unbound (circuit self)
     = map theta_name (seq 0 (count_rz (concat gene))).
Proof.
  intros Hrect. unfold init.
  destruct (generate_circuit_from_gene gene num_qubit) as [c|e] eqn:Hgen;
    cbn [Py.bind]; [|discriminate].
  intros H. injection H as <-. cbn [circuit gc_num_parameters].
  unfold transpile.
  apply generate_circuit_added in Hgen.
  destruct Hgen as (_ & _ & Hnames & _).
  rewrite count_rz_swapaxes in Hnames by assumption.
  split; [|assumption].
  unfold num_parameters, parameters.
  rewrite (Permutation_length (sorted_by_name_Permutation _)).
  rewrite Hnames, (nodup_fixed_point string_dec (theta_names_NoDup _)).
  now rewrite length_map, length_seq.
Qed.

(** X3.  The circuit built from a gene has as many parameters as the gene has
    rotation cells, and they are named theta_0, theta_1, ... in the order in
    which the rotations were emitted. *)
Theorem parameters_count_rotation_cells (gene : gene_array) (num_qubit : Z)
    (self : Gene_Circuit) :
  rectangular gene ->
  init gene num_qubit = Ok self ->
  gc_num_parameters self = count_rz (concat gene)
  /\ unbound (circuit self)
     = map theta_name (seq 0 (count_rz (concat gene))).
Proof.
  apply init_counts_rotation_cells.
Qed.

Lemma parameters_count_rotation_cells_witness :
  gc_num_parameters
    (mkGene_Circuit [[(1, 0); (3, 0); (1, 0)]]%Z 1
       [Rotation "rz" (Param "theta_0") 0; Fixed "h" 0;
        Rotation "rz" (Param "theta_1") 0] 2)
  = count_rz (concat [[(1, 0); (3, 0); (1, 0)]]%Z).
Proof.
  apply (parameters_count_rotation_cells [[(1, 0); (3, 0); (1, 0)]]%Z 1).
  - repeat constructor.
  - vm_compute. reflexivity.
Defined.

(** X4.  A cell yields at most one instruction: the circuit is never longer than
    the gene has cells. *)
Theorem circuit_no_longer_than_gene (gene : gene_array) (num_qubit : Z)
    (c : QuantumCircuit) :
  rectangular gene ->
  generate_circuit_from_gene gene num_qubit = Ok c ->
  length c <= length (concat gene).
Proof.
  intros Hrect H. apply generate_circuit_added in H.
  destruct H as (Hlen & _).
  now rewrite (Permutation_length (swapaxes_Permutation gene Hrect)) in Hlen.
Qed.

Lemma circuit_no_longer_than_gene_witness :
  length [Rotation "rz" (Param "theta_0") 0; Fixed "h" 0;
          Rotation "rz" (Param "theta_1") 0]
  <= length (concat [[(1, 0); (3, 0); (1, 0); (2, 0)]]%Z).
Proof.
  apply (circuit_no_longer_than_gene [[(1, 0); (3, 0); (1, 0); (2, 0)]]%Z 1).
  - repeat constructor.
  - vm_compute. reflexivity.
Defined.

Lemma decode_cell_empty (num_qubit : Z) (i : nat) (G_ij : cell)
    (st : nat * QuantumCircuit) :
  is_empty G_ij = true -> decode_cell num_qubit i G_ij st = Ok st.
Proof.
  intros He. destruct st as [theta_index c].
  rewrite decode_cell_by_kind; [now rewrite He|].
  unfold is_empty in He. apply orb_prop in He.
  destruct He as [He | He]; apply Z.eqb_eq in He; now rewrite He.
Qed.

Lemma decode_column_empty (num_qubit : Z) :
  forall G_nj i st,
    (forall G_ij, In G_ij G_nj -> is_empty G_ij = true) ->
    decode_column num_qubit i G_nj st = Ok st.
Proof.
  induction G_nj as [|G_ij rest IH]; intros i st Hempty; [reflexivity|].
  cbn [decode_column].
  rewrite decode_cell_empty by (apply Hempty; now left).
  cbn [Py.bind]. apply IH. intros G Hin. apply Hempty. now right.
Qed.

Lemma decode_columns_empty (num_qubit : Z) :
  forall columns st,
    (forall G_ij, In G_ij (concat columns) -> is_empty G_ij = true) ->
    decode_columns num_qubit columns st = Ok st.
Proof.
  induction columns as [|G_nj rest IH]; intros st Hempty; [reflexivity|].
  cbn [decode_columns]. cbn [concat] in Hempty.
  rewrite decode_column_empty
    by (intros G Hin; apply Hempty, in_or_app; now left).
  cbn [Py.bind]. apply IH. intros G Hin. apply Hempty, in_or_app. now right.
Qed.

(** X5.  A gene all of whose cells are [empty] (gate code 0, or -6) and whose
    rows have one length decodes, for a circuit of [num_qubit >= 0] qubits,
    to the circuit without operations, whatever the number of its rows and
    the control fields. *)
Theorem empty_gene_decodes_to_nothing (gene : gene_array) (num_qubit : Z) :
  (0 <= num_qubit)%Z ->
  rectangular gene ->
  (forall G_ij, In G_ij (concat gene) -> is_empty G_ij = true) ->
  generate_circuit_from_gene gene num_qubit = Ok [].
Proof.
  intros Hn Hrect Hempty.
  rewrite generate_circuit_unfold by assumption.
  rewrite decode_columns_empty; [reflexivity|].
  intros G_ij Hin. apply In_swapaxes in Hin.
  destruct Hin as [Hin | ->]; [now apply Hempty | reflexivity].
Qed.

Lemma empty_gene_decodes_to_nothing_witness :
  generate_circuit_from_gene [[(0, 2); (-6, 1)]; [(0, 0); (0, 7)]]%Z 1
  = Ok [].
Proof.
  apply (empty_gene_decodes_to_nothing
           [[(0, 2); (-6, 1)]; [(0, 0); (0, 7)]]%Z 1).
  - lia.
  - repeat constructor.
  - intros G_ij Hin. cbn in Hin.
    destruct Hin as [<- | [<- | [<- | [<- | []]]]]; reflexivity.
Defined.

(** ** Decoded instructions and the qubits of the circuit *)

Lemma append_gate_row (num_qubit : Z) (c c' : QuantumCircuit)
    (ins : instruction) (q : nat) :
  append_gate num_qubit c ins q = Ok c' -> (Z.of_nat q < num_qubit)%Z.
Proof.
  unfold append_gate.
  destruct (qubit_index num_qubit (Z.of_nat q)) as [r|e] eqn:Hq;
    cbn [Py.bind]; [|discriminate].
  intros _. pose proof (qubit_index_Ok _ _ _ Hq) as Hr.
  rewrite (qubit_index_row _ _ _ Hq) in Hr. lia.
Qed.

Lemma append_cx_row (num_qubit : Z) (c c' : QuantumCircuit) (control : Z)
    (target : nat) :
  append_cx num_qubit c control target = Ok c' ->
  (Z.of_nat target < num_qubit)%Z.
Proof.
  unfold append_cx.
  destruct (qubit_index num_qubit control) as [q|e]; cbn [Py.bind];
    [|discriminate].
  destruct (qubit_index num_qubit (Z.of_nat target)) as [t|e] eqn:Ht;
    cbn [Py.bind]; [|discriminate].
  intros _. pose proof (qubit_index_Ok _ _ _ Ht) as Hr.
  rewrite (qubit_index_row _ _ _ Ht) in Hr. lia.
Qed.

(** A cell that changes the circuit is in a row that the circuit has. *)
Lemma decode_cell_row (num_qubit : Z) (i : nat) (G_ij : cell)
    (theta_index : nat) (c : QuantumCircuit) (st' : nat * QuantumCircuit) :
  decode_cell num_qubit i G_ij (theta_index, c) = Ok st' ->
  snd st' = c \/ (Z.of_nat i < num_qubit)%Z.
Proof.
  destruct (unreadable (fst G_ij)) eqn:Hcode;
    [now rewrite decode_cell_unreadable|].
  rewrite decode_cell_by_kind by assumption.
  destruct (is_empty G_ij) eqn:He.
  { intros H. injection H as <-. now left. }
  destruct (is_rz G_ij) eqn:Hrz.
  { destruct (append_gate _ _ _ _) as [c'|e] eqn:Hcall; cbn [Py.bind];
      [|discriminate].
    intros _. right. now apply append_gate_row in Hcall. }
  destruct (is_cx G_ij) eqn:Hcx.
  { cbv zeta. destruct (_ =? _)%Z.
    { intros H. injection H as <-. now left. }
    destruct (append_cx _ _ _ _) as [c'|e] eqn:Hcall; cbn [Py.bind];
      [|discriminate].
    intros _. right. now apply append_cx_row in Hcall. }
  destruct (fixed_gate_codes G_ij Hcode He Hrz Hcx) as (gate & -> & _).
  cbn [Py.bind].
  destruct (append_gate _ _ _ _) as [c'|e] eqn:Hcall; cbn [Py.bind];
    [|discriminate].
  intros _. right. now apply append_gate_row in Hcall.
Qed.

Lemma decode_cell_qubits (num_qubit : Z) (i : nat) (G_ij : cell)
    (st st' : nat * QuantumCircuit) :
  Forall (on_a_qubit num_qubit) (snd st) ->
  decode_cell num_qubit i G_ij st = Ok st' ->
  Forall (on_a_qubit num_qubit) (snd st').
Proof.
  destruct st as [theta_index c]. cbn [snd]. intros Hst H.
  destruct (decode_cell_row _ _ _ _ _ _ H) as [-> | Hi]; [assumption|].
  apply decode_cell_added in H.
  destruct H as (new & -> & _ & Hnew & _). cbn [snd].
  apply Forall_app. split; [assumption|].
  eapply Forall_impl; [|exact Hnew].
  intros ins [Htarget _]. unfold on_a_qubit. now rewrite Htarget.
Qed.

Lemma decode_column_qubits (num_qubit : Z) :
  forall G_nj i st st',
    Forall (on_a_qubit num_qubit) (snd st) ->
    decode_column num_qubit i G_nj st = Ok st' ->
    Forall (on_a_qubit num_qubit) (snd st').
Proof.
  induction G_nj as [|G_ij rest IH]; intros i st st' Hst;
    cbn [decode_column].
  - intros H. now injection H as <-.
  - destruct (decode_cell num_qubit i G_ij st) as [st1|e] eqn:Hcell;
      cbn [Py.bind]; [|discriminate].
    apply IH. now apply (decode_cell_qubits num_qubit i G_ij st).
Qed.

Lemma decode_columns_qubits (num_qubit : Z) :
  forall columns st st',
    Forall (on_a_qubit num_qubit) (snd st) ->
    decode_columns num_qubit columns st = Ok st' ->
    Forall (on_a_qubit num_qubit) (snd st').
Proof.
  induction columns as [|G_nj rest IH]; intros st st' Hst;
    cbn [decode_columns].
  - intros H. now injection H as <-.
  - destruct (decode_column num_qubit 0 G_nj st) as [st1|e] eqn:Hcolumn;
      cbn [Py.bind]; [|discriminate].
    apply IH. now apply (decode_column_qubits num_qubit G_nj 0 st).
Qed.

(** X23.  Every instruction of a circuit that the decoder returns acts on a
    qubit of the circuit: the index of its target is below [num_qubit]. *)
Theorem decoded_targets_are_qubits (gene : gene_array) (num_qubit : Z)
    (c : QuantumCircuit) :
  generate_circuit_from_gene gene num_qubit = Ok c ->
  forall ins, In ins c -> (Z.of_nat (target_of ins) < num_qubit)%Z.
Proof.
  intros H ins Hin. apply generate_circuit_Ok in H.
  destruct H as (_ & _ & st & Hdecode & <-).
  assert (Hall : Forall (on_a_qubit num_qubit) (snd st)).
  { apply (decode_columns_qubits num_qubit (swapaxes gene) (0, []));
      [constructor | assumption]. }
  rewrite Forall_forall in Hall. exact (Hall _ Hin).
Qed.

Lemma decoded_targets_are_qubits_witness :
  (Z.of_nat (target_of (Cx 0 2)) < 3)%Z.
Proof.
  apply (decoded_targets_are_qubits
           [[(3, 0); (1, 0)]; [(0, 0); (2, 4)]; [(2, 0); (5, 1)]]%Z 3
           [Fixed "h" 0; Cx 0 2; Rotation "rz" (Param "theta_0") 0;
            Fixed "sx" 2]).
  - vm_compute. reflexivity.
  - cbn. auto.
Defined.

(** X24.  A circuit cannot be created for a negative number of qubits: the
    decoder then fails with the error of [qk.QuantumCircuit], whatever the
    gene. *)
Theorem negative_num_qubit_is_refused (gene : gene_array) (num_qubit : Z) :
  (num_qubit < 0)%Z ->
  generate_circuit_from_gene gene num_qubit = Err CircuitError.
Proof.
  intros Hn. unfold generate_circuit_from_gene, new_circuit.
  now replace (num_qubit <? 0)%Z with true by (symmetry; apply Z.ltb_lt; lia).
Qed.

Lemma negative_num_qubit_is_refused_witness :
  generate_circuit_from_gene [[(9, 0); (1, 0)]; [(3, 0)]]%Z (-1)
  = Err CircuitError.
Proof.
  apply (negative_num_qubit_is_refused [[(9, 0); (1, 0)]; [(3, 0)]]%Z (-1)).
  lia.
Defined.

(** X25.  In a circuit of at least one qubit, a cell with a readable gate code
    in a row beyond the qubits of the circuit is skipped when it is [empty]
    and refused by the builder with a [CircuitError] otherwise, whatever its
    control field. *)
Theorem row_beyond_the_circuit (num_qubit : Z) (i : nat) (G_ij : cell)
    (st : nat * QuantumCircuit) :
  (0 < num_qubit <= Z.of_nat i)%Z ->
  unreadable (fst G_ij) = false ->
  decode_cell num_qubit i G_ij st =
  if is_empty G_ij then Ok st else Err CircuitError.
Proof.
  intros Hi Hcode. destruct st as [theta_index c].
  rewrite decode_cell_by_kind by assumption.
  assert (Hrow : qubit_index num_qubit (Z.of_nat i) = Err CircuitError)
    by (apply qubit_index_outside; lia).
  assert (Hgate : forall ins,
             append_gate num_qubit c ins i = Err CircuitError).
  { intros ins. unfold append_gate. now rewrite Hrow. }
  destruct (is_empty G_ij) eqn:He; [reflexivity|].
  destruct (is_rz G_ij) eqn:Hrz; [now rewrite Hgate|].
  destruct (is_cx G_ij) eqn:Hcx.
  - cbv zeta.
    assert (Hother : ((if (num_qubit <=? snd G_ij)%Z
                       then remainder (snd G_ij) num_qubit
                       else snd G_ij) =? Z.of_nat i)%Z = false).
    { apply Z.eqb_neq. unfold remainder.
      destruct (num_qubit <=? snd G_ij)%Z eqn:Hguard.
      - replace (num_qubit =? 0)%Z with false
          by (symmetry; apply Z.eqb_neq; lia).
        pose proof (Z.mod_pos_bound (snd G_ij) num_qubit). lia.
      - apply Z.leb_gt in Hguard. lia. }
    rewrite Hother. unfold append_cx.
    match goal with
    | |- context [qubit_index num_qubit (if ?b then ?x else ?y)] =>
        destruct (qubit_index num_qubit (if b then x else y)) as [q|e] eqn:Hq
    end; cbn [Py.bind].
    + now rewrite Hrow.
    + now rewrite (qubit_index_error _ _ _ Hq).
  - destruct (fixed_gate_codes G_ij Hcode He Hrz Hcx) as (gate & -> & _).
    cbn [Py.bind]. now rewrite Hgate.
Qed.

Lemma row_beyond_the_circuit_witness :
  decode_cell 2 2 (3, 0)%Z (0, []) = Err CircuitError
  /\ decode_cell 2 2 (-6, 0)%Z (0, []) = Ok (0, []).
Proof.
  split.
  - apply (row_beyond_the_circuit 2 2 (3, 0)%Z (0, [])); [lia | reflexivity].
  - apply (row_beyond_the_circuit 2 2 (-6, 0)%Z (0, [])); [lia | reflexivity].
Defined.

(** ** Genes that decode alike *)

Lemma swapaxes_map (f : cell -> cell) (gene : gene_array) :
  f (0%Z, 0%Z) = (0%Z, 0%Z) ->
  swapaxes (map (map f) gene) = map (map f) (swapaxes gene).
Proof.
  intros Hdefault. rewrite !swapaxes_columns_of.
  assert (Hhd : length (hd [] (map (map f) gene)) = length (hd [] gene)).
  { destruct gene as [|row0 rest]; [reflexivity|]. apply length_map. }
  rewrite Hhd. unfold columns_of. rewrite map_map.
  apply map_ext. intros j. rewrite !map_map. apply map_ext. intros row.
  rewrite <- Hdefault at 1. apply map_nth.
Qed.

Lemma is_array_map (f : cell -> cell) (gene : gene_array) :
  is_array (map (map f) gene) = is_array gene.
Proof.
  unfold is_array.
  assert (Hhd : length (hd [] (map (map f) gene)) = length (hd [] gene)).
  { destruct gene as [|row0 rest]; [reflexivity|]. apply length_map. }
  rewrite Hhd. clear Hhd. generalize (length (hd [] gene)). intros L.
  induction gene as [|row rest IH]; [reflexivity|].
  cbn [map forallb]. now rewrite length_map, IH.
Qed.

Section SameDecoding.

Variable f : cell -> cell.
Variable num_qubit : Z.
Hypothesis same_cell :
  forall i G_ij st,
    decode_cell num_qubit i (f G_ij) st = decode_cell num_qubit i G_ij st.

Lemma decode_column_map :
  forall G_nj i st,
    decode_column num_qubit i (map f G_nj) st
    = decode_column num_qubit i G_nj st.
Proof.
  induction G_nj as [|G_ij rest IH]; intros i st; [reflexivity|].
  cbn [map decode_column]. rewrite same_cell.
  destruct (decode_cell num_qubit i G_ij st); cbn [Py.bind];
    [apply IH | reflexivity].
Qed.

Lemma decode_columns_map :
  forall columns st,
    decode_columns num_qubit (map (map f) columns) st
    = decode_columns num_qubit columns st.
Proof.
  induction columns as [|G_nj rest IH]; intros st; [reflexivity|].
  cbn [map decode_columns]. rewrite decode_column_map.
  destruct (decode_column num_qubit 0 G_nj st); cbn [Py.bind];
    [apply IH | reflexivity].
Qed.

Lemma generate_circuit_map (gene : gene_array) :
  f (0%Z, 0%Z) = (0%Z, 0%Z) ->
  generate_circuit_from_gene (map (map f) gene) num_qubit
  = generate_circuit_from_gene gene num_qubit.
Proof.
  intros Hdefault. unfold generate_circuit_from_gene, transpose.
  rewrite is_array_map.
  destruct (new_circuit num_qubit); cbn [Py.bind]; [|reflexivity].
  destruct (is_array gene); cbn [Py.bind]; [|reflexivity].
  now rewrite swapaxes_map, decode_columns_map.
Qed.

End SameDecoding.

Lemma decode_cell_front (num_qubit : Z) (i : nat) (G_ij : cell)
    (st : nat * QuantumCircuit) :
  decode_cell num_qubit i (front_cell G_ij) st
  = decode_cell num_qubit i G_ij st.
Proof.
  destruct G_ij as [code control]. unfold front_cell, front_code.
  cbn [fst snd].
  destruct ((-6 <=? code) && (code <? 0))%Z eqn:Hneg; [|reflexivity].
  apply andb_prop in Hneg. destruct Hneg as [Hlow Hhigh].
  apply Z.leb_le in Hlow. apply Z.ltb_lt in Hhigh.
  assert (Hcases : (code = -6 \/ code = -5 \/ code = -4 \/ code = -3
                    \/ code = -2 \/ code = -1)%Z) by lia.
  destruct Hcases as [-> | [-> | [-> | [-> | [-> | ->]]]]]; reflexivity.
Qed.

(** X6.  Gate codes -6 .. -1 are read from the end of the alphabet: a gene
    decodes exactly like the gene in which each such code is replaced by the
    code plus six. *)
Theorem negative_codes_count_from_the_end (gene : gene_array)
    (num_qubit : Z) :
  generate_circuit_from_gene (map (map front_cell) gene) num_qubit
  = generate_circuit_from_gene gene num_qubit.
Proof.
  apply generate_circuit_map; [|reflexivity].
  intros i G_ij st. apply decode_cell_front.
Qed.

Lemma decode_cell_clear_control (num_qubit : Z) (i : nat) (G_ij : cell)
    (st : nat * QuantumCircuit) :
  decode_cell num_qubit i (clear_control G_ij) st
  = decode_cell num_qubit i G_ij st.
Proof.
  destruct G_ij as [code control]. unfold clear_control.
  destruct (is_cx (code, control)) eqn:Hcx; [reflexivity|].
  destruct st as [theta_index c]. cbn [fst].
  destruct (unreadable code) eqn:Hcode.
  - now rewrite !decode_cell_unreadable.
  - rewrite !decode_cell_by_kind by assumption.
    unfold is_empty, is_rz, is_cx in *. cbn [fst snd] in *.
    now rewrite Hcx.
Qed.

(** X7.  The control field matters for [cx] cells only: a gene decodes exactly
    like the gene in which the control of every other cell is set to 0. *)
Theorem control_ignored_unless_cx (gene : gene_array) (num_qubit : Z) :
  generate_circuit_from_gene (map (map clear_control) gene) num_qubit
  = generate_circuit_from_gene gene num_qubit.
Proof.
  apply generate_circuit_map; [|reflexivity].
  intros i G_ij st. apply decode_cell_clear_control.
Qed.

(** ** More on binding *)

Lemma binding_outside (params : list string) :
  forall theta i,
    i <= length params ->
    length params < i + length theta ->
    binding params i theta = Err IndexError.
Proof.
  induction theta as [|v theta IH]; intros i Hi Hlong; cbn [length] in Hlong.
  - lia.
  - cbn [binding].
    destruct (Nat.eq_dec i (length params)) as [-> | Hne].
    + unfold getitem.
      replace (Z.of_nat (length params) <? 0)%Z with false
        by (symmetry; apply Z.ltb_ge; lia).
      rewrite Z.ltb_irrefl, andb_false_r. reflexivity.
    + rewrite getitem_inside by lia. cbn [Py.bind].
      rewrite IH by lia. reflexivity.
Qed.

(** X8.  A parameter vector longer than the number of parameters is refused:
    [bind_parameters] raises [IndexError]. *)
Theorem long_theta_raises_IndexError (self : Gene_Circuit) (theta : list Q) :
  num_parameters (circuit self) < length theta ->
  bind_parameters self theta = Err IndexError.
Proof.
  unfold num_parameters, bind_parameters. intros Hlong.
  rewrite binding_outside; [reflexivity | lia | cbn [Nat.add]; lia].
Qed.

Lemma long_theta_raises_IndexError_witness :
  bind_parameters
    (mkGene_Circuit [[(1, 0); (3, 0)]]%Z 1
       [Rotation "rz" (Param "theta_0") 0; Fixed "h" 0] 1)
    [1 # 2; 1 # 3]%Q
  = Err IndexError.
Proof.
  apply (long_theta_raises_IndexError
           (mkGene_Circuit [[(1, 0); (3, 0)]]%Z 1
              [Rotation "rz" (Param "theta_0") 0; Fixed "h" 0] 1)
           [1 # 2; 1 # 3]%Q).
  vm_compute. lia.
Defined.

Lemma parameters_after_assign (c : QuantumCircuit) (theta : list Q) :
  length theta <= length (parameters c) ->
  parameters
    (assign_parameters (combine (firstn (length theta) (parameters c)) theta)
                       c)
  = skipn (length theta) (parameters c).
Proof.
  intros Hlen. set (params := parameters c) in *.
  unfold parameters at 1.
  rewrite unbound_assign, <- filter_nodup, <- filter_sorted_by_name.
  fold (parameters c). fold params.
  rewrite (filter_ext _ (fun x => negb (mem x (firstn (length theta) params)))).
  - transitivity
      (filter (fun x => negb (mem x (firstn (length theta) params)))
              (firstn (length theta) params ++ skipn (length theta) params)).
    + now rewrite firstn_skipn.
    + apply filter_not_mem_prefix. rewrite firstn_skipn.
      apply parameters_NoDup.
  - intros name. f_equal. apply is_key_combine.
    rewrite length_firstn. lia.
Qed.

Lemma parameters_nil_unbound (c : QuantumCircuit) :
  parameters c = [] -> unbound c = [].
Proof.
  unfold parameters. intros H.
  pose proof (sorted_by_name_Permutation (nodup string_dec (unbound c)))
    as Hperm.
  rewrite H in Hperm. apply Permutation_nil in Hperm.
  destruct (unbound c) as [|name rest] eqn:Hu; [reflexivity|].
  exfalso.
  assert (Hin : In name (nodup string_dec (name :: rest)))
    by (apply nodup_In; now left).
  rewrite Hperm in Hin. destruct Hin.
Qed.

(** X9.  A parameter vector with one entry per parameter binds them all: the
    circuit that [bind_parameters] returns has the instructions of the
    original one, in number, and no parameter left. *)
Theorem full_theta_binds_everything (self : Gene_Circuit) (theta : list Q) :
  length theta = num_parameters (circuit self) ->
  exists binded_circuit,
    bind_parameters self theta = Ok binded_circuit
    /\ length binded_circuit = length (circuit self)
    /\ unbound binded_circuit = []
    /\ num_parameters binded_circuit = 0.
Proof.
  unfold num_parameters. intros Hlen.
  exists (assign_parameters
            (combine (firstn (length theta) (parameters (circuit self)))
                     theta)
            (circuit self)).
  assert (Hnone :
            parameters
              (assign_parameters
                 (combine (firstn (length theta) (parameters (circuit self)))
                          theta)
                 (circuit self)) = []).
  { rewrite parameters_after_assign by lia.
    rewrite Hlen. apply skipn_all. }
  split.
  - unfold bind_parameters.
    rewrite binding_inside by (cbn [Nat.add]; lia). reflexivity.
  - split; [unfold assign_parameters; apply length_map|].
    split; [now apply parameters_nil_unbound|].
    now rewrite Hnone.
Qed.

Lemma full_theta_binds_everything_witness :
  exists binded_circuit,
    bind_parameters
      (mkGene_Circuit [[(1, 0); (3, 0); (1, 0)]]%Z 1
         [Rotation "rz" (Param "theta_0") 0; Fixed "h" 0;
          Rotation "rz" (Param "theta_1") 0] 2)
      [1 # 2; 1 # 3]%Q
    = Ok binded_circuit
    /\ unbound binded_circuit = [].
Proof.
  destruct (full_theta_binds_everything
              (mkGene_Circuit [[(1, 0); (3, 0); (1, 0)]]%Z 1
                 [Rotation "rz" (Param "theta_0") 0; Fixed "h" 0;
                  Rotation "rz" (Param "theta_1") 0] 2)
              [1 # 2; 1 # 3]%Q) as (c & Hbind & _ & Hnone & _).
  - vm_compute. reflexivity.
  - exists c. now split.
Defined.

(** ** Fidelities and losses *)

Lemma abs2_nonneg (z : complex) : (0 <= abs2 z)%Q.
Proof.
  unfold abs2. destruct z as [[a p] [b q]]. cbn [fst snd].
  unfold Qle, Qplus, Qmult. cbn [Qnum Qden]. nia.
Qed.

(** X10.  A fidelity is never negative and a loss never positive. *)
Theorem loss_never_positive :
  (forall sv target fidelity,
      get_fidelity sv target = Ok fidelity -> (0 <= fidelity)%Q)
  /\ (forall simulate Gene target theta l,
         loss simulate Gene target theta = Ok l -> (l <= 0)%Q).
Proof.
  assert (Hfid : forall sv target fidelity,
             get_fidelity sv target = Ok fidelity -> (0 <= fidelity)%Q).
  { intros sv target fidelity. unfold get_fidelity.
    destruct (dot (map conj sv) target) as [d|e]; cbn [Py.bind];
      [|discriminate].
    intros H. injection H as <-. apply abs2_nonneg. }
  split; [exact Hfid|].
  intros simulate Gene target theta l. unfold loss.
  destruct (statevector simulate Gene theta) as [sv|e]; cbn [Py.bind];
    [|discriminate].
  destruct (get_fidelity sv target) as [fidelity|e] eqn:Hf; cbn [Py.bind];
    [|discriminate].
  intros H. injection H as <-.
  apply Hfid in Hf. apply Qopp_le_compat in Hf. exact Hf.
Qed.

Lemma loss_never_positive_witness :
  exists fidelity,
    get_fidelity ground_state target_statevector = Ok fidelity
    /\ (0 <= fidelity)%Q.
Proof.
  eexists. split.
  - vm_compute. reflexivity.
  - apply (proj1 loss_never_positive ground_state target_statevector).
    vm_compute. reflexivity.
Defined.

Lemma dot_conj_self_acc :
  forall (u : list complex) (acc : complex),
    let d := fold_left cadd
               (map (fun p => cmul (fst p) (snd p)) (combine (map conj u) u))
               acc in
    (fst d == fst acc + norm2 u)%Q /\ (snd d == snd acc)%Q.
Proof.
  induction u as [|z u IH]; intros acc; cbn [map combine fold_left norm2
                                              fold_right].
  - split; ring.
  - destruct (IH (cadd acc (cmul (conj z) z))) as [Hre Him].
    cbv zeta in Hre, Him. split.
    + rewrite Hre. fold (norm2 u).
      unfold cadd, cmul, conj, abs2. cbn [fst snd]. ring.
    + rewrite Him. unfold cadd, cmul, conj. cbn [fst snd]. ring.
Qed.

(** X11.  The fidelity of a statevector with itself is the square of its squared
    norm: 1 for a normalised state. *)
Theorem fidelity_with_itself (u : list complex) :
  exists fidelity,
    get_fidelity u u = Ok fidelity
    /\ (fidelity == norm2 u * norm2 u)%Q
    /\ ((norm2 u == 1)%Q -> (fidelity == 1)%Q).
Proof.
  unfold get_fidelity, dot. rewrite length_map, Nat.eqb_refl.
  cbn [Py.bind]. eexists. split; [reflexivity|].
  destruct (dot_conj_self_acc u (0, 0)%Q) as [Hre Him].
  cbv zeta in Hre, Him. cbn [fst snd] in Hre, Him.
  assert (Hsquare :
            (abs2 (fold_left cadd
                     (map (fun p => cmul (fst p) (snd p))
                          (combine (map conj u) u)) (0, 0)%Q)
             == norm2 u * norm2 u)%Q).
  { unfold abs2. rewrite Hre, Him. ring. }
  split; [exact Hsquare|].
  intros Hnorm. rewrite Hsquare, Hnorm. ring.
Qed.

(** ** The initial point of the optimisation *)

Lemma rand_Returns (r : Z) (tape : list Z) :
  exists v, rand (r :: tape) = Returns v tape /\ unit_interval v.
Proof.
  eexists. split; [reflexivity|].
  pose proof (Z.mod_pos_bound r (2 ^ 53) ltac:(lia)) as Hbound.
  unfold unit_interval, Qle, Qlt. cbn [Qnum Qden].
  change (Z.pos (2 ^ 53)) with (2 ^ 53)%Z. lia.
Qed.

Lemma rand_n_enough :
  forall n tape,
    n <= length tape ->
    exists theta,
      rand_n n tape = Returns theta (skipn n tape)
      /\ length theta = n
      /\ Forall unit_interval theta.
Proof.
  induction n as [|n IH]; intros tape Hlen.
  - exists []. repeat split. constructor.
  - destruct tape as [|r tape]; cbn [length] in Hlen; [lia|].
    destruct (rand_Returns r tape) as (v & Hv & Hunit).
    destruct (IH tape) as (theta & Htheta & Hn & Hall); [lia|].
    exists (v :: theta). cbn [rand_n skipn]. unfold GA.bind.
    rewrite Hv, Htheta. unfold ret. cbn [length].
    repeat split; [now rewrite Hn | now constructor].
Qed.

Lemma rand_n_short :
  forall n tape, length tape < n -> rand_n n tape = Starved.
Proof.
  induction n as [|n IH]; intros tape Hlen; [lia|].
  cbn [rand_n]. unfold GA.bind.
  destruct tape as [|r tape]; [reflexivity|].
  cbn [length] in Hlen.
  destruct (rand_Returns r tape) as (v & -> & _).
  rewrite IH by lia. reflexivity.
Qed.

(** X12.  One evaluation takes exactly [num_parameters] random numbers, all of the
    unit interval, and hands them to the optimizer as its initial point in a
    single call; when fewer random numbers are left, it waits for more. *)
Theorem initial_point_is_drawn
    (simulate : QuantumCircuit -> list complex)
    (minimize : (list Q -> result Q) -> list Q -> result (list Q))
    (circuit_depth : QuantumCircuit -> nat)
    (Gene : Gene_Circuit) (target : list complex) (tape : list Z) :
  (gc_num_parameters Gene <= length tape ->
   exists theta run,
     get_optimized_fidelity simulate minimize circuit_depth Gene target tape
     = Returns run (skipn (gc_num_parameters Gene) tape)
     /\ events run = [Minimize theta]
     /\ length theta = gc_num_parameters Gene
     /\ Forall unit_interval theta)
  /\ (length tape < gc_num_parameters Gene ->
      get_optimized_fidelity simulate minimize circuit_depth Gene target tape
      = Starved).
Proof.
  unfold get_optimized_fidelity, GA.bind. split; intros Hlen.
  - destruct (rand_n_enough _ tape Hlen) as (theta & -> & Hn & Hall).
    exists theta. eexists. unfold ret. split; [reflexivity|].
    now repeat split.
  - now rewrite rand_n_short.
Qed.

Lemma initial_point_is_drawn_witness :
  (exists theta run,
      get_optimized_fidelity (fun _ => ground_state) (fun _ x0 => Ok x0)
        (fun c => length c)
        (mkGene_Circuit [[(1, 0); (3, 0); (1, 0)]]%Z 1
           [Rotation "rz" (Param "theta_0") 0; Fixed "h" 0;
            Rotation "rz" (Param "theta_1") 0] 2)
        target_statevector [7; 8; 9]%Z
      = Returns run [9%Z]
      /\ events run = [Minimize theta]
      /\ length theta = 2)
  /\ get_optimized_fidelity (fun _ => ground_state) (fun _ x0 => Ok x0)
       (fun c => length c)
       (mkGene_Circuit [[(1, 0); (3, 0); (1, 0)]]%Z 1
          [Rotation "rz" (Param "theta_0") 0; Fixed "h" 0;
           Rotation "rz" (Param "theta_1") 0] 2)
       target_statevector [7%Z]
     = Starved.
Proof.
  split.
  - destruct (proj1 (initial_point_is_drawn
                (fun _ => ground_state) (fun _ x0 => Ok x0)
                (fun c => length c)
                (mkGene_Circuit [[(1, 0); (3, 0); (1, 0)]]%Z 1
                   [Rotation "rz" (Param "theta_0") 0; Fixed "h" 0;
                    Rotation "rz" (Param "theta_1") 0] 2)
                target_statevector [7; 8; 9]%Z))
      as (theta & run & Hrun & Hevents & Hlen & _).
    + cbn. lia.
    + exists theta, run. now repeat split.
  - apply (proj2 (initial_point_is_drawn
                (fun _ => ground_state) (fun _ x0 => Ok x0)
                (fun c => length c)
                (mkGene_Circuit [[(1, 0); (3, 0); (1, 0)]]%Z 1
                   [Rotation "rz" (Param "theta_0") 0; Fixed "h" 0;
                    Rotation "rz" (Param "theta_1") 0] 2)
                target_statevector [7%Z])).
    cbn. lia.
Defined.

Lemma fidelity_with_itself_witness :
  exists fidelity,
    get_fidelity ground_state ground_state = Ok fidelity
    /\ (fidelity == 1)%Q.
Proof.
  destruct (fidelity_with_itself ground_state) as (f & Hf & _ & Hone).
  exists f. split; [exact Hf|].
  apply Hone. vm_compute. reflexivity.
Defined.

(** ** The evaluation of one gene *)

(** X13.  The evaluation decodes the gene before it does anything else.  A gene
    that is an array and has a gate code outside -6 .. 5 is rejected with the
    error of the decoder, before any random number is drawn and before the
    optimizer is called.  When the gene has no more rows than the three
    qubits and no negative control in a [cx] cell, that error is the
    [IndexError] of the lookup, and a gene without such a code is optimised
    from an initial point with one entry per rotation cell. *)
Theorem evaluation_decodes_first
    (simulate : QuantumCircuit -> list complex)
    (minimize : (list Q -> result Q) -> list Q -> result (list Q))
    (circuit_depth : QuantumCircuit -> nat)
    (gene : gene_array) (tape : list Z) :
  rectangular gene ->
  (has_unreadable_code gene = true ->
   Run.get_fidelity_depth simulate minimize circuit_depth gene tape
   = Raises IndexError
   \/ Run.get_fidelity_depth simulate minimize circuit_depth gene tape
      = Raises CircuitError)
  /\ (fits gene Run.num_qubit = true ->
      (has_unreadable_code gene = true ->
       Run.get_fidelity_depth simulate minimize circuit_depth gene tape
       = Raises IndexError)
      /\ (has_unreadable_code gene = false ->
          count_rz (concat gene) <= length tape ->
          exists theta run,
            Run.get_fidelity_depth simulate minimize circuit_depth gene tape
            = Returns run (skipn (count_rz (concat gene)) tape)
            /\ events run = [Minimize theta]
            /\ length theta = count_rz (concat gene))).
Proof.
  intros Hrect. unfold Run.get_fidelity_depth. split.
  - intros Hcode. unfold init.
    destruct (generate_circuit_unreadable gene Run.num_qubit) as [-> | ->];
      try assumption; [unfold Run.num_qubit; lia | now left | now right].
  - intros Hfits.
    pose proof (generate_circuit_fits gene Run.num_qubit Hrect Hfits)
      as Hdecode.
    split; intros Hcode; rewrite Hcode in Hdecode.
    + unfold init. now rewrite Hdecode.
    + intros Htape. destruct Hdecode as [c Hc].
      destruct (init gene Run.num_qubit) as [Gene|e] eqn:Hinit.
      * destruct (init_counts_rotation_cells gene Run.num_qubit Gene
                    Hrect Hinit) as [Hcount _].
        rewrite <- Hcount in *.
        destruct (rand_n_enough _ tape Htape) as (theta & Hdraw & Hn & _).
        exists theta. eexists.
        unfold get_optimized_fidelity, GA.bind. rewrite Hdraw.
        unfold ret. now repeat split.
      * unfold init in Hinit. rewrite Hc in Hinit. discriminate.
Qed.

Lemma evaluation_decodes_first_witness :
  Run.get_fidelity_depth (fun _ => ground_state) (fun _ x0 => Ok x0)
    (fun c => length c) [[(3, 0); (1, 0)]; [(2, 0); (9, 1)]]%Z [7; 8; 9]%Z
  = Raises IndexError
  /\ exists theta run,
       Run.get_fidelity_depth (fun _ => ground_state) (fun _ x0 => Ok x0)
         (fun c => length c) [[(3, 0); (1, 0)]; [(2, 0); (1, 1)]]%Z
         [7; 8; 9]%Z
       = Returns run [9%Z]
       /\ events run = [Minimize theta]
       /\ length theta = 2.
Proof.
  split.
  - destruct (evaluation_decodes_first (fun _ => ground_state)
                (fun _ x0 => Ok x0) (fun c => length c)
                [[(3, 0); (1, 0)]; [(2, 0); (9, 1)]]%Z [7; 8; 9]%Z)
      as [_ Hfits].
    + repeat constructor.
    + destruct Hfits as [Hbad _]; [reflexivity|].
      apply Hbad. reflexivity.
  - destruct (evaluation_decodes_first (fun _ => ground_state)
                (fun _ x0 => Ok x0) (fun c => length c)
                [[(3, 0); (1, 0)]; [(2, 0); (1, 1)]]%Z [7; 8; 9]%Z)
      as [_ Hfits].
    + repeat constructor.
    + destruct Hfits as [_ Hgood]; [reflexivity|].
      apply Hgood; [reflexivity | cbn; lia].
Defined.

(** ** More on the threshold search *)

Lemma Qltb_lt (t f : Q) : Qltb t f = true <-> (t < f)%Q.
Proof.
  unfold Qltb. rewrite negb_true_iff. split; intros H.
  - apply Qnot_le_lt. intros Hle. apply Qle_bool_iff in Hle. congruence.
  - destruct (Qle_bool f t) eqn:Hle; [|reflexivity].
    apply Qle_bool_iff in Hle. exfalso. now apply (Qlt_not_le t f).
Qed.

Lemma threshold_le (k k' : nat) :
  k <= k' -> (threshold k' <= threshold k)%Q.
Proof.
  intros Hk. unfold threshold, Qle, Qminus, Qplus, Qopp, Qmult, inject_Z.
  cbn [Qnum Qden]. lia.
Qed.

Lemma threshold_range (k : nat) :
  k <= 99 -> (0 <= threshold k)%Q /\ (threshold k <= 99 # 100)%Q.
Proof.
  intros Hk. unfold threshold, Qle, Qminus, Qplus, Qopp, Qmult, inject_Z.
  cbn [Qnum Qden]. lia.
Qed.

Lemma passes_above (fidelity : list Q) (t : Q) (j : nat) :
  passes (above fidelity t) j = true <->
  j < length fidelity /\ (t < nth j fidelity 0)%Q.
Proof.
  unfold passes, above. revert j.
  induction fidelity as [|f fidelity IH]; intros j.
  - destruct j; cbn; split; try discriminate; intros [H _]; lia.
  - destruct j as [|j]; cbn [map nth length].
    + rewrite Qltb_lt. split; [intros H; split; [lia | exact H] | now intros [_ H]].
    + rewrite IH. split; intros [H1 H2]; (split; [lia | exact H2]).
Qed.

Lemma np_sum_le_pointwise (g1 g2 : Q -> bool) :
  (forall f, g1 f = true -> g2 f = true) ->
  forall fidelity,
    np_sum (map g1 fidelity) <= np_sum (map g2 fidelity).
Proof.
  intros Himp. unfold np_sum.
  induction fidelity as [|f fidelity IH]; [reflexivity|].
  cbn [map filter].
  destruct (g1 f) eqn:H1.
  - rewrite (Himp f H1). cbn [length]. lia.
  - destruct (g2 f); cbn [length]; lia.
Qed.

(** X15.  Lowering the threshold never loses a gene: every gene that passes in
    round [k] passes in all later rounds, and the count the quorum is
    tested on never shrinks. *)
Theorem lowering_keeps_genes (fidelity : list Q) (k k' : nat) :
  k <= k' ->
  (forall j, passes (above fidelity (threshold k)) j = true ->
             passes (above fidelity (threshold k')) j = true)
  /\ np_sum (above fidelity (threshold k))
     <= np_sum (above fidelity (threshold k')).
Proof.
  intros Hk. pose proof (threshold_le k k' Hk) as Hle. split.
  - intros j. rewrite !passes_above. intros [Hj Hlt]. split; [exact Hj|].
    now apply (Qle_lt_trans _ (threshold k)).
  - unfold above. apply np_sum_le_pointwise.
    intros f. rewrite !Qltb_lt. intros Hlt.
    now apply (Qle_lt_trans _ (threshold k)).
Qed.

Lemma lowering_keeps_genes_witness :
  np_sum (above scenario_fidelity (threshold 0))
  <= np_sum (above scenario_fidelity (threshold 4)).
Proof.
  apply (lowering_keeps_genes scenario_fidelity 0 4). lia.
Defined.

Lemma threshold_loop_result (fidelity : list Q) :
  exists k,
    k <= 99
    /\ threshold_loop 100 fidelity 0 [] = (S k, above fidelity (threshold k))
    /\ (6 <= np_sum (above fidelity (threshold k)) \/ k = 99).
Proof.
  rewrite threshold_loop_find.
  destruct (find (quorum_at fidelity) (seq 0 100)) as [k|] eqn:Hfind.
  - apply find_some in Hfind. destruct Hfind as [Hin Hq].
    apply in_seq in Hin. unfold quorum_at in Hq. apply Nat.leb_le in Hq.
    exists k. split; [lia|]. split; [reflexivity | now left].
  - exists 99. split; [lia|]. split; [reflexivity | now right].
Qed.

(** X16.  The search always ends with a round counter of 1 .. 100 and the mask of
    the last threshold it tested, one entry per gene; it stops before the
    hundredth round only with at least six genes in the mask. *)
Theorem threshold_search_outcome (fidelity : list Q) :
  let ii := fst (threshold_loop 100 fidelity 0 []) in
  let gene := snd (threshold_loop 100 fidelity 0 []) in
  1 <= ii <= 100
  /\ gene = above fidelity (threshold (ii - 1))
  /\ length gene = length fidelity
  /\ (np_sum gene < 6 -> ii = 100).
Proof.
  destruct (threshold_loop_result fidelity) as (k & Hk & -> & Hq).
  cbn [fst snd]. split; [lia|].
  split; [now replace (S k - 1) with k by lia|].
  split; [unfold above; apply length_map|].
  intros Hfew. destruct Hq; lia.
Qed.

Lemma threshold_search_outcome_witness :
  fst (threshold_loop 100 (repeat 0%Q 20) 0 []) = 100.
Proof.
  apply (threshold_search_outcome (repeat 0%Q 20)).
  vm_compute. lia.
Defined.

(** X17.  Whatever the other fidelities are, the mask the search ends with never
    holds a gene whose fidelity is zero or less, and always holds a gene
    whose fidelity is above 0.99. *)
Theorem mask_bounds (fidelity : list Q) (j : nat) :
  let gene := snd (threshold_loop 100 fidelity 0 []) in
  ((nth j fidelity 0 <= 0)%Q -> passes gene j = false)
  /\ (j < length fidelity -> (99 # 100 < nth j fidelity 0)%Q ->
      passes gene j = true).
Proof.
  destruct (threshold_loop_result fidelity) as (k & Hk & -> & _).
  cbn [snd]. destruct (threshold_range k Hk) as [Hlow Hhigh]. split.
  - intros Hzero.
    destruct (passes (above fidelity (threshold k)) j) eqn:Hp; [|reflexivity].
    apply passes_above in Hp. destruct Hp as [_ Hlt]. exfalso.
    apply (Qlt_not_le _ _ Hlt).
    now apply (Qle_trans _ 0).
  - intros Hj Hgood. apply passes_above. split; [exact Hj|].
    now apply (Qle_lt_trans _ (99 # 100)).
Qed.

Lemma mask_bounds_witness :
  passes (snd (threshold_loop 100 scenario_fidelity 0 [])) 19 = false
  /\ passes (snd (threshold_loop 100 scenario_fidelity 0 [])) 1 = true.
Proof.
  split.
  - apply (mask_bounds scenario_fidelity 19). vm_compute. discriminate.
  - apply (mask_bounds scenario_fidelity 1).
    + vm_compute. lia.
    + vm_compute. reflexivity.
Defined.

(** X18.  Whatever order [np.argsort] returns, even a wrong one, the elite holds
    at most ten indices, each of a gene of the population whose fidelity is
    above zero. *)
Theorem elite_is_safe (argsort : list nat -> list nat)
    (result : list evaluation) :
  length (elite_index argsort result) <= 10
  /\ forall j, In j (elite_index argsort result) ->
               j < length result
               /\ (0 < nth j (fidelities result) 0)%Q.
Proof.
  split; [apply elite_index_length|].
  intros j Hin. rewrite elite_index_unfold in Hin.
  rewrite elite_loop_firstn in Hin by (cbn; lia).
  cbn [app] in Hin. apply In_firstn_whole, filter_In in Hin.
  destruct Hin as [_ Hpass].
  destruct (threshold_loop_result (fidelities result))
    as (k & Hk & Hloop & _).
  rewrite Hloop in Hpass. cbn [snd] in Hpass.
  apply passes_above in Hpass. destruct Hpass as [Hj Hlt].
  unfold fidelities in Hj at 1. rewrite length_map in Hj.
  split; [exact Hj|].
  destruct (threshold_range k Hk) as [Hlow _].
  now apply (Qle_lt_trans _ (threshold k)).
Qed.

Lemma elite_is_safe_witness :
  2 < length scenario_result
  /\ (0 < nth 2 (fidelities scenario_result) 0)%Q.
Proof.
  apply (elite_is_safe stable_argsort scenario_result).
  vm_compute. auto.
Defined.

(** ** Mutation *)

Lemma well_shapedb_sound (population : list (list Z)) :
  forallb well_shapedb population = true -> Forall well_shaped population.
Proof.
  intros H. apply Forall_forall. intros row Hrow.
  rewrite forallb_forall in H. specialize (H row Hrow).
  unfold well_shapedb in H. apply andb_prop in H. destruct H as [Hlen Hall].
  apply Nat.eqb_eq in Hlen. split; [exact Hlen|].
  apply Forall_forall. intros v Hv.
  rewrite forallb_forall in Hall. specialize (Hall v Hv).
  apply andb_prop in Hall. destruct Hall as [H0 H11].
  apply Z.leb_le in H0. apply Z.ltb_lt in H11. now split.
Qed.

Lemma Forall2_kept_refl (a : list Z) : Forall2 kept_or_redrawn a a.
Proof.
  induction a as [|x a IH]; constructor; [now left | exact IH].
Qed.

Lemma Forall2_kept_setitem :
  forall (a : list Z) (k : nat) (v : Z),
    k < length a -> gate_code v ->
    Forall2 kept_or_redrawn (setitem a k v) a.
Proof.
  unfold setitem.
  induction a as [|x a IH]; intros k v Hk Hv; cbn [length] in Hk; [lia|].
  destruct k as [|k]; cbn [firstn skipn app].
  - constructor; [now right | apply Forall2_kept_refl].
  - constructor; [now left|]. apply IH; [lia | exact Hv].
Qed.

Lemma Forall2_kept_trans :
  forall a b c : list Z,
    Forall2 kept_or_redrawn a b -> Forall2 kept_or_redrawn b c ->
    Forall2 kept_or_redrawn a c.
Proof.
  intros a b c Hab. revert c.
  induction Hab as [|x y a b Hxy _ IH]; intros c Hbc.
  - inversion Hbc. constructor.
  - inversion Hbc as [|? z ? c' Hyz Hrest]; subst.
    constructor; [|now apply IH].
    destruct Hxy as [-> | Hx]; [exact Hyz | now right].
Qed.

Lemma mutate_Returns :
  forall ks child tape row rest,
    (forall k, In k ks -> k < length child) ->
    mutate ks child tape = Returns row rest ->
    Forall2 kept_or_redrawn row child.
Proof.
  induction ks as [|k ks IH]; intros child tape row rest Hks;
    cbn [mutate].
  - unfold ret. intros H. injection H as <- _. apply Forall2_kept_refl.
  - intros H. apply bind_Returns in H. destruct H as (u & t0 & _ & H).
    destruct (Qltb u mutation_rate).
    + apply bind_Returns in H. destruct H as (v & t1 & Hv & H).
      apply randint_Returns in Hv. destruct Hv as [Hv _].
      assert (Hk : k < length child) by (apply Hks; now left).
      apply IH in H.
      * apply (Forall2_kept_trans _ _ _ H).
        now apply Forall2_kept_setitem.
      * intros k' Hk'. rewrite setitem_length by exact Hk.
        apply Hks. now right.
    + apply IH in H; [exact H|]. intros k' Hk'. apply Hks. now right.
Qed.

(** X20.  Mutation returns a row of the same length in which every entry is the
    entry of the child at that position or a fresh gate code of 0 .. 10. *)
Theorem mutation_keeps_or_redraws (child : list Z) (tape : list Z)
    (row : list Z) (rest : list Z) :
  mutate (seq 0 (length child)) child tape = Returns row rest ->
  length row = length child
  /\ Forall2 kept_or_redrawn row child.
Proof.
  intros H. apply mutate_Returns in H.
  - split; [|exact H]. now apply Forall2_length in H.
  - intros k Hk. apply in_seq in Hk. lia.
Qed.

Lemma mutation_keeps_or_redraws_witness :
  length [0; 4; 0]%Z = length [0; 0; 0]%Z
  /\ Forall2 kept_or_redrawn [0; 4; 0]%Z [0; 0; 0]%Z.
Proof.
  apply (mutation_keeps_or_redraws [0; 0; 0]%Z
           [2 ^ 52; 1; 15; 2 ^ 52]%Z [0; 4; 0]%Z []).
  vm_compute. reflexivity.
Defined.

(** ** The next population *)

Lemma randint_n_Returns (low high : Z) :
  forall n tape flat rest,
    randint_n low high n tape = Returns flat rest ->
    length flat = n /\ Forall (fun v => (low <= v < high)%Z) flat.
Proof.
  induction n as [|n IH]; intros tape flat rest; cbn [randint_n].
  - unfold ret. intros H. injection H as <- _. split; constructor.
  - intros H. apply bind_Returns in H. destruct H as (v & t0 & Hv & H).
    apply bind_Returns in H. destruct H as (vs & t1 & Hvs & H).
    unfold ret in H. injection H as <- _.
    apply randint_Returns in Hv. destruct Hv as [Hv _].
    apply IH in Hvs. destruct Hvs as [Hlen Hall].
    split; [cbn [length]; now rewrite Hlen | now constructor].
Qed.

Lemma Forall_firstn_same {A : Type} (P : A -> Prop) (n : nat) (l : list A) :
  Forall P l -> Forall P (firstn n l).
Proof.
  rewrite !Forall_forall. intros H x Hx.
  apply H. now apply In_firstn_whole in Hx.
Qed.

Lemma Forall_skipn_same {A : Type} (P : A -> Prop) (n : nat) (l : list A) :
  Forall P l -> Forall P (skipn n l).
Proof.
  rewrite !Forall_forall. intros H x Hx. apply H.
  rewrite <- (firstn_skipn n l). apply in_or_app. now right.
Qed.

Lemma Forall_setitem {A : Type} (P : A -> Prop) (a : list A) (k : nat)
    (v : A) :
  Forall P a -> P v -> Forall P (setitem a k v).
Proof.
  intros Ha Hv. unfold setitem. apply Forall_app. split.
  - now apply Forall_firstn_same.
  - constructor; [exact Hv | now apply Forall_skipn_same].
Qed.

Lemma Forall_setslice {A : Type} (P : A -> Prop) (a : list A) (start : nat)
    (rows : list A) :
  Forall P a -> Forall P rows -> Forall P (setslice a start rows).
Proof.
  intros Ha Hrows. unfold setslice. apply Forall_app. split.
  - now apply Forall_firstn_same.
  - apply Forall_app. split; [exact Hrows | now apply Forall_skipn_same].
Qed.

Lemma reshape_well_shaped :
  forall rows flat,
    length flat = rows * length_gene ->
    Forall gate_code flat ->
    Forall well_shaped (reshape rows length_gene flat).
Proof.
  induction rows as [|rows IH]; intros flat Hlen Hall; cbn [reshape].
  - constructor.
  - constructor.
    + split.
      * rewrite length_firstn. cbn [Nat.mul] in Hlen. lia.
      * now apply Forall_firstn_same.
    + apply IH.
      * rewrite length_skipn. cbn [Nat.mul] in Hlen. lia.
      * now apply Forall_skipn_same.
Qed.

Lemma crossover_well_shaped (parent_gene : list (list Z)) (tape : list Z)
    (child : list Z) (rest : list Z) :
  Forall well_shaped parent_gene ->
  crossover length_gene parent_gene (Z.of_nat (length parent_gene)) tape
  = Returns child rest ->
  well_shaped child.
Proof.
  intros Hparents H. apply crossover_Returns in H.
  destruct H as (p0 & p1 & cp & H0 & H1 & _ & Hcp & ->).
  rewrite Forall_forall in Hparents.
  assert (HA : well_shaped (nth (Z.to_nat p0) parent_gene []))
    by (apply Hparents, nth_In; lia).
  assert (HB : well_shaped (nth (Z.to_nat p1) parent_gene []))
    by (apply Hparents, nth_In; lia).
  destruct HA as [HlenA HallA]. destruct HB as [HlenB HallB].
  unfold concatenate_parents, upto, from. cbn [fst snd]. split.
  - rewrite length_app, length_firstn, length_skipn, HlenA, HlenB. lia.
  - apply Forall_app. split;
      [now apply Forall_firstn_same | now apply Forall_skipn_same].
Qed.

Lemma mutate_well_shaped (child : list Z) (tape : list Z) (row : list Z)
    (rest : list Z) :
  well_shaped child ->
  mutate (seq 0 length_gene) child tape = Returns row rest ->
  well_shaped row.
Proof.
  intros [Hlen Hall] H. rewrite <- Hlen in H.
  apply mutate_Returns in H;
    [|intros k Hk; apply in_seq in Hk; lia].
  split.
  - apply Forall2_length in H. lia.
  - clear Hlen. induction H as [|x y row child Hxy _ IH]; [constructor|].
    inversion Hall; subst. constructor; [|now apply IH].
    destruct Hxy as [-> | Hx]; assumption.
Qed.

Lemma children_well_shaped (parent_gene : list (list Z)) :
  Forall well_shaped parent_gene ->
  forall js child_gene tape child_gene' rest,
    Forall well_shaped child_gene ->
    children length_gene js parent_gene (Z.of_nat (length parent_gene))
             child_gene tape = Returns child_gene' rest ->
    Forall well_shaped child_gene'.
Proof.
  intros Hparents.
  induction js as [|j js IH]; intros child_gene tape child_gene' rest Hall;
    cbn [children].
  - unfold ret. intros H. now injection H as <- _.
  - intros H.
    apply bind_Returns in H. destruct H as (row & t0 & Hcross & H).
    apply bind_Returns in H. destruct H as (row' & t1 & Hmutate & H).
    apply IH in H; [exact H|].
    apply Forall_setitem; [exact Hall|].
    apply (mutate_well_shaped row t0 row' t1); [|exact Hmutate].
    now apply (crossover_well_shaped parent_gene tape row t0).
Qed.

(** How a returning step is put together. *)
Lemma advance_Returns (argsort : list nat -> list nat)
    (random_gene : list (list Z)) (result : list evaluation)
    (tape : list Z) (next : list (list Z)) (rest : list Z) :
  advance argsort num_genes length_gene random_gene result tape
  = Returns next rest ->
  let index := elite_index argsort result in
  let elite := take [] random_gene index in
  exists child_gene t0 flat,
    children length_gene (seq 0 num_genes) elite
             (Z.of_nat (length index))
             (repeat (repeat 0%Z length_gene) num_genes) tape
    = Returns child_gene t0
    /\ randint_n 0 11 (2 * length_gene) t0 = Returns flat rest
    /\ length child_gene = 20
    /\ next = setslice (setslice child_gene 18 (reshape 2 length_gene flat))
                       (18 - length index) elite.
Proof.
  intros H index elite. unfold advance in H.
  apply bind_Returns in H. destruct H as (child_gene & t0 & Hchildren & H).
  apply bind_Returns in H. destruct H as (flat & t1 & Hflat & H).
  unfold ret in H. injection H as <- <-.
  exists child_gene, t0, flat.
  split; [exact Hchildren|]. split; [exact Hflat|].
  split; [|reflexivity].
  apply children_length in Hchildren.
  - now rewrite repeat_length in Hchildren.
  - intros j Hj. apply in_seq in Hj. rewrite repeat_length. lia.
Qed.

Lemma take_well_shaped (argsort : list nat -> list nat)
    (random_gene : list (list Z)) (result : list evaluation) :
  Forall well_shaped random_gene ->
  length random_gene = length result ->
  Forall well_shaped (take [] random_gene (elite_index argsort result)).
Proof.
  intros Hall Hlen. unfold take. apply Forall_forall. intros row Hrow.
  apply in_map_iff in Hrow. destruct Hrow as (j & <- & Hj).
  rewrite Forall_forall in Hall. apply Hall, nth_In.
  rewrite elite_index_unfold in Hj.
  rewrite elite_loop_firstn in Hj by (cbn; lia).
  cbn [app] in Hj. apply In_firstn_whole, filter_In in Hj.
  destruct Hj as [_ Hpass].
  destruct (threshold_loop_result (fidelities result))
    as (k & _ & Hloop & _).
  rewrite Hloop in Hpass. cbn [snd] in Hpass.
  apply passes_above in Hpass. destruct Hpass as [Hj _].
  unfold fidelities in Hj. rewrite length_map in Hj.
  rewrite Hlen. exact Hj.
Qed.

(** X21.  The shape of the population is kept from one generation to the next:
    from a population of genes of [length_gene] entries of 0 .. 10, one
    entry of [result] per gene, a step that returns gives [num_genes] genes
    of [length_gene] entries of 0 .. 10. *)
Theorem next_population_is_well_shaped (argsort : list nat -> list nat)
    (random_gene : list (list Z)) (result : list evaluation)
    (tape : list Z) (next : list (list Z)) (rest : list Z) :
  Forall well_shaped random_gene ->
  length random_gene = length result ->
  advance argsort num_genes length_gene random_gene result tape
  = Returns next rest ->
  length next = num_genes /\ Forall well_shaped next.
Proof.
  intros Hall Hlen H.
  pose proof (take_well_shaped argsort random_gene result Hall Hlen)
    as Helite.
  pose proof (elite_index_length argsort result) as Hten.
  apply advance_Returns in H. cbv zeta in H.
  destruct H as (child_gene & t0 & flat & Hchildren & Hflat & Hsize & ->).
  assert (Hrows : length (take [] random_gene (elite_index argsort result))
                  = length (elite_index argsort result))
    by (unfold take; apply length_map).
  apply randint_n_Returns in Hflat. destruct Hflat as [Hflen Hfall].
  assert (Hinner : length (setslice child_gene 18
                             (reshape 2 length_gene flat)) = 20)
    by (rewrite setslice_length; rewrite ?reshape_length; lia).
  split.
  - rewrite setslice_length; [exact Hinner | lia].
  - apply Forall_setslice; [|exact Helite].
    apply Forall_setslice.
    + rewrite <- Hrows in Hchildren.
      apply (children_well_shaped _ Helite) in Hchildren; [exact Hchildren|].
      apply Forall_forall. intros row Hrow. apply repeat_spec in Hrow.
      subst row. split; [apply repeat_length|].
      apply Forall_forall. intros v Hv. apply repeat_spec in Hv.
      subst v. unfold gate_code. lia.
    + now apply reshape_well_shaped.
Qed.

Lemma next_population_is_well_shaped_witness :
  exists next rest,
    advance stable_argsort num_genes length_gene some_population
            scenario_result long_tape = Returns next rest
    /\ length next = num_genes
    /\ Forall well_shaped next.
Proof.
  destruct (advance stable_argsort num_genes length_gene some_population
                    scenario_result long_tape) as [next rest| |] eqn:Hrun;
    try (vm_compute in Hrun; discriminate Hrun).
  exists next, rest. split; [reflexivity|].
  apply (next_population_is_well_shaped stable_argsort some_population
           scenario_result long_tape next rest).
  - apply well_shapedb_sound. vm_compute. reflexivity.
  - reflexivity.
  - exact Hrun.
Defined.

Lemma skipn_firstn_app {A : Type} (start : nat) (a x : list A) :
  start <= length a -> skipn start (firstn start a ++ x) = x.
Proof.
  intros Hstart. rewrite skipn_app, length_firstn.
  replace (start - Nat.min start (length a)) with 0 by lia.
  rewrite skipn_all2 by (rewrite length_firstn; lia).
  reflexivity.
Qed.

(** X22.  Elitism: in a step that returns, the elite genes stand unchanged, in
    their order, in the slots just before the two freshly drawn genes at
    the end of the next population. *)
Theorem elite_is_copied (argsort : list nat -> list nat)
    (random_gene : list (list Z)) (result : list evaluation)
    (tape : list Z) (next : list (list Z)) (rest : list Z) :
  advance argsort num_genes length_gene random_gene result tape
  = Returns next rest ->
  let index := elite_index argsort result in
  firstn (length index) (skipn (18 - length index) next)
  = take [] random_gene index.
Proof.
  intros H index.
  pose proof (elite_index_length argsort result) as Hten.
  apply advance_Returns in H. cbv zeta in H.
  destruct H as (child_gene & t0 & flat & _ & Hflat & Hsize & ->).
  fold index in Hten |- *.
  apply randint_n_Returns in Hflat. destruct Hflat as [Hflen _].
  assert (Hinner : length (setslice child_gene 18
                             (reshape 2 length_gene flat)) = 20)
    by (rewrite setslice_length; rewrite ?reshape_length; lia).
  unfold setslice at 1.
  rewrite skipn_firstn_app by lia.
  assert (Hrows : length (take [] random_gene index) = length index)
    by (unfold take; apply length_map).
  rewrite <- Hrows at 1.
  rewrite firstn_app, Nat.sub_diag, firstn_all. cbn [firstn].
  apply app_nil_r.
Qed.

Lemma elite_is_copied_witness :
  exists next rest,
    advance stable_argsort num_genes length_gene some_population
            scenario_result long_tape = Returns next rest
    /\ firstn 8 (skipn 10 next)
       = take [] some_population [2; 5; 1; 4; 7; 0; 3; 6].
Proof.
  destruct (advance stable_argsort num_genes length_gene some_population
                    scenario_result long_tape) as [next rest| |] eqn:Hrun;
    try (vm_compute in Hrun; discriminate Hrun).
  exists next, rest. split; [reflexivity|].
  apply (elite_is_copied stable_argsort some_population scenario_result
           long_tape next rest Hrun).
Defined.

(** ** Parent selection with two elites or more *)

Lemma resample_finds (n p0 : Z) :
  (0 < n)%Z ->
  forall tape p1,
    p0 <> p1 \/ (exists r, In r tape /\ (r mod n)%Z <> p0) ->
    exists b rest, resample n p0 p1 tape = Returns (p0, b) rest /\ p0 <> b.
Proof.
  intros Hn.
  induction tape as [|r tape IH]; intros p1 Hfound; cbn [resample];
    destruct (p0 =? p1)%Z eqn:Heq.
  - apply Z.eqb_eq in Heq.
    destruct Hfound as [Hne | (r & [] & _)]. now elim Hne.
  - apply Z.eqb_neq in Heq. now exists p1, [].
  - apply Z.eqb_eq in Heq. unfold draw.
    replace (n <=? 0)%Z with false by (symmetry; apply Z.leb_gt; lia).
    rewrite Z.sub_0_r, Z.add_0_l.
    apply IH.
    destruct (Z.eq_dec p0 (r mod n)) as [Hsame | Hdiff]; [|now left].
    right. destruct Hfound as [Hne | (r' & [<- | Hin] & Hr')].
    + now elim Hne.
    + now elim Hr'.
    + now exists r'.
  - apply Z.eqb_neq in Heq. now exists p1, (r :: tape).
Qed.

(** X19.  With at least two elites the choice of parents ends as soon as the tape
    holds, after the first draw, a draw that gives another index: it then
    returns the first draw's index and a different second parent. *)
Theorem two_elites_find_parents (n r0 : Z) (tape : list Z) :
  (2 <= n)%Z ->
  (exists r, In r tape /\ (r mod n)%Z <> (r0 mod n)%Z) ->
  exists p1 rest,
    choose_parents n (r0 :: tape) = Returns ((r0 mod n)%Z, p1) rest
    /\ (0 <= p1 < n)%Z
    /\ p1 <> (r0 mod n)%Z.
Proof.
  intros Hn (r & Hin & Hr).
  unfold choose_parents, GA.bind, randint.
  replace (n <=? 0)%Z with false by (symmetry; apply Z.leb_gt; lia).
  rewrite !Z.sub_0_r, !Z.add_0_l.
  destruct tape as [|r1 tape]; [destruct Hin|].
  destruct (resample_finds n (r0 mod n) ltac:(lia) tape (r1 mod n))
    as (b & rest & Hres & Hne).
  - destruct (Z.eq_dec (r0 mod n) (r1 mod n)) as [Hsame | Hdiff];
      [|now left].
    right. destruct Hin as [<- | Hin]; [now elim Hr; symmetry|].
    now exists r.
  - exists b, rest. split; [exact Hres|].
    split; [|now apply not_eq_sym].
    apply resample_Returns in Hres. destruct Hres as (_ & _ & Hb).
    apply Hb. apply Z.mod_pos_bound. lia.
Qed.

Lemma two_elites_find_parents_witness :
  exists p1 rest,
    choose_parents 2 [4; 6; 8; 3; 5]%Z = Returns (0%Z, p1) rest
    /\ (0 <= p1 < 2)%Z
    /\ p1 <> 0%Z.
Proof.
  apply (two_elites_find_parents 2 4 [6; 8; 3; 5]%Z).
  - lia.
  - exists 3%Z. split; [cbn; auto | vm_compute; discriminate].
Defined.

(** ** A vector too long for the circuit *)

(** X14.  When the vector handed to [statevector] or to the loss has more entries
    than the circuit has parameters, both raise the [IndexError] of
    [bind_parameters]; nothing is simulated. *)
Theorem loss_refuses_long_theta
    (simulate : QuantumCircuit -> list complex)
    (Gene : Gene_Circuit) (target : list complex) (theta : list Q) :
  num_parameters (circuit Gene) < length theta ->
  statevector simulate Gene theta = Err IndexError
  /\ loss simulate Gene target theta = Err IndexError.
Proof.
  unfold num_parameters. intros Hlong.
  assert (Hsv : statevector simulate Gene theta = Err IndexError).
  { unfold statevector, bind_parameters.
    rewrite binding_outside; [reflexivity | lia | cbn [Nat.add]; lia]. }
  split; [exact Hsv|]. unfold loss. now rewrite Hsv.
Qed.

Lemma loss_refuses_long_theta_witness :
  loss (fun _ => ground_state)
       (mkGene_Circuit all_empty 3 [] 0) target_statevector [1 # 2]%Q
  = Err IndexError.
Proof.
  apply (loss_refuses_long_theta (fun _ => ground_state)
           (mkGene_Circuit all_empty 3 [] 0) target_statevector [1 # 2]%Q).
  vm_compute. lia.
Defined.
